(** * YAML validation and editing intelligence: a shallow embedding

    This development embeds the parts of the YAML intelligence core that its
    specification talks about:

    - [yaml-validation/schema.ts]: [schemaType], [walkSchema],
      [normalizeSchema] and the registry [definitionsObject];
    - [schema/definitions.ts]: [define];
    - [yaml-validation/errors.ts]: [getLastFragment], [innerDescription],
      [formatHeading], [checkForBadBoolean], [checkForSimilarKey];
    - [yaml-intelligence/parsing.ts]: [attemptParsesAtLine], [getIndent],
      [getYamlIndentTree], [locateFromIndentation].

    Beyond those it embeds [expandAliasesFrom], [schemaCompletions] and
    [schemaExhaustiveCompletions] of [schema.ts].

    JavaScript values live in an explicit store: objects and arrays are
    heap cells addressed by references, so that in-place mutation
    ([delete schema.completions]) and aliasing are visible.  Functions that
    can raise return an [outcome]; loops that the source writes as [while] or
    as recursion over the store take a fuel argument and report
    [OutOfFuel] separately from a JavaScript exception. *)

From Stdlib Require Import ZArith List String Ascii Bool Lia.
From stdpp Require Import base option list list_monad sorting gmap strings pretty.

Import ListNotations.
Local Open Scope string_scope.
Local Open Scope Z_scope.
Local Open Scope list_scope.

(* ===================================================================== *)
(** * Part I: definitions                                                  *)
(* ===================================================================== *)

(** ** JavaScript values, the store, and completion records *)

Module JS.

(** How a call ends: with a value, with a thrown exception, or (model
    only) because the fuel given to a loop ran out. *)
Inductive exn : Type :=
| TypeError
| SyntaxError
| InternalError (msg : string).

Inductive outcome (A : Type) : Type :=
| Ok (a : A)
| Throw (e : exn)
| OutOfFuel.
Arguments Ok {A} a.
Arguments Throw {A} e.
Arguments OutOfFuel {A}.

#[export] Instance outcome_ret : MRet outcome := fun A a => Ok a.
#[export] Instance outcome_bind : MBind outcome := fun A B k m =>
  match m with
  | Ok a => k a
  | Throw e => Throw e
  | OutOfFuel => OutOfFuel
  end.

(** Values.  Numbers are the integers (the schemas and positions handled
    here carry no fractions); objects and arrays are references. *)
Inductive val : Type :=
| VUndefined
| VNull
| VBool (b : bool)
| VNum (n : Z)
| VStr (s : string)
| VRef (l : nat).

(** A heap cell: a plain object (own properties, in enumeration order)
    or an array. *)
Inductive obj : Type :=
| Obj (props : list (string * val))
| Arr (elems : list val).

Abbreviation heap := (list obj).

#[export] Instance val_eq_dec : EqDecision val.
Proof. solve_decision. Defined.

(** [if (v)]: JavaScript truthiness. *)
Definition truthy (v : val) : bool :=
  match v with
  | VUndefined | VNull => false
  | VBool b => b
  | VNum n => negb (n =? 0)
  | VStr s => negb (String.eqb s "")
  | VRef _ => true
  end.

(** First binding of [k] in a property list. *)
Fixpoint assoc {A : Type} (k : string) (ps : list (string * A)) : option A :=
  match ps with
  | [] => None
  | (k', v) :: ps' => if String.eqb k k' then Some v else assoc k ps'
  end.

(** [delete o.k] on a property list. *)
Fixpoint remove {A : Type} (k : string) (ps : list (string * A)) : list (string * A) :=
  match ps with
  | [] => []
  | (k', v) :: ps' =>
      if String.eqb k k' then remove k ps' else (k', v) :: remove k ps'
  end.

(** [v.k] for a property name [k] that no built-in prototype defines
    (every name read by the embedded code is of that kind): a missing
    property reads as [undefined], a read on [null] or [undefined]
    throws, a read on a primitive or an array gives [undefined]. *)
Definition getField (h : heap) (v : val) (k : string) : outcome val :=
  match v with
  | VUndefined | VNull => Throw TypeError
  | VRef l =>
      match h !! l with
      | Some (Obj props) => Ok (default VUndefined (assoc k props))
      | Some (Arr _) => Ok VUndefined
      | None => Throw (InternalError "dangling reference")
      end
  | _ => Ok VUndefined
  end.

(** [delete v.k], reached only after [v.k] was read as truthy. *)
Definition deleteField (h : heap) (v : val) (k : string) : heap :=
  match v with
  | VRef l =>
      match h !! l with
      | Some (Obj props) => <[l := Obj (remove k props)]> h
      | _ => h
      end
  | _ => h
  end.

(** Indexing a JavaScript array with a number: [undefined] outside the
    array. *)
Definition nthZ {A : Type} (xs : list A) (i : Z) : option A :=
  if i <? 0 then None else xs !! Z.to_nat i.

(** ECMAScript's WhiteSpace and LineTerminator code units, as far as
    they fit the 8-bit characters of [string]: TAB, LF, VT, FF, CR,
    SPACE and NBSP. *)
Definition isWhiteSpace (c : ascii) : bool :=
  let n := nat_of_ascii c in
  ((9 <=? n)%nat && (n <=? 13)%nat) || (n =? 32)%nat || (n =? 160)%nat.

Fixpoint trimStart (s : string) : string :=
  match s with
  | EmptyString => EmptyString
  | String c s' => if isWhiteSpace c then trimStart s' else s
  end.

Fixpoint trimEnd (s : string) : string :=
  match s with
  | EmptyString => EmptyString
  | String c s' =>
      match trimEnd s' with
      | EmptyString => if isWhiteSpace c then EmptyString else String c EmptyString
      | t => String c t
      end
  end.

Definition trim (s : string) : string := trimEnd (trimStart s).

End JS.

Export JS.

(** ** Schemas ([yaml-validation/schema.ts]) *)

Module Schema.

(** [schemaType], lines 29-47.  The value of [type] is returned as it is
    when it is truthy. *)
Definition schemaType (h : heap) (schema : val) : outcome val :=
  t ← getField h schema "type";
  if truthy t then Ok t else
  anyOf ← getField h schema "anyOf";
  if truthy anyOf then Ok (VStr "anyOf") else
  oneOf ← getField h schema "oneOf";
  if truthy oneOf then Ok (VStr "oneOf") else
  allOf ← getField h schema "allOf";
  if truthy allOf then Ok (VStr "allOf") else
  enum ← getField h schema "enum";
  if truthy enum then Ok (VStr "enum") else
  Ok (VStr "any").

(** Running a loop body over a list of values, threading the store. *)
Fixpoint forEach {A : Type} (body : A → heap → outcome heap) (xs : list A) (h : heap)
    : outcome heap :=
  match xs with
  | [] => Ok h
  | x :: xs' => h' ← body x h; forEach body xs' h'
  end.

(** The array iterator behind [for (const s of a)]: it reads the array
    again at every step and stops at its current end. *)
Fixpoint forOfArray (n : nat) (body : val → heap → outcome heap) (l i : nat) (h : heap)
    : outcome heap :=
  match h !! l with
  | Some (Arr vs) =>
      match vs !! i with
      | None => Ok h
      | Some v =>
          match n with
          | O => OutOfFuel
          | S n' => h' ← body v h; forOfArray n' body l (S i) h'
          end
      end
  | _ => Throw TypeError
  end.

Definition chars (s : string) : list val :=
  map (λ c, VStr (String c EmptyString)) (list_ascii_of_string s).

(** [for (const s of xs) body(s)]: arrays and strings are iterable, every
    other value makes the loop throw. *)
Definition forOf (n : nat) (body : val → heap → outcome heap) (xs : val) (h : heap)
    : outcome heap :=
  match xs with
  | VRef l =>
      match h !! l with
      | Some (Arr _) => forOfArray n body l 0 h
      | Some (Obj _) => Throw TypeError
      | None => Throw (InternalError "dangling reference")
      end
  | VStr s => forEach body (chars s) h
  | _ => Throw TypeError
  end.

(** Own property names: the keys of an object; the indices and [length]
    of an array or a string. *)
Inductive pname : Type :=
| PName (k : string)
| PIndex (i : nat)
| PLength.

Definition getOwnPropertyNames (h : heap) (v : val) : outcome (list pname) :=
  match v with
  | VUndefined | VNull => Throw TypeError
  | VRef l =>
      match h !! l with
      | Some (Obj props) => Ok (map (λ p, PName p.1) props)
      | Some (Arr vs) => Ok (map PIndex (seq 0 (length vs)) ++ [PLength])
      | None => Throw (InternalError "dangling reference")
      end
  | VStr s => Ok (map PIndex (seq 0 (String.length s)) ++ [PLength])
  | _ => Ok []
  end.

(** [v[key]] for a name produced by [getOwnPropertyNames]. *)
Definition getProp (h : heap) (v : val) (key : pname) : outcome val :=
  match v with
  | VUndefined | VNull => Throw TypeError
  | VRef l =>
      match h !! l with
      | Some (Obj props) =>
          match key with
          | PName k => Ok (default VUndefined (assoc k props))
          | PIndex i => Ok (default VUndefined (assoc (pretty i) props))
          | PLength => Ok (default VUndefined (assoc "length" props))
          end
      | Some (Arr vs) =>
          match key with
          | PIndex i => Ok (default VUndefined (vs !! i))
          | PLength => Ok (VNum (Z.of_nat (length vs)))
          | PName _ => Ok VUndefined
          end
      | None => Throw (InternalError "dangling reference")
      end
  | VStr s =>
      match key with
      | PIndex i => Ok (default VUndefined (chars s !! i))
      | PLength => Ok (VNum (Z.of_nat (String.length s)))
      | PName _ => Ok VUndefined
      end
  | _ => Ok VUndefined
  end.

(** The block repeated for [properties] and [patternProperties], lines
    139-150: the names are listed once, [schema[field][key]] is read at
    every step. *)
Definition walkOwn (body : val → heap → outcome heap) (field : string) (schema : val)
    (h : heap) : outcome heap :=
  p ← getField h schema field;
  if truthy p then
    names ← getOwnPropertyNames h p;
    forEach (λ key h, p' ← getField h schema field;
                      s ← getProp h p' key;
                      body s h) names h
  else Ok h.

(** [walkSchema], lines 114-165.  [fuel] bounds the depth of the
    recursion and the length of the arrays iterated. *)
Fixpoint walkSchema (fuel : nat) (f : val → heap → outcome heap) (schema : val) (h : heap)
    : outcome heap :=
  match fuel with
  | O => OutOfFuel
  | S fuel' =>
      h ← f schema h;
      t ← schemaType h schema;
      if decide (t = VStr "array") then
        items ← getField h schema "items";
        if truthy items then walkSchema fuel' f items h else Ok h
      else if decide (t = VStr "anyOf") then
        xs ← getField h schema "anyOf";
        forOf fuel' (walkSchema fuel' f) xs h
      else if decide (t = VStr "oneOf") then
        xs ← getField h schema "oneOf";
        forOf fuel' (walkSchema fuel' f) xs h
      else if decide (t = VStr "allOf") then
        xs ← getField h schema "allOf";
        forOf fuel' (walkSchema fuel' f) xs h
      else if decide (t = VStr "object") then
        h ← walkOwn (walkSchema fuel' f) "properties" schema h;
        h ← walkOwn (walkSchema fuel' f) "patternProperties" schema h;
        ap ← getField h schema "additionalProperties";
        if truthy ap then walkSchema fuel' f ap h else Ok h
      else Ok h
  end.

(** The fields that only authoring tools read. *)
Definition authoringFields : list string :=
  ["completions"; "exhaustiveCompletions"; "documentation"; "tags"].

(** [if (schema.k) { delete schema.k; }] *)
Definition deleteIfTruthy (k : string) (schema : val) (h : heap) : outcome heap :=
  v ← getField h schema k;
  Ok (if truthy v then deleteField h schema k else h).

(** The callback of [normalizeSchema], lines 177-190. *)
Definition stripAuthoring (schema : val) (h : heap) : outcome heap :=
  forEach (λ k, deleteIfTruthy k schema) authoringFields h.

(** *** JSON text as a tree *)

#[warning="-register-all"]
Inductive json : Type :=
| JNull
| JBool (b : bool)
| JNum (n : Z)
| JStr (s : string)
| JArr (js : list json)
| JObj (fs : list (string * json)).

(** Induction over trees, with the hypothesis for every child. *)
Fixpoint json_induction (P : json → Prop)
    (HNull : P JNull) (HBool : ∀ b, P (JBool b)) (HNum : ∀ n, P (JNum n))
    (HStr : ∀ s, P (JStr s))
    (HArr : ∀ js, Forall P js → P (JArr js))
    (HObj : ∀ fs, Forall (λ f, P f.2) fs → P (JObj fs))
    (j : json) {struct j} : P j :=
  match j with
  | JNull => HNull
  | JBool b => HBool b
  | JNum n => HNum n
  | JStr s => HStr s
  | JArr js =>
      HArr js ((fix go (js : list json) : Forall P js :=
                  match js with
                  | [] => @List.Forall_nil _ P
                  | x :: xs =>
                      @List.Forall_cons _ P x xs
                        (json_induction P HNull HBool HNum HStr HArr HObj x) (go xs)
                  end) js)
  | JObj fs =>
      HObj fs ((fix go (fs : list (string * json)) : Forall (λ f, P f.2) fs :=
                  match fs with
                  | [] => @List.Forall_nil _ _
                  | f :: fs' =>
                      @List.Forall_cons _ (λ f, P f.2) f fs'
                        (json_induction P HNull HBool HNum HStr HArr HObj f.2) (go fs')
                  end) fs)
  end.

(** [JSON.stringify]: the tree that the text denotes, [None] where
    JavaScript gives [undefined].  A property holding [undefined] is left
    out, an [undefined] array element becomes [null], and an object met
    again below itself makes the call throw.  [stack] holds the objects
    being serialised. *)
Fixpoint stringify (fuel : nat) (stack : list nat) (h : heap) (v : val)
    : outcome (option json) :=
  match v with
  | VUndefined => Ok None
  | VNull => Ok (Some JNull)
  | VBool b => Ok (Some (JBool b))
  | VNum n => Ok (Some (JNum n))
  | VStr s => Ok (Some (JStr s))
  | VRef l =>
      if decide (l ∈ stack) then Throw TypeError else
      match fuel with
      | O => OutOfFuel
      | S fuel' =>
          match h !! l with
          | Some (Arr vs) =>
              js ← mapM (λ v, o ← stringify fuel' (l :: stack) h v;
                              Ok (default JNull o)) vs;
              Ok (Some (JArr js))
          | Some (Obj props) =>
              fs ← mapM (λ p : string * val,
                           o ← stringify fuel' (l :: stack) h p.2;
                           Ok (option_map (pair p.1) o)) props;
              Ok (Some (JObj (omap id fs)))
          | None => Throw (InternalError "dangling reference")
          end
      end
  end.

(** [JSON.parse]: fresh cells are appended to the store, children before
    their parent. *)
Fixpoint parse (j : json) (h : heap) {struct j} : val * heap :=
  match j with
  | JNull => (VNull, h)
  | JBool b => (VBool b, h)
  | JNum n => (VNum n, h)
  | JStr s => (VStr s, h)
  | JArr js =>
      let '(vs, h1) :=
        (fix parseList (js : list json) (h : heap) {struct js} : list val * heap :=
           match js with
           | [] => ([], h)
           | j :: js' =>
               let '(v, h1) := parse j h in
               let '(vs, h2) := parseList js' h1 in
               (v :: vs, h2)
           end) js h in
      (VRef (length h1), h1 ++ [Arr vs])
  | JObj fs =>
      let '(ps, h1) :=
        (fix parseFields (fs : list (string * json)) (h : heap) {struct fs}
             : list (string * val) * heap :=
           match fs with
           | [] => ([], h)
           | (k, j) :: fs' =>
               let '(v, h1) := parse j h in
               let '(ps, h2) := parseFields fs' h1 in
               ((k, v) :: ps, h2)
           end) fs h in
      (VRef (length h1), h1 ++ [Obj ps])
  end.

Fixpoint parseList (js : list json) (h : heap) : list val * heap :=
  match js with
  | [] => ([], h)
  | j :: js' =>
      let '(v, h1) := parse j h in
      let '(vs, h2) := parseList js' h1 in
      (v :: vs, h2)
  end.

Fixpoint parseFields (fs : list (string * json)) (h : heap) : list (string * val) * heap :=
  match fs with
  | [] => ([], h)
  | (k, j) :: fs' =>
      let '(v, h1) := parse j h in
      let '(ps, h2) := parseFields fs' h1 in
      ((k, v) :: ps, h2)
  end.

(** [normalizeSchema], lines 173-193: the copy
    [JSON.parse(JSON.stringify(schema))] is walked and stripped in place.
    [JSON.parse(undefined)] is a [SyntaxError]. *)
Definition normalizeSchema (fuel : nat) (schema : val) (h : heap) : outcome (val * heap) :=
  text ← stringify fuel [] h schema;
  match text with
  | None => Throw SyntaxError
  | Some j =>
      let '(result, h1) := parse j h in
      h2 ← walkSchema fuel stripAuthoring result h1;
      Ok (result, h2)
  end.

(** A field that is present with a truthy value: what [if (schema.k)]
    tests. *)
Definition hasField (h : heap) (schema : val) (k : string) : Prop :=
  ∃ v, getField h schema k = Ok v ∧ truthy v = true.

Definition lacksField (h : heap) (schema : val) (k : string) : Prop :=
  ∃ v, getField h schema k = Ok v ∧ truthy v = false.


(** *** What the walk does, on trees *)

Definition truthyJ (j : json) : bool :=
  match j with
  | JNull => false
  | JBool b => b
  | JNum n => negb (n =? 0)
  | JStr s => negb (String.eqb s "")
  | JArr _ | JObj _ => true
  end.

Definition isAuthoring (k : string) : bool := existsb (String.eqb k) authoringFields.

(** [schemaType] read off the fields of an object. *)
Definition schemaTypeJ (fs : list (string * json)) : json :=
  let has k := match assoc k fs with Some v => truthyJ v | None => false end in
  if has "type" then default JNull (assoc "type" fs)
  else if has "anyOf" then JStr "anyOf"
  else if has "oneOf" then JStr "oneOf"
  else if has "allOf" then JStr "allOf"
  else if has "enum" then JStr "enum"
  else JStr "any".

(** How [walkSchema] treats the value of a field of a node classified as
    [t]: it walks into it when it is truthy ([Single]: [items],
    [additionalProperties]), iterates it ([Each]: the combinators), walks
    the values of its own properties ([Own]: [properties],
    [patternProperties]), or leaves it alone. *)
Inductive childKind : Type := Single | Each | Own | Skip.

Definition isStr (t : json) (s : string) : bool :=
  match t with
  | JStr s' => String.eqb s' s
  | _ => false
  end.

Definition kindOf (t : json) (k : string) : childKind :=
  if isStr t "array" then (if String.eqb k "items" then Single else Skip)
  else if isStr t "anyOf" then (if String.eqb k "anyOf" then Each else Skip)
  else if isStr t "oneOf" then (if String.eqb k "oneOf" then Each else Skip)
  else if isStr t "allOf" then (if String.eqb k "allOf" then Each else Skip)
  else if isStr t "object" then
    (if String.eqb k "properties" || String.eqb k "patternProperties" then Own
     else if String.eqb k "additionalProperties" then Single else Skip)
  else Skip.

(** A node classified as a combinator that has no such field: the loop
    would iterate [undefined]. *)
Definition lacksIterable (t : json) (fs : list (string * json)) : bool :=
  match t with
  | JStr k =>
      (String.eqb k "anyOf" || String.eqb k "oneOf" || String.eqb k "allOf")
      && bool_decide (assoc k fs = None)
  | _ => false
  end.

(** The tree that [walkSchema] with the callback of [normalizeSchema]
    leaves behind: at every node it reaches, the authoring fields that
    hold a truthy value are gone; the nodes it reaches are those that
    [kindOf] names.  Walking into [null] throws, as does iterating a
    value that is neither an array nor a string. *)
Fixpoint normalizeJson (j : json) : outcome json :=
  match j with
  | JNull => Throw TypeError
  | JObj fs =>
      let t := schemaTypeJ fs in
      if lacksIterable t fs then Throw TypeError else
      fs' ← (fix fields (fs : list (string * json)) : outcome (list (string * json)) :=
               match fs with
               | [] => Ok []
               | (k, v) :: rest =>
                   if isAuthoring k && truthyJ v then fields rest else
                   v' ← match kindOf t k with
                        | Single => if truthyJ v then normalizeJson v else Ok v
                        | Each =>
                            match v with
                            | JArr js =>
                                js' ← (fix each (js : list json) : outcome (list json) :=
                                         match js with
                                         | [] => Ok []
                                         | x :: xs =>
                                             x' ← normalizeJson x;
                                             xs' ← each xs;
                                             Ok (x' :: xs')
                                         end) js;
                                Ok (JArr js')
                            | JStr _ => Ok v
                            | _ => Throw TypeError
                            end
                        | Own =>
                            match v with
                            | JObj pfs =>
                                pfs' ← (fix own (pfs : list (string * json))
                                            : outcome (list (string * json)) :=
                                          match pfs with
                                          | [] => Ok []
                                          | (pk, pv) :: r =>
                                              pv' ← normalizeJson pv;
                                              r' ← own r;
                                              Ok ((pk, pv') :: r')
                                          end) pfs;
                                Ok (JObj pfs')
                            | JArr js =>
                                js' ← (fix each (js : list json) : outcome (list json) :=
                                         match js with
                                         | [] => Ok []
                                         | x :: xs =>
                                             x' ← normalizeJson x;
                                             xs' ← each xs;
                                             Ok (x' :: xs')
                                         end) js;
                                Ok (JArr js')
                            | _ => Ok v
                            end
                        | Skip => Ok v
                        end;
                   rest' ← fields rest;
                   Ok ((k, v') :: rest')
               end) fs;
      Ok (JObj fs')
  | _ => Ok j
  end.

(** The same, piece by piece. *)
Fixpoint normalizeEach (js : list json) : outcome (list json) :=
  match js with
  | [] => Ok []
  | x :: xs => x' ← normalizeJson x; xs' ← normalizeEach xs; Ok (x' :: xs')
  end.

Fixpoint normalizeOwn (pfs : list (string * json)) : outcome (list (string * json)) :=
  match pfs with
  | [] => Ok []
  | (pk, pv) :: r => pv' ← normalizeJson pv; r' ← normalizeOwn r; Ok ((pk, pv') :: r')
  end.

Definition normalizeChild (kind : childKind) (v : json) : outcome json :=
  match kind with
  | Single => if truthyJ v then normalizeJson v else Ok v
  | Each =>
      match v with
      | JArr js => js' ← normalizeEach js; Ok (JArr js')
      | JStr _ => Ok v
      | _ => Throw TypeError
      end
  | Own =>
      match v with
      | JObj pfs => pfs' ← normalizeOwn pfs; Ok (JObj pfs')
      | JArr js => js' ← normalizeEach js; Ok (JArr js')
      | _ => Ok v
      end
  | Skip => Ok v
  end.

Section NormalizeFields.
Variable t : json.

Fixpoint normalizeFields (fs : list (string * json)) : outcome (list (string * json)) :=
  match fs with
  | [] => Ok []
  | (k, v) :: rest =>
      if isAuthoring k && truthyJ v then normalizeFields rest else
      v' ← normalizeChild (kindOf t k) v;
      rest' ← normalizeFields rest;
      Ok ((k, v') :: rest')
  end.

End NormalizeFields.

(** Dropping the authoring fields that hold a truthy value; [tr] is the
    truthiness of the values. *)
Fixpoint filterBy {A : Type} (keep : string → A → bool) (ps : list (string * A))
    : list (string * A) :=
  match ps with
  | [] => []
  | (k, v) :: r => if keep k v then (k, v) :: filterBy keep r else filterBy keep r
  end.

Definition stripFields {A : Type} (tr : A → bool) (ps : list (string * A))
    : list (string * A) :=
  filterBy (λ k v, negb (isAuthoring k && tr v)) ps.

(** [if (o.k) { delete o.k; }] on the properties of an object. *)
Definition deleted {A : Type} (tr : A → bool) (k : string) (ps : list (string * A))
    : list (string * A) :=
  match assoc k ps with
  | Some v => if tr v then remove k ps else ps
  | None => ps
  end.

(** The number of nodes of a tree; fuel above it is enough for
    [normalizeSchema]. *)
Fixpoint jsize (j : json) : nat :=
  match j with
  | JArr js => S (foldr (λ x n, jsize x + n)%nat O js)
  | JObj fs => S (foldr (λ f n, jsize f.2 + n)%nat O fs)
  | _ => 1%nat
  end.

(** No object of the tree names a property twice. *)
Fixpoint uniqueKeys (j : json) : bool :=
  match j with
  | JArr js => forallb uniqueKeys js
  | JObj fs => bool_decide (NoDup (map fst fs)) && forallb (λ f, uniqueKeys f.2) fs
  | _ => true
  end.

(** *** Trees in the store *)

Section Chain.
Context {A B : Type} (P : A → B → nat → nat → Prop).

(** The elements of [xs] are laid out one after the other (gaps
    allowed) between [lo] and [hi]. *)
Fixpoint chain (xs : list A) (ys : list B) (lo hi : nat) : Prop :=
  match xs, ys with
  | [], [] => (lo ≤ hi)%nat
  | x :: xs', y :: ys' => ∃ mid, P x y lo mid ∧ chain xs' ys' mid hi
  | _, _ => False
  end.

End Chain.

(** [tree h j v lo hi]: the value [v] is the root of a copy of [j] whose
    cells all lie in [lo, hi), every cell being used once; the children
    of a node come before it. *)
Fixpoint tree (h : heap) (j : json) (v : val) (lo hi : nat) {struct j} : Prop :=
  match j with
  | JNull => v = VNull ∧ (lo ≤ hi)%nat
  | JBool b => v = VBool b ∧ (lo ≤ hi)%nat
  | JNum n => v = VNum n ∧ (lo ≤ hi)%nat
  | JStr s => v = VStr s ∧ (lo ≤ hi)%nat
  | JArr js =>
      ∃ l vs, v = VRef l ∧ h !! l = Some (Arr vs) ∧ (l < hi)%nat ∧
              chain (tree h) js vs lo l
  | JObj fs =>
      ∃ l ps, v = VRef l ∧ h !! l = Some (Obj ps) ∧ (l < hi)%nat ∧
              NoDup (map fst ps) ∧
              chain (λ f p a b, f.1 = p.1 ∧ tree h f.2 p.2 a b) fs ps lo l
  end.

Definition field (h : heap) (f : string * json) (p : string * val) (a b : nat) : Prop :=
  f.1 = p.1 ∧ tree h f.2 p.2 a b.

(** The stores agree on every cell outside [lo, hi). *)
Definition sameOutside (lo hi : nat) (h h' : heap) : Prop :=
  length h' = length h ∧ ∀ l, ¬ (lo ≤ l < hi)%nat → h' !! l = h !! l.

(** A value and the tree it stands for look alike at the root. *)
Definition shallow (j : json) (v : val) : Prop :=
  match j, v with
  | JNull, VNull => True
  | JBool b, VBool b' => b = b'
  | JNum n, VNum n' => n = n'
  | JStr s, VStr s' => s = s'
  | JArr _, VRef _ => True
  | JObj _, VRef _ => True
  | _, _ => False
  end.

(** An operation on the store follows a computation on trees: it ends
    the same way, and when both succeed the store satisfies [post]. *)
Definition simulates {X : Type} (op : outcome heap) (r : outcome X)
    (post : X → heap → Prop) : Prop :=
  match r with
  | Ok x => ∃ h', op = Ok h' ∧ post x h'
  | Throw _ => op = Throw TypeError
  | OutOfFuel => False
  end.

(** Walking the copy [v] of [j] with the callback of [normalizeSchema]
    turns it, in place, into a copy of [normalizeJson j]. *)
Definition walks (fuel : nat) (j : json) (h : heap) (v : val) (lo hi : nat) : Prop :=
  simulates (walkSchema fuel stripAuthoring v h) (normalizeJson j)
    (λ j' h', tree h' j' v lo hi ∧ sameOutside lo hi h h').

(** Applying [g] to the value of every field, in order. *)
Fixpoint mapFields (g : string → json → outcome json) (fs : list (string * json))
    : outcome (list (string * json)) :=
  match fs with
  | [] => Ok []
  | (k, v) :: rest => v' ← g k v; rest' ← mapFields g rest; Ok ((k, v') :: rest')
  end.

Definition updateAt (k : string) (g : json → outcome json) (fs : list (string * json))
    : outcome (list (string * json)) :=
  mapFields (λ k' v, if String.eqb k' k then g v else Ok v) fs.

Definition setAt (k : string) (j : json) (fs : list (string * json))
    : list (string * json) :=
  map (λ f, if String.eqb f.1 k then (f.1, j) else f) fs.

(** A computation on trees that only ever throws a [TypeError]. *)
Definition tame {X : Type} (r : outcome X) : Prop :=
  match r with
  | Ok _ => True
  | Throw e => e = TypeError
  | OutOfFuel => False
  end.

(** Whether an object has an own property [k]. *)
Definition hasOwn (h : heap) (v : val) (k : string) : bool :=
  match v with
  | VRef l =>
      match h !! l with
      | Some (Obj props) => bool_decide (is_Some (assoc k props))
      | _ => false
      end
  | _ => false
  end.

(** The reading of the specification under which the node returned by
    [normalizeSchema] carries none of the authoring fields. *)
Definition authoringRemoved (fuel : nat) (schema : val) (h : heap) : Prop :=
  ∀ result h', normalizeSchema fuel schema h = Ok (result, h') →
               ∀ k, k ∈ authoringFields → hasOwn h' result k = false.

(** What [JSON.parse] builds for the tree [j]: a copy made of fresh cells
    at the end of the store. *)
Definition parsesTo (j : json) : Prop :=
  uniqueKeys j = true →
  ∀ h v h', parse j h = (v, h') →
    (∃ ext, h' = h ++ ext) ∧ tree h' j v (length h) (length h').

End Schema.

(** ** The registry of schema definitions
       ([yaml-validation/schema.ts], [schema/definitions.ts]) *)

Module Registry.
Import Schema.

(** [definitionsObject] is a plain object: next to its own properties it
    answers for the names it inherits from [Object.prototype]. *)
Definition objectPrototypeNames : list string :=
  ["constructor"; "__defineGetter__"; "__defineSetter__"; "hasOwnProperty";
   "__lookupGetter__"; "__lookupSetter__"; "isPrototypeOf"; "propertyIsEnumerable";
   "toString"; "valueOf"; "__proto__"; "toLocaleString"].

(** The property key that a value used as an index is turned into.  An
    object gives ["[object Object]"]; an array, which would be joined,
    is treated alike. *)
Definition toPropertyKey (v : val) : string :=
  match v with
  | VUndefined => "undefined"
  | VNull => "null"
  | VBool true => "true"
  | VBool false => "false"
  | VNum n => pretty n
  | VStr s => s
  | VRef _ => "[object Object]"
  end.

(** What [definitionsObject[key]] reads. *)
Inductive slot : Type :=
| Own (schema : val)
| Inherited (name : string)
| Absent.

Definition readSlot (d : gmap string val) (key : string) : slot :=
  match d !! key with
  | Some v => Own v
  | None => if decide (key ∈ objectPrototypeNames) then Inherited key else Absent
  end.

(** [definitionsObject[key] === undefined] *)
Definition isUndefined (s : slot) : bool :=
  match s with
  | Own VUndefined | Absent => true
  | _ => false
  end.

(** [hasSchemaDefinition], lines 197-200. *)
Definition hasSchemaDefinition (d : gmap string val) (key : string) : bool :=
  negb (isUndefined (readSlot d key)).

(** [getSchemaDefinition], lines 202-208. *)
Definition getSchemaDefinition (d : gmap string val) (key : string) : outcome slot :=
  if isUndefined (readSlot d key)
  then Throw (InternalError "Internal Error: Schema not found.")
  else Ok (readSlot d key).

(** [setSchemaDefinition], lines 210-215. *)
Definition setSchemaDefinition (h : heap) (d : gmap string val) (schema : val)
    : outcome (gmap string val) :=
  id ← getField h schema "$id";
  let key := toPropertyKey id in
  if isUndefined (readSlot d key) then Ok (<[key := schema]> d) else Ok d.

(** [withValidator] of [validator-queue.ts], which is not among the
    sources: it builds and caches a validator for a normalized schema.  It
    has its own state and may allocate; the registry is private to
    [schema.ts] and out of its reach. *)
Class ValidatorQueue : Type := {
  Validators : Type;
  withValidator : val → heap → Validators → outcome (heap * Validators)
}.

Section Define.
Context `{VQ : ValidatorQueue}.

(** Everything [define] can touch. *)
Record World : Type := {
  store : heap;
  definitionsObject : gmap string val;
  validators : Validators
}.

(** [define], [definitions.ts] lines 64-70.  The state is returned also
    when the call throws: what [setSchemaDefinition] stored stays
    stored. *)
Definition define (fuel : nat) (schema : val) (w : World) : World * outcome unit :=
  match getField (store w) schema "$id" with
  | Ok id =>
      if hasSchemaDefinition (definitionsObject w) (toPropertyKey id) then (w, Ok ())
      else
        match setSchemaDefinition (store w) (definitionsObject w) schema with
        | Ok d =>
            let w1 := {| store := store w; definitionsObject := d;
                         validators := validators w |} in
            match normalizeSchema fuel schema (store w) with
            | Ok (n, h1) =>
                match withValidator n h1 (validators w) with
                | Ok (h2, vs) =>
                    ({| store := h2; definitionsObject := d; validators := vs |}, Ok ())
                | Throw e => (w1, Throw e)
                | OutOfFuel => (w1, OutOfFuel)
                end
            | Throw e => (w1, Throw e)
            | OutOfFuel => (w1, OutOfFuel)
            end
        | Throw e => (w, Throw e)
        | OutOfFuel => (w, OutOfFuel)
        end
  | Throw e => (w, Throw e)
  | OutOfFuel => (w, OutOfFuel)
  end.

(** The key under which a schema registers. *)
Definition idKey (h : heap) (schema : val) : outcome string :=
  id ← getField h schema "$id"; Ok (toPropertyKey id).

End Define.

End Registry.

(** ** Validation errors and their handlers ([yaml-validation/errors.ts]) *)

Module Errors.
Import Schema.

(** Types that the error records only carry along. *)
Class ErrorTypes : Type := {
  ErrorLocation : Type;
  Source : Type;
  number : Type
}.

Section Handlers.
Context `{ET : ErrorTypes}.

Record AnnotatedParse : Type := {
  start : Z;
  end_ : Z;
  result : val;
  kind : string
}.

(** [error.ajvError.params]; of its fields only [schema] is read. *)
Record Params : Type := { schema : val }.

Record AjvError : Type := {
  keyword : string;
  ajvInstancePath : string;
  schemaPath : string;
  params : option Params;
  parentSchema : val
}.

Record TidyverseError : Type := {
  heading : string;
  error : list string;
  info : list string;
  niceLocation : ErrorLocation
}.

Record LocalizedError : Type := {
  source : Source;
  violatingObject : AnnotatedParse;
  instancePath : string;
  message : string;
  location : ErrorLocation;
  niceError : TidyverseError;
  ajvError : AjvError
}.

(** The imports of [errors.ts] that are not among the sources
    ([../external/colors.ts], [../errors.ts], [../text.ts],
    [./yaml-schema.ts], [./schema-utils.ts], [./schema-navigation.ts])
    and the built-ins that decode a string or turn a value into a string
    or a number.  [resolveSchema] receives the value of [$ref];
    [editDistance] adds up whole costs; [objectText] is [String(o)] for
    an object or array in the store. *)
Class ErrorLib : Type := {
  blue : string → string;
  quotedStringColor : string → string;
  getVerbatimInput : LocalizedError → string;
  addInstancePathInfo : TidyverseError → string → TidyverseError;
  addFileInfo : TidyverseError → Source → TidyverseError;
  navigateSchemaByInstancePath : heap → list string → val → outcome (list val);
  decodeURIComponent : string → outcome string;
  objectText : heap → nat → outcome string;
  editDistance : string → string → nat;
  resolveSchema : heap → val → outcome val;
  possibleSchemaKeys : heap → val → outcome (list string);
  toNumber : string → option number;
  numberToString : number → string;
  numberPlusOne : number → string
}.

Context `{EL : ErrorLib}.

(** [s.split("/")] *)
Fixpoint splitSlash (s : string) : list string :=
  match s with
  | EmptyString => [EmptyString]
  | String c s' =>
      match splitSlash s' with
      | [] => [EmptyString]
      | x :: xs => if Ascii.eqb c "/" then EmptyString :: x :: xs else String c x :: xs
      end
  end.

Inductive fragment : Type :=
| FUndefined
| FNumber (n : number)
| FString (s : string).

(** [getLastFragment], lines 53-67. *)
Definition getLastFragment (instancePath : string) : fragment :=
  let splitPath := splitSlash instancePath in
  if (length splitPath =? 0)%nat then FUndefined else
  match last splitPath with
  | None => FUndefined
  | Some lastFragment =>
      if String.eqb lastFragment "" then FUndefined else
      match toNumber lastFragment with
      | Some maybeNumber => FNumber maybeNumber
      | None => FString lastFragment
      end
  end.

(** [String(getLastFragment(...))] *)
Definition fragmentToString (f : fragment) : string :=
  match f with
  | FUndefined => "undefined"
  | FNumber n => numberToString n
  | FString s => s
  end.

(** [isEmptyValue], lines 48-51. *)
Definition isEmptyValue (error : LocalizedError) : bool :=
  (String.length (trim (getVerbatimInput error)) =? 0)%nat.

(** [reindent], lines 98-103. *)
Definition reindent (str : string) : string := str.

(** [xs.join(sep)] on texts. *)
Fixpoint join (sep : string) (xs : list string) : string :=
  match xs with
  | [] => ""
  | [x] => x
  | x :: xs' => x +:+ sep +:+ join sep xs'
  end.

(** The text that [join] gives an element of the array: none for
    [undefined] and [null], [String(v)] otherwise. *)
Definition elementText (h : heap) (v : val) : outcome string :=
  match v with
  | VUndefined | VNull => Ok ""
  | VBool true => Ok "true"
  | VBool false => Ok "false"
  | VNum n => Ok (pretty n)
  | VStr s => Ok s
  | VRef l => objectText h l
  end.

(** [(params && params.schema) || parentSchema], lines 111-112 and
    367-368. *)
Definition errorSchemaOf (a : AjvError) : val :=
  match params a with
  | Some p => if truthy (schema p) then schema p else parentSchema a
  | None => parentSchema a
  end.

(** [innerDescription], lines 105-117. *)
Definition innerDescription (h : heap) (error : LocalizedError) (parse : AnnotatedParse)
    (schema : val) : outcome string :=
  let path := drop 1 (splitSlash (schemaPath (ajvError error))) in
  let errorSchema := errorSchemaOf (ajvError error) in
  innerSchema ← (if truthy errorSchema then Ok [errorSchema]
                 else decoded ← mapM decodeURIComponent path;
                      navigateSchemaByInstancePath h decoded schema);
  descriptions ← mapM (λ s, getField h s "description") innerSchema;
  texts ← mapM (elementText h) descriptions;
  Ok (join ", " texts).

(** [formatHeading], lines 119-159. *)
Definition formatHeading (h : heap) (error : LocalizedError) (parse : AnnotatedParse)
    (schema : val) : outcome string :=
  let rawVerbatimInput := getVerbatimInput error in
  let verbatimInput := quotedStringColor (reindent rawVerbatimInput) in
  let empty := isEmptyValue error in
  match getLastFragment (instancePath error) with
  | FUndefined =>
      if empty then Ok "YAML object is missing."
      else
        innerDesc ← innerDescription h error parse schema;
        Ok ("YAML object " +:+ verbatimInput +:+ " must instead " +:+ innerDesc)
  | FNumber lastFragment =>
      innerDesc ← innerDescription h error parse schema;
      if empty
      then Ok ("Array entry " +:+ numberPlusOne lastFragment
               +:+ " is empty but it must instead " +:+ innerDesc +:+ ".")
      else Ok ("Array entry " +:+ numberPlusOne lastFragment +:+ " has value "
               +:+ verbatimInput +:+ " must instead " +:+ innerDesc +:+ ".")
  | FString lastFragment =>
      let formatLastFragment := blue lastFragment in
      innerDesc ← innerDescription h error parse schema;
      if empty
      then Ok ("Key " +:+ formatLastFragment +:+ " has empty value but it must instead "
               +:+ innerDesc)
      else Ok ("Key " +:+ formatLastFragment +:+ " has value " +:+ verbatimInput
               +:+ " but it must instead " +:+ innerDesc)
  end.

(** The literals of https://yaml.org/type/bool.html, lines 272-273. *)
Definition yesses : list string :=
  ["y"; "Y"; "yes"; "Yes"; "YES"; "true"; "True"; "TRUE"; "on"; "On"; "ON"].
Definition nos : list string :=
  ["n"; "N"; "no"; "No"; "NO"; "false"; "False"; "FALSE"; "off"; "Off"; "OFF"].

Definition has (set : list string) (x : string) : bool := existsb (String.eqb x) set.

(** [{ ...error, niceError: newError }] *)
Definition withNiceError (error : LocalizedError) (newError : TidyverseError)
    : LocalizedError :=
  {| source := source error;
     violatingObject := violatingObject error;
     instancePath := instancePath error;
     message := message error;
     location := location error;
     niceError := newError;
     ajvError := ajvError error |}.

Definition withInfo (e : TidyverseError) (i : list string) : TidyverseError :=
  {| heading := heading e; error := error e; info := i; niceLocation := niceLocation e |}.

(** Lines 283-299: the rewritten error for a suggested literal [fix]. *)
Definition badBooleanError (h : heap) (error : LocalizedError) (parse : AnnotatedParse)
    (schema : val) (fix_ : bool) : outcome TidyverseError :=
  let verbatimInput := quotedStringColor (getVerbatimInput error) in
  let errorMessage := "The value " +:+ verbatimInput +:+ " is a string." in
  let suggestion1 := "Quarto uses YAML 1.2, which interprets booleans strictly." in
  let suggestion2 := "Try using " +:+ quotedStringColor (if fix_ then "true" else "false")
                     +:+ " instead." in
  heading ← formatHeading h error parse schema;
  let newError := {| heading := heading;
                     error := [errorMessage];
                     info := [];
                     niceLocation := niceLocation (niceError error) |} in
  let newError := addInstancePathInfo newError (ajvInstancePath (ajvError error)) in
  let newError := addFileInfo newError (source error) in
  Ok (withInfo newError (info newError ++ [suggestion1; suggestion2])).

(** [checkForBadBoolean], lines 255-300.  Line 260 reads
    [error.ajvError.params.schema] without the test for [params] of lines
    111 and 367, so it throws when the error has no [params]. *)
Definition checkForBadBoolean (h : heap) (error : LocalizedError) (parse : AnnotatedParse)
    (schema0 : val) : outcome LocalizedError :=
  match params (ajvError error) with
  | None => Throw TypeError
  | Some p =>
      let schema := schema p in
      match result (violatingObject error) with
      | VStr strValue =>
          if String.eqb (keyword (ajvError error)) "type" && truthy schema then
            t ← getField h schema "type";
            if decide (t = VStr "boolean") then
              if has yesses strValue
              then newError ← badBooleanError h error parse schema true;
                   Ok (withNiceError error newError)
              else if has nos strValue
              then newError ← badBooleanError h error parse schema false;
                   Ok (withNiceError error newError)
              else Ok error
            else Ok error
          else Ok error
      | _ => Ok error
      end
  end.

(** The loop of lines 382-393.  [bestDistance] starts at [Infinity]
    ([None]). *)
Fixpoint bestKeyLoop (lastFragment : string) (keys : list string)
    (bestKey : list string) (bestDistance : option nat) : list string * option nat :=
  match keys with
  | [] => (bestKey, bestDistance)
  | key :: keys' =>
      let d := editDistance key lastFragment in
      match bestDistance with
      | None => bestKeyLoop lastFragment keys' [key] (Some d)
      | Some b =>
          if (d <? b)%nat then bestKeyLoop lastFragment keys' [key] (Some d)
          else if (d =? b)%nat then bestKeyLoop lastFragment keys' (bestKey ++ [key]) (Some d)
          else bestKeyLoop lastFragment keys' bestKey bestDistance
      end
  end.

(** [bestDistance * 0.3 > lastFragment.length].  The product of an
    integer and the double 0.3 exceeds an integer exactly when three
    times the first exceeds ten times the second, so the comparison is
    made on integers. *)
Definition beyondCutoff (bestDistance : option nat) (lastFragment : string) : bool :=
  match bestDistance with
  | None => true
  | Some d => (10 * String.length lastFragment <? 3 * d)%nat
  end.

(** Lines 405-417. *)
Definition didYouMean (bestKey : list string) : string :=
  let suggestions := map blue bestKey in
  match suggestions with
  | [s0] => "Did you mean " +:+ s0 +:+ "?"
  | [s0; s1] => "Did you mean " +:+ s0 +:+ " or " +:+ s1 +:+ "?"
  | _ =>
      let n := length suggestions in
      let suggestions := take (n - 1) suggestions
                         ++ map (λ x, "or " +:+ x) (drop (n - 1) suggestions) in
      "Did you mean " +:+ join ", " suggestions +:+ "?"
  end.

(** [checkForSimilarKey], lines 360-420. *)
Definition checkForSimilarKey (h : heap) (error : LocalizedError) (parse : AnnotatedParse)
    (schema0 : val) : outcome LocalizedError :=
  let lastFragment := fragmentToString (getLastFragment (instancePath error)) in
  let errorSchema := errorSchemaOf (ajvError error) in
  if decide (errorSchema = VUndefined) then Ok error else
  id ← getField h errorSchema "$id";
  unnormalizedErrorSchema ← resolveSchema h id;
  keys ← possibleSchemaKeys h unnormalizedErrorSchema;
  if (length keys =? 0)%nat then Ok error else
  let '(bestKey, bestDistance) := bestKeyLoop lastFragment keys [] None in
  if beyondCutoff bestDistance lastFragment then Ok error else
  Ok (withNiceError error
        (withInfo (niceError error) (info (niceError error) ++ [didYouMean bestKey]))).


(** The smallest of [b] and the distances from the offending key to the
    keys of the list. *)
Definition minFrom (lastFragment : string) (b : nat) (keys : list string) : nat :=
  foldl (λ m key, Nat.min m (editDistance key lastFragment)) b keys.

End Handlers.

End Errors.

(** ** The parser adapter and the indentation locator
       ([yaml-intelligence/parsing.ts]) *)

(** The injected syntax parser ([parser: any], a tree-sitter instance):
    [parse] either throws ([None]) or gives a tree whose root node has a
    type; the type ["ERROR"] marks a syntax error. *)
Module TreeSitter.
Class Parser : Type := {
  Tree : Type;
  rootNodeType : Tree -> string;
  parse : string -> option Tree
}.
End TreeSitter.

Module Parsing.
Import TreeSitter.

Record Position : Type := { row : Z; column : Z }.
Record Range : Type := { start : Z; end_ : Z }.
Record RangedSubstring : Type := { substring : string; range : Range }.

(** The helpers imported from [../mapped-text.ts], [../ranged-text.ts]
    and [../text.ts].  Those files are not part of the embedded sources,
    so the functions are taken as an interface. *)
Class TextLib : Type := {
  MappedString : Type;
  value : MappedString -> string;
  asMappedString : string + MappedString -> MappedString;
  mappedString : MappedString -> list Range -> MappedString;
  rangedLines : string -> bool -> list RangedSubstring;
  rowColToIndex : string -> Position -> Z;
  lines : string -> list string
}.

Section Adapter.
Context `{TL : TextLib} `{P : Parser}.

Record YamlIntelligenceContext : Type := {
  ctx_code : string + MappedString;
  position : Position
}.

Record ParseAttemptResult : Type := {
  code : MappedString;
  parse_tree : Tree;
  deletions : Z
}.

(** What a consumer that drains the generator observes: the elements
    yielded, in order, and how the generator ended. *)
Inductive ending : Type := Returned | Raised | Unfinished.
Record Generated : Type := { yields : list ParseAttemptResult; ending_of : ending }.

Definition clean (t : Tree) : bool := negb (String.eqb (rootNodeType t) "ERROR").

(** The chunks pushed in one iteration of the loop, lines 93-117.
    [None] stands for the [TypeError] of reading a field of
    [undefined]. *)
Definition chunksFor (codeValue : string) (codeLines : list RangedSubstring)
    (pos : Position) (currentLine : string) (dels : Z) : option (list Range) :=
  let locF := rowColToIndex codeValue in
  c1 ← (if 0 <? row pos
        then prev ← nthZ codeLines (row pos - 1);
             Some [ {| start := 0; end_ := end_ (range prev) |} ]
        else Some []);
  let c2 := if dels <? column pos
            then [ {| start := locF {| row := row pos; column := 0 |};
                      end_ := locF {| row := row pos; column := column pos - dels |} |} ]
            else [] in
  c3 ← (if row pos + 1 <? Z.of_nat (length codeLines)
        then next ← nthZ codeLines (row pos + 1);
             last ← nthZ codeLines (Z.of_nat (length codeLines) - 1);
             Some [ {| start := locF {| row := row pos;
                                        column := Z.of_nat (String.length currentLine) - 1 |};
                       end_ := locF {| row := row pos + 1; column := 0 |} |};
                    {| start := start (range next); end_ := end_ (range last) |} ]
        else Some []);
  Some (c1 ++ c2 ++ c3).

(** [while (currentColumn > 0) { ... }], lines 89-128. *)
Fixpoint reparse (fuel : nat) (mcode : MappedString) (codeLines : list RangedSubstring)
    (pos : Position) (currentLine : string) (currentColumn dels : Z) : Generated :=
  if 0 <? currentColumn then
    match fuel with
    | O => {| yields := []; ending_of := Unfinished |}
    | S fuel' =>
        let currentColumn := currentColumn - 1 in
        let dels := dels + 1 in
        match chunksFor (value mcode) codeLines pos currentLine dels with
        | None => {| yields := []; ending_of := Raised |}
        | Some chunks =>
            let newCode := mappedString mcode chunks in
            match parse (value newCode) with
            | None => {| yields := []; ending_of := Raised |}
            | Some tree =>
                let rest := reparse fuel' mcode codeLines pos currentLine currentColumn dels in
                if clean tree
                then {| yields := {| code := newCode; parse_tree := tree; deletions := dels |}
                                    :: yields rest;
                        ending_of := ending_of rest |}
                else rest
            end
        end
    end
  else {| yields := []; ending_of := Returned |}.

(** [attemptParsesAtLine], lines 53-129; [fuel] bounds the iterations
    of the [while] loop. *)
Definition attemptParsesAtLine (fuel : nat) (context : YamlIntelligenceContext) : Generated :=
  let pos := position context in
  let mcode := asMappedString (ctx_code context) in
  match parse (value mcode) with
  | None => {| yields := []; ending_of := Returned |}
  | Some tree =>
      let first := if clean tree
                   then [ {| code := mcode; parse_tree := tree; deletions := 0 |} ]
                   else [] in
      let codeLines := rangedLines (value mcode) true in
      if (Z.of_nat (length codeLines) <=? row pos) || (row pos <? 0)
      then {| yields := first; ending_of := Returned |}
      else
        match nthZ codeLines (row pos) with
        | None => {| yields := first; ending_of := Raised |}
        | Some cl =>
            let rest := reparse fuel mcode codeLines pos (substring cl) (column pos) 0 in
            {| yields := first ++ yields rest; ending_of := ending_of rest |}
        end
  end.

(** One reparse attempt after [d] deletions: the reduced text and its
    tree, or [None] when building the chunks or the parser throws. *)
Definition attemptAt (mcode : MappedString) (codeLines : list RangedSubstring)
    (pos : Position) (currentLine : string) (d : Z) : option ParseAttemptResult :=
  chunks ← chunksFor (value mcode) codeLines pos currentLine d;
  tree ← parse (value (mappedString mcode chunks));
  Some {| code := mappedString mcode chunks; parse_tree := tree; deletions := d |}.

Definition cleanAttempt (y : ParseAttemptResult) : bool := clean (parse_tree y).

(** An element that the loop may yield while [cc] columns are left and
    [d] deletions were made: a clean parse of its own text, with a
    deletion count in [(d, d + cc]]. *)
Definition yieldedOk (d cc : Z) (y : ParseAttemptResult) : Prop :=
  clean (parse_tree y) = true ∧
  parse (value (code y)) = Some (parse_tree y) ∧
  d < deletions y ≤ d + cc.


(** The element yielded for a clean parse of the whole buffer. *)
Definition fullBufferAttempt (context : YamlIntelligenceContext) (t : Tree)
    : ParseAttemptResult :=
  {| code := asMappedString (ctx_code context); parse_tree := t; deletions := 0 |}.

Definition fullParse (context : YamlIntelligenceContext) : option Tree :=
  parse (value (asMappedString (ctx_code context))).

Definition codeLinesOf (context : YamlIntelligenceContext) : list RangedSubstring :=
  rangedLines (value (asMappedString (ctx_code context))) true.

Definition rowOutside (context : YamlIntelligenceContext) : Prop :=
  row (position context) < 0 ∨
  Z.of_nat (length (codeLinesOf context)) ≤ row (position context).

(** The reading of the specification under which a clean parse of the
    whole buffer is the only element of the sequence. *)
Definition soleAttempt (fuel : nat) (context : YamlIntelligenceContext) : Prop :=
  ∀ t, fullParse context = Some t → clean t = true →
       yields (attemptParsesAtLine fuel context) = [fullBufferAttempt context t].

(** The reading of the specification under which a cursor row outside
    the buffer gives an empty sequence. *)
Definition emptyOutside (fuel : nat) (context : YamlIntelligenceContext) : Prop :=
  rowOutside context → yields (attemptParsesAtLine fuel context) = [].

End Adapter.

(** *** The indentation tree *)

(** [getIndent], lines 131-133. *)
Definition getIndent (l : string) : Z :=
  Z.of_nat (String.length l) - Z.of_nat (String.length (trimStart l)).

(** A JavaScript [number[]] whose cells may hold [undefined] ([None]). *)
Abbreviation jsarray := (list (option Z)).

Definition arrayGet (a : jsarray) (i : Z) : option Z := mjoin (nthZ a i).

(** [a[i] = x]: overwrite inside the array, extend it (with holes) past
    its end, no effect on the indexed cells for a negative index. *)
Definition arraySet (a : jsarray) (i : Z) (x : option Z) : jsarray :=
  if i <? 0 then a
  else if (Z.to_nat i <? length a)%nat then <[Z.to_nat i := x]> a
  else a ++ replicate (Z.to_nat i - length a)%nat None ++ [x].

(** The inner [while] loop of lines 159-161:
    [while (v >= 0 && indents[v] >= lineIndent) v = predecessor[v]],
    where a comparison with [undefined] is false. *)
Fixpoint descend (fuel : nat) (predecessor indents : jsarray) (lineIndent : Z)
    (v : option Z) : outcome (option Z) :=
  match v with
  | Some vz =>
      if (0 <=? vz) &&
         match arrayGet indents vz with
         | Some iv => lineIndent <=? iv
         | None => false
         end
      then
        match fuel with
        | O => OutOfFuel
        | S fuel' =>
            descend fuel' predecessor indents lineIndent (arrayGet predecessor vz)
        end
      else Ok v
  | None => Ok v
  end.

Record IndentState : Type := {
  predecessor : jsarray;
  indents : jsarray;
  indentation : Z;
  prevPredecessor : Z
}.

(** One iteration of the [for] loop, lines 143-167, for line [i]. *)
Definition indentStep (fuel : nat) (st : IndentState) (i : Z) (line : string)
    : outcome IndentState :=
  let lineIndent := getIndent line in
  let indents' := indents st ++ [Some lineIndent] in
  if indentation st <? lineIndent then
    Ok {| predecessor := arraySet (predecessor st) i (Some (prevPredecessor st));
          indents := indents';
          indentation := lineIndent;
          prevPredecessor := i |}
  else if (String.length (trim line) =? 0)%nat then
    Ok {| predecessor := arraySet (predecessor st) i
                           (arrayGet (predecessor st) (prevPredecessor st));
          indents := indents';
          indentation := indentation st;
          prevPredecessor := prevPredecessor st |}
  else if lineIndent =? indentation st then
    Ok {| predecessor := arraySet (predecessor st) i
                           (arrayGet (predecessor st) (prevPredecessor st));
          indents := indents';
          indentation := indentation st;
          prevPredecessor := i |}
  else if lineIndent <? indentation st then
    v ← descend fuel (predecessor st) indents' lineIndent (Some (prevPredecessor st));
    Ok {| predecessor := arraySet (predecessor st) i v;
          indents := indents';
          indentation := lineIndent;
          prevPredecessor := i |}
  else Throw (InternalError "Internal error, should never have arrived here").

Fixpoint indentLoop (fuel : nat) (st : IndentState) (i : Z) (ls : list string)
    : outcome IndentState :=
  match ls with
  | [] => Ok st
  | line :: ls' =>
      st' ← indentStep fuel st i line;
      indentLoop fuel st' (i + 1) ls'
  end.

(** [getYamlIndentTree], lines 135-173; [fuel] bounds each run of the
    inner [while] loop.  The result is the pair
    [{predecessor, indentation: indents}]. *)
Definition getYamlIndentTree `{TL : TextLib} (fuel : nat) (code : string)
    : outcome (jsarray * jsarray) :=
  st ← indentLoop fuel
        {| predecessor := []; indents := []; indentation := -1; prevPredecessor := -1 |}
        0 (lines code);
  Ok (predecessor st, indents st).

(** What the [for] loop maintains after [n] lines: both arrays have [n]
    cells, every cell is a number, a predecessor is a line index below
    its own line (or -1), and [prevPredecessor] names a line once some
    indentation was recorded. *)
Definition predecessorsBelow (pred : jsarray) : Prop :=
  ∀ (j : nat) c, pred !! j = Some c → ∃ p, c = Some p ∧ -1 ≤ p < Z.of_nat j.

Record IndentInv (n : nat) (st : IndentState) : Prop := {
  inv_len_pred : length (predecessor st) = n;
  inv_len_ind : length (indents st) = n;
  inv_pred : predecessorsBelow (predecessor st);
  inv_ind : Forall is_Some (indents st);
  inv_prev : -1 ≤ prevPredecessor st < Z.of_nat n;
  inv_indent : 0 ≤ indentation st → 0 ≤ prevPredecessor st
}.

End Parsing.

(** ** Alias expansion ([yaml-validation/schema.ts]) *)

Module Aliases.

(** [el.startsWith("$")] *)
Definition isAlias (el : string) : bool :=
  match el with
  | String c _ => Ascii.eqb c "$"
  | EmptyString => false
  end.

(** [el.slice(1)] *)
Definition slice1 (el : string) : string :=
  match el with
  | String _ rest => rest
  | EmptyString => EmptyString
  end.

(** What [aliases[name]] reads from the record [defs]: an own entry, a
    member of [Object.prototype] (a function or an object, never an
    array), or [undefined]. *)
Inductive entry : Type :=
| Listed (v : list string)
| Prototype
| Missing.

Definition readAlias (defs : gmap string (list string)) (name : string) : entry :=
  match defs !! name with
  | Some v => Listed v
  | None =>
      if decide (name ∈ Registry.objectPrototypeNames) then Prototype else Missing
  end.

(** The loop of lines 228-239 over the copy [lst], which grows while it
    is traversed; [i] is the index of the loop.  Spreading a value that is
    not iterable is a [TypeError]. *)
Fixpoint expandLoop (fuel : nat) (defs : gmap string (list string))
    (lst : list string) (i : nat) (result : list string) : outcome (list string) :=
  match lst !! i with
  | None => Ok result
  | Some el =>
      match fuel with
      | O => OutOfFuel
      | S fuel' =>
          if isAlias el then
            match readAlias defs (slice1 el) with
            | Listed v => expandLoop fuel' defs (lst ++ v) (S i) result
            | Prototype => Throw TypeError
            | Missing =>
                Throw (InternalError
                         ("Internal Error: " +:+ el +:+
                          " doesn't have an entry in the aliases map"))
            end
          else expandLoop fuel' defs lst (S i) (result ++ [el])
      end
  end.

(** [expandAliasesFrom], lines 222-241; [fuel] bounds the iterations of
    the loop. *)
Definition expandAliasesFrom (fuel : nat) (lst : list string)
    (defs : gmap string (list string)) : outcome (list string) :=
  expandLoop fuel defs lst 0 [].

(** The names of a list that are not aliases, in order. *)
Definition plainNames (lst : list string) : list string :=
  List.filter (λ el, negb (isAlias el)) lst.

(** The entries of the aliases of a list, one after the other; [None]
    when an alias has no entry of its own. *)
Fixpoint expansions (defs : gmap string (list string)) (lst : list string)
    : option (list string) :=
  match lst with
  | [] => Some []
  | el :: rest =>
      if isAlias el then
        match readAlias defs (slice1 el) with
        | Listed v => r ← expansions defs rest; Some (v ++ r)
        | _ => None
        end
      else expansions defs rest
  end.

End Aliases.

(** ** Instance paths *)

Module Paths.
Import Errors.

(** A path segment: a text without a slash. *)
Definition slashFree (s : string) : bool :=
  forallb (λ c, negb (Ascii.eqb c "/")) (list_ascii_of_string s).

(** How lines 59-66 read one segment. *)
Definition fragmentOf `{ET : ErrorTypes} `{EL : !ErrorLib} (s : string) : fragment :=
  if String.eqb s "" then FUndefined
  else match toNumber s with
       | Some n => FNumber n
       | None => FString s
       end.

End Paths.

(** ** Locating the cursor by indentation
       ([yaml-intelligence/parsing.ts], lines 175-230) *)

Module Locate.
Import TreeSitter Parsing.

(** [line.trim().length === 0] *)
Definition isBlank (l : string) : bool := (String.length (trim l) =? 0)%nat.

(** [trimmed.startsWith("-")] *)
Definition startsWithDash (s : string) : bool :=
  match s with
  | String c _ => Ascii.eqb c "-"
  | EmptyString => false
  end.

(** [trimmed.endsWith(":")] *)
Fixpoint endsWithColon (s : string) : bool :=
  match s with
  | EmptyString => false
  | String c EmptyString => Ascii.eqb c ":"
  | String _ s' => endsWithColon s'
  end.

(** [trimmed.substring(0, trimmed.length - 1)] *)
Definition dropLast (s : string) : string :=
  String.substring 0 (String.length s - 1) s.

(** An element of the path: [0] for a sequence entry, the key of a
    mapping otherwise. *)
Inductive pathElem : Type :=
| PIndex (n : Z)
| PKey (k : string).

(** What the tree of [getYamlIndentTree] says about the lines [ls]: the
    indentation array holds the indentation of every line, and the
    predecessor of a line that is not blank is -1 or a line with a
    strictly smaller indentation. *)
Definition indentsOf (ls : list string) (ind : jsarray) : Prop :=
  ind = map (λ l, Some (getIndent l)) ls.

Definition parentsShallower (ls : list string) (pred : jsarray) : Prop :=
  ∀ (i : nat) l p,
    ls !! i = Some l → isBlank l = false →
    arrayGet pred (Z.of_nat i) = Some p → 0 ≤ p →
    ∃ lp, nthZ ls p = Some lp ∧ getIndent lp < getIndent l.

(** What the loop of [getYamlIndentTree] keeps besides [IndentInv], the
    lines [ls] being those read so far. *)
Record IndentShape (ls : list string) (st : IndentState) : Prop := {
  shape_ind : indentsOf ls (indents st);
  shape_prev : ∀ l, nthZ ls (prevPredecessor st) = Some l → getIndent l = indentation st;
  shape_parent : ∀ (i : nat) l p,
    ls !! i = Some l →
    isBlank l = false ∨ Z.of_nat i = prevPredecessor st →
    arrayGet (predecessor st) (Z.of_nat i) = Some p → 0 ≤ p →
    ∃ lp, nthZ ls p = Some lp ∧ getIndent lp < getIndent l
}.

(** The inner loop of lines 197-199:
    [while (prev >= 0 && ls[prev].trim().length === 0) prev--]. *)
Fixpoint skipBlank (fuel : nat) (ls : list string) (prev : Z) : outcome Z :=
  if 0 <=? prev then
    match nthZ ls prev with
    | None => Throw TypeError
    | Some l =>
        if isBlank l then
          match fuel with
          | O => OutOfFuel
          | S fuel' => skipBlank fuel' ls (prev - 1)
          end
        else Ok prev
    end
  else Ok prev.

(** Lines 211-225: what visiting the line [trimmed] adds to the path. *)
Definition visitLine (lineIndent : Z) (indentation : jsarray) (lineNo : Z)
    (trimmed : string) (path : list pathElem) : outcome (list pathElem) :=
  if match arrayGet indentation lineNo with
     | Some iv => iv <=? lineIndent
     | None => false
     end
  then
    if startsWithDash trimmed then Ok (path ++ [PIndex 0])
    else if endsWithColon trimmed then Ok (path ++ [PKey (dropLast trimmed)])
    else if negb (String.length trimmed =? 0)%nat
    then Throw (InternalError "Internal error: this shouldn't have happened")
    else Ok path
  else Ok path.

(** [while (lineNo !== -1) { ... }], lines 191-227.  [lineNo] is [None]
    when it is [undefined]; reading a line outside [ls] gives
    [undefined], whose [trim] is a [TypeError]. *)
Fixpoint locateLoop (fuel : nat) (ls : list string) (predecessor indentation : jsarray)
    (lineIndent : Z) (lineNo : option Z) (path : list pathElem)
    : outcome (list pathElem) :=
  if decide (lineNo = Some (-1)) then Ok path else
  match lineNo, lineNo ≫= nthZ ls with
  | Some n, Some l =>
      match fuel with
      | O => OutOfFuel
      | S fuel' =>
          let trimmed := trim l in
          let visit :=
            path' ← visitLine lineIndent indentation n trimmed path;
            locateLoop fuel' ls predecessor indentation lineIndent
              (arrayGet predecessor n) path' in
          if (String.length trimmed =? 0)%nat then
            prev ← skipBlank fuel ls n;
            if prev =? -1 then Ok path else
            match nthZ ls prev with
            | None => Throw TypeError
            | Some lp =>
                if getIndent lp <? lineIndent
                then locateLoop fuel' ls predecessor indentation lineIndent (Some prev) path
                else visit
            end
          else visit
      end
  | _, _ => Throw TypeError
  end.

(** An element that the walk may push while at or above line [top],
    [li] being the indentation of the editing line. *)
Definition fromLine (ls : list string) (li top : Z) (e : pathElem) : Prop :=
  e = PIndex 0 ∨
  ∃ (i : nat) l k, e = PKey k ∧ ls !! i = Some l ∧ trim l = k +:+ ":" ∧
                   getIndent l ≤ li ∧ Z.of_nat i ≤ top.

Section Locator.
Context `{TL : TextLib}.

Record LocateFromIndentationContext : Type := {
  loc_line : string;
  loc_code : string + MappedString;
  loc_position : Position
}.

(** [locateFromIndentation], lines 175-230; [fuel] bounds the loops. *)
Definition locateFromIndentation (fuel : nat) (context : LocateFromIndentationContext)
    : outcome (list pathElem) :=
  let code := value (asMappedString (loc_code context)) in
  tree ← getYamlIndentTree fuel code;
  let ls := lines code in
  path ← locateLoop fuel ls tree.1 tree.2 (getIndent (loc_line context))
            (Some (row (loc_position context))) [];
  Ok (rev path).

End Locator.

End Locate.

(** ** Completions of a schema ([yaml-validation/schema.ts], lines 49-112) *)

Module Completions.
Import Schema.

(** [v.length]: the number of elements of an array, of characters of a
    string; the own property of an object; [undefined] otherwise. *)
Definition getLength (h : heap) (v : val) : outcome val :=
  match v with
  | VUndefined | VNull => Throw TypeError
  | VStr s => Ok (VNum (Z.of_nat (String.length s)))
  | VRef l =>
      match h !! l with
      | Some (Arr vs) => Ok (VNum (Z.of_nat (length vs)))
      | Some (Obj props) => Ok (default VUndefined (assoc "length" props))
      | None => Throw (InternalError "dangling reference")
      end
  | _ => Ok VUndefined
  end.

(** The elements of an array, for [a.map(f)] and [a.every(f)]; a value
    that is not an array has no such method, and the call throws. *)
Definition elements (h : heap) (v : val) : outcome (list val) :=
  match v with
  | VRef l =>
      match h !! l with
      | Some (Arr vs) => Ok vs
      | Some (Obj _) => Throw TypeError
      | None => Throw (InternalError "dangling reference")
      end
  | _ => Throw TypeError
  end.

(** A fresh object, given by its properties in order. *)
Abbreviation record := (list (string * val)).

(** [o.k = v] on a property list: the value of an existing property is
    replaced in place, a new property goes to the end. *)
Fixpoint setProp (k : string) (v : val) (ps : record) : record :=
  match ps with
  | [] => [(k, v)]
  | (k', v') :: ps' =>
      if String.eqb k k' then (k, v) :: ps' else (k', v') :: setProp k v ps'
  end.

(** [{...c}]: the own properties of an object, the indexed elements of
    an array, nothing for the other values that can occur there. *)
Definition spread (h : heap) (c : val) : outcome record :=
  match c with
  | VRef l =>
      match h !! l with
      | Some (Obj props) => Ok props
      | Some (Arr vs) => Ok (imap (λ i v, (pretty i, v)) vs)
      | None => Throw (InternalError "dangling reference")
      end
  | _ => Ok []
  end.

(** The callback of [normalize], lines 73-88. *)
Definition completionOf (h : heap) (schema : val) (c : val) : outcome record :=
  match c with
  | VStr s =>
      Ok [("type", VStr "value"); ("display", VStr s); ("value", VStr s);
          ("description", VStr ""); ("suggest_on_accept", VBool false);
          ("schema", schema)]
  | _ => ps ← spread h c; Ok (setProp "schema" schema ps)
  end.

(** [normalize], lines 71-90, for a truthy [completions]. *)
Definition normalize (h : heap) (schema : val) (completions : val) : outcome (list record) :=
  cs ← elements h completions;
  mapM (completionOf h schema) cs.

(** [schemaCompletions], lines 66-112; [fuel] bounds the depth of the
    recursion. *)
Fixpoint schemaCompletions (fuel : nat) (h : heap) (schema : val)
    : outcome (list record) :=
  match fuel with
  | O => OutOfFuel
  | S fuel' =>
      completions ← getField h schema "completions";
      len ← (if truthy completions then getLength h completions else Ok VUndefined);
      if truthy completions && truthy len then normalize h schema completions else
      t ← schemaType h schema;
      let branches (k : string) :=
        xs ← getField h schema k;
        vs ← elements h xs;
        rs ← mapM (schemaCompletions fuel' h) vs;
        Ok (concat rs) in
      if decide (t = VStr "array") then
        items ← getField h schema "items";
        if truthy items then schemaCompletions fuel' h items else Ok []
      else if decide (t = VStr "anyOf") then branches "anyOf"
      else if decide (t = VStr "oneOf") then branches "oneOf"
      else if decide (t = VStr "allOf") then branches "allOf"
      else Ok []
  end.

(** [a.every(f)]: stops at the first element on which [f] is falsy. *)
Fixpoint every (f : val → outcome val) (vs : list val) : outcome bool :=
  match vs with
  | [] => Ok true
  | v :: vs' => r ← f v; if truthy r then every f vs' else Ok false
  end.

(** [schemaExhaustiveCompletions], lines 49-64. *)
Fixpoint schemaExhaustiveCompletions (fuel : nat) (h : heap) (schema : val)
    : outcome val :=
  match fuel with
  | O => OutOfFuel
  | S fuel' =>
      t ← schemaType h schema;
      let branches (k : string) :=
        xs ← getField h schema k;
        vs ← elements h xs;
        b ← every (schemaExhaustiveCompletions fuel' h) vs;
        Ok (VBool b) in
      if decide (t = VStr "anyOf") then branches "anyOf"
      else if decide (t = VStr "oneOf") then branches "oneOf"
      else if decide (t = VStr "allOf") then branches "allOf"
      else if decide (t = VStr "array") then Ok (VBool true)
      else if decide (t = VStr "object") then Ok (VBool true)
      else
        e ← getField h schema "exhaustiveCompletions";
        Ok (if truthy e then e else VBool false)
  end.

(** What a completion returned for the schema [node] looks like: it was
    built from an element of the [completions] array of [node] and names
    [node] as its [schema]. *)
Definition builtFrom (h : heap) (node : val) (comp : record) : Prop :=
  ∃ l vs c, getField h node "completions" = Ok (VRef l) ∧
            h !! l = Some (Arr vs) ∧ c ∈ vs ∧
            completionOf h node c = Ok comp ∧
            assoc "schema" comp = Some node.

End Completions.

(** ** Normalizing twice *)

Module Renormalize.
Import Schema.

(** What normalizing keeps of a tree [j]: the result is a fixed point of
    [normalizeJson], as truthy as [j], no larger, and without repeated
    property names if [j] had none. *)
Definition settles (j : json) : Prop :=
  ∀ j', normalizeJson j = Ok j' →
    normalizeJson j' = Ok j' ∧
    truthyJ j' = truthyJ j ∧
    (uniqueKeys j = true → uniqueKeys j' = true) ∧
    (jsize j' ≤ jsize j)%nat.

End Renormalize.

(** ** Concrete collaborators used to run the definitions *)

Module Samples.
Import TreeSitter Parsing.

(** [s.split(sep)] for a one-character separator. *)
Fixpoint splitChar (sep : ascii) (s : string) : list string :=
  match s with
  | EmptyString => [EmptyString]
  | String c s' =>
      match splitChar sep s' with
      | [] => [EmptyString]
      | x :: xs => if Ascii.eqb c sep then EmptyString :: x :: xs else String c x :: xs
      end
  end.

Definition newline : ascii := ascii_of_nat 10.

(** [s.substring(a, b)]: both ends clamped to the string, swapped when
    out of order. *)
Definition jsSubstring (s : string) (a b : Z) : string :=
  let len := Z.of_nat (String.length s) in
  let a := Z.max 0 (Z.min a len) in
  let b := Z.max 0 (Z.min b len) in
  let lo := Z.min a b in
  let hi := Z.max a b in
  String.substring (Z.to_nat lo) (Z.to_nat (hi - lo)) s.

(** Lines with their offsets; with [nl] every line but the last keeps
    its line feed. *)
Fixpoint rangesFrom (nl : bool) (off : Z) (ls : list string) : list RangedSubstring :=
  match ls with
  | [] => []
  | [l] =>
      [ {| substring := l;
           range := {| start := off; end_ := off + Z.of_nat (String.length l) |} |} ]
  | l :: ls' =>
      let l' := if nl then l +:+ String newline EmptyString else l in
      {| substring := l';
         range := {| start := off; end_ := off + Z.of_nat (String.length l') |} |}
      :: rangesFrom nl (off + Z.of_nat (String.length l) + 1) ls'
  end.

Fixpoint lineOffset (ls : list string) (r : nat) : Z :=
  match r, ls with
  | O, _ => 0
  | S r', l :: ls' => Z.of_nat (String.length l) + 1 + lineOffset ls' r'
  | S _, [] => 0
  end.

(** Modelled from the spec: the Mapped Text helpers
    ([../mapped-text.ts], [../ranged-text.ts], [../text.ts]) are missing
    from the sources.  Following section 4.1 of the specification, a
    mapped text is read through its flattened value, which is composed
    from ranges of the origin text; lines are split at line feeds and a
    (row, column) position is the offset of the row plus the column.
    The origin mapping itself is not represented. *)
#[export] Instance plainText : TextLib := {|
  MappedString := string;
  value := fun m => m;
  asMappedString := fun c => match c with inl s => s | inr m => m end;
  mappedString := fun m chunks =>
    fold_right (fun c acc => jsSubstring m (start c) (end_ c) +:+ acc) EmptyString chunks;
  rangedLines := fun s nl => rangesFrom nl 0 (splitChar newline s);
  rowColToIndex := fun s pos =>
    lineOffset (splitChar newline s) (Z.to_nat (row pos)) + column pos;
  lines := splitChar newline
|}.

Fixpoint countChar (c : ascii) (s : string) : nat :=
  match s with
  | EmptyString => O
  | String c' s' => (if Ascii.eqb c c' then 1 else 0) + countChar c s'
  end.

(** A stand-in for the injected parser: a text is a syntax error when
    its flow brackets do not pair up, and parses to a [stream] root
    otherwise.  It never throws. *)
#[export] Instance bracketParser : Parser := {|
  Tree := string;
  rootNodeType := fun t => t;
  parse := fun s =>
    Some (if (countChar "[" s =? countChar "]" s)%nat then "stream" else "ERROR")
|}.

(** [k: [a] with the cursor at the end of the line. *)
Definition openBracket : YamlIntelligenceContext :=
  {| ctx_code := inl "k: [a"; position := {| row := 0; column := 5 |} |}.

(** [a: b] with the cursor at the end of the line. *)
Definition cleanLine : YamlIntelligenceContext :=
  {| ctx_code := inl "a: b"; position := {| row := 0; column := 4 |} |}.

(** [a: b] with a cursor that lies below the buffer. *)
Definition cursorBelow : YamlIntelligenceContext :=
  {| ctx_code := inl "a: b"; position := {| row := 3; column := 2 |} |}.

(** A validator queue that keeps no state and allocates nothing. *)
#[export] Instance noValidators : Registry.ValidatorQueue := {|
  Registry.Validators := unit;
  Registry.withValidator := fun _ h vs => Ok (h, vs)
|}.

(** Decimal digits only: the numbers that occur as array indices in an
    instance path. *)
Fixpoint digitsValue (acc : N) (s : string) : option N :=
  match s with
  | EmptyString => Some acc
  | String c s' =>
      let n := N_of_ascii c in
      if ((48 <=? n) && (n <=? 57))%N then digitsValue (10 * acc + (n - 48))%N s' else None
  end.

(** The registered schema with a given [$id]: the first object of the
    store that carries it. *)
Fixpoint findObject (id : val) (h : heap) (l : nat) : option nat :=
  match h with
  | [] => None
  | Obj props :: h' =>
      if bool_decide (assoc "$id" props = Some id) then Some l else findObject id h' (S l)
  | Arr _ :: h' => findObject id h' (S l)
  end.

Definition findById (h : heap) (id : val) : outcome val :=
  match findObject id h 0 with
  | Some l => Ok (VRef l)
  | None => Throw (InternalError "SchemaReferenceMissing")
  end.

(** The keys a schema accepts: the names under [properties]. *)
Definition propertyNames (h : heap) (s : val) : outcome (list string) :=
  p ← getField h s "properties";
  match p with
  | VRef l =>
      match h !! l with
      | Some (Obj props) => Ok (map fst props)
      | _ => Ok []
      end
  | _ => Ok []
  end.

#[export] Instance plainErrorTypes : Errors.ErrorTypes := {|
  Errors.ErrorLocation := unit;
  Errors.Source := string;
  Errors.number := N
|}.

(** A sample distance for the examples: the Levenshtein distance
    (insertions, deletions and substitutions of one character, each at
    cost one), computed row by row.  [editDistance] of [../text.ts] is
    not among the sources; the statements about [checkForSimilarKey]
    are made for every distance. *)
Fixpoint levenshteinRow (a : ascii) (t : list ascii) (prev : list nat) (left diag : nat)
    : list nat :=
  match t, prev with
  | b :: t', up :: prev' =>
      let cost := if Ascii.eqb a b then O else 1%nat in
      let cell := Nat.min (Nat.min (S up) (S left)) (diag + cost) in
      cell :: levenshteinRow a t' prev' cell up
  | _, _ => []
  end.

Fixpoint levenshteinRows (s : list ascii) (t : list ascii) (row : list nat) : list nat :=
  match s with
  | [] => row
  | a :: s' =>
      match row with
      | [] => []
      | first :: prev => levenshteinRows s' t (S first :: levenshteinRow a t prev (S first) first)
      end
  end.

Definition levenshtein (w1 w2 : string) : nat :=
  let s := list_ascii_of_string w1 in
  let t := list_ascii_of_string w2 in
  default O (last (levenshteinRows s t (seq 0 (S (length t))))).

(** Sample collaborators for the examples, around a distance [ed]; the
    helpers that [errors.ts] imports ([colors], [quotedStringColor],
    [getVerbatimInput], [addFileInfo], [addInstancePathInfo],
    [navigateSchemaByInstancePath], [editDistance], [resolveSchema],
    [possibleSchemaKeys]) are not among the sources.  Here colours are
    left out, the verbatim input is the text under the violating node,
    the two [add...Info] helpers add nothing, navigation stays at the
    schema it is given, a text without [%] decodes to itself (others are
    not covered), an object reads as ["[object Object]"], a reference
    resolves to the schema registered under that [$id], the keys a
    schema accepts are the names of its [properties], and only runs of
    decimal digits read as numbers. *)
Definition errorsWith (ed : string → string → nat) : Errors.ErrorLib := {|
  Errors.blue := λ s, s;
  Errors.quotedStringColor := λ s, s;
  Errors.getVerbatimInput := λ e,
    jsSubstring (Errors.source e) (Errors.start (Errors.violatingObject e))
                (Errors.end_ (Errors.violatingObject e));
  Errors.addInstancePathInfo := λ m _, m;
  Errors.addFileInfo := λ m _, m;
  Errors.navigateSchemaByInstancePath := λ _ _ schema, Ok [schema];
  Errors.decodeURIComponent := λ s,
    if (countChar "%" s =? 0)%nat then Ok s else Throw (InternalError "escape sequence");
  Errors.objectText := λ _ _, Ok "[object Object]";
  Errors.editDistance := ed;
  Errors.resolveSchema := findById;
  Errors.possibleSchemaKeys := propertyNames;
  Errors.toNumber := λ s, if String.eqb s "" then None else digitsValue 0 s;
  Errors.numberToString := pretty;
  Errors.numberPlusOne := λ n, pretty (n + 1)%N
|}.

#[export] Instance plainErrors : Errors.ErrorLib := errorsWith levenshtein.

(** A document schema that accepts the keys [title] and [subtitle], and
    one that accepts [title] only. *)
Definition documentSchemas : heap :=
  [ Obj [("type", VStr "string")];
    Obj [("title", VRef 0); ("subtitle", VRef 0)];
    Obj [("$id", VStr "document"); ("type", VStr "object"); ("properties", VRef 1)];
    Obj [("title", VRef 0)];
    Obj [("$id", VStr "titled"); ("type", VStr "object"); ("properties", VRef 3)];
    Obj [("$id", VStr "flag"); ("type", VStr "boolean");
         ("description", VStr "be true or false")] ].

(** The error raised for the unknown key [subtitel] of [subtitel: x]
    under the schema stored at [schemaAt]. *)
Definition unknownKey (schemaAt : nat) : Errors.LocalizedError :=
  {| Errors.source := "subtitel: x";
     Errors.violatingObject :=
       {| Errors.start := 0; Errors.end_ := 8;
          Errors.result := VStr "subtitel"; Errors.kind := "string" |};
     Errors.instancePath := "/subtitel";
     Errors.message := "";
     Errors.location := ();
     Errors.niceError :=
       {| Errors.heading := "property subtitel not allowed in object";
          Errors.error := []; Errors.info := []; Errors.niceLocation := () |};
     Errors.ajvError :=
       {| Errors.keyword := "_custom_invalidProperty";
          Errors.ajvInstancePath := "/subtitel";
          Errors.schemaPath := "#/additionalProperties";
          Errors.params := Some {| Errors.schema := VRef schemaAt |};
          Errors.parentSchema := VUndefined |} |}.

(** The error raised for [draft: yes] quoted as a string where a boolean
    is required. *)
Definition stringForBoolean (text : string) : Errors.LocalizedError :=
  {| Errors.source := text;
     Errors.violatingObject :=
       {| Errors.start := 0; Errors.end_ := Z.of_nat (String.length text);
          Errors.result := VStr text; Errors.kind := "string" |};
     Errors.instancePath := "/draft";
     Errors.message := "";
     Errors.location := ();
     Errors.niceError :=
       {| Errors.heading := "must be boolean";
          Errors.error := []; Errors.info := []; Errors.niceLocation := () |};
     Errors.ajvError :=
       {| Errors.keyword := "type";
          Errors.ajvInstancePath := "/draft";
          Errors.schemaPath := "#/properties/draft/type";
          Errors.params := Some {| Errors.schema := VRef 5 |};
          Errors.parentSchema := VUndefined |} |}.

(** The same error without [params], the responsible schema being
    under [parentSchema]. *)
Definition withoutParams (text : string) : Errors.LocalizedError :=
  {| Errors.source := text;
     Errors.violatingObject :=
       {| Errors.start := 0; Errors.end_ := Z.of_nat (String.length text);
          Errors.result := VStr text; Errors.kind := "string" |};
     Errors.instancePath := "/draft";
     Errors.message := "";
     Errors.location := ();
     Errors.niceError :=
       {| Errors.heading := "must be boolean";
          Errors.error := []; Errors.info := []; Errors.niceLocation := () |};
     Errors.ajvError :=
       {| Errors.keyword := "type";
          Errors.ajvInstancePath := "/draft";
          Errors.schemaPath := "#/properties/draft/type";
          Errors.params := None;
          Errors.parentSchema := VRef 5 |} |}.

(** The error raised for the unknown key [007] under the document
    schema. *)
Definition numericKey : Errors.LocalizedError :=
  {| Errors.source := "007: x";
     Errors.violatingObject :=
       {| Errors.start := 0; Errors.end_ := 3;
          Errors.result := VStr "007"; Errors.kind := "string" |};
     Errors.instancePath := "/007";
     Errors.message := "";
     Errors.location := ();
     Errors.niceError :=
       {| Errors.heading := "property 007 not allowed in object";
          Errors.error := []; Errors.info := []; Errors.niceLocation := () |};
     Errors.ajvError :=
       {| Errors.keyword := "_custom_invalidProperty";
          Errors.ajvInstancePath := "/007";
          Errors.schemaPath := "#/additionalProperties";
          Errors.params := Some {| Errors.schema := VRef 2 |};
          Errors.parentSchema := VUndefined |} |}.


Definition noParse : Errors.AnnotatedParse :=
  {| Errors.start := 0; Errors.end_ := 0; Errors.result := VNull; Errors.kind := "null" |}.

(** Schemas in a store. *)
Definition typedEnum : val * heap :=
  Schema.parse (Schema.JObj [("type", Schema.JStr "string");
                             ("enum", Schema.JArr [Schema.JStr "a"; Schema.JStr "b"])]) [].
Definition bareEnum : val * heap :=
  Schema.parse (Schema.JObj [("enum", Schema.JArr [Schema.JNum 1; Schema.JNum 2])]) [].

(** Two different schemas with the id ["quarto"], in one store. *)
Definition twoSchemas : heap :=
  [ Obj [("$id", VStr "quarto"); ("type", VStr "string")];
    Obj [("$id", VStr "quarto"); ("type", VStr "number")] ].

Definition emptyWorld : Registry.World :=
  {| Registry.store := twoSchemas; Registry.definitionsObject := ∅;
     Registry.validators := () |}.

(** A schema whose [exhaustiveCompletions] is [false]. *)
Definition flagged : heap :=
  [Obj [("type", VStr "string"); ("exhaustiveCompletions", VBool false)]].

(** An object schema with authoring fields at two levels. *)
Definition documented : Schema.json :=
  Schema.JObj
    [("type", Schema.JStr "object");
     ("documentation", Schema.JStr "Options");
     ("properties",
       Schema.JObj
         [("echo", Schema.JObj
                     [("type", Schema.JStr "boolean");
                      ("completions", Schema.JArr [Schema.JStr "true"; Schema.JStr "false"]);
                      ("exhaustiveCompletions", Schema.JBool false)])]);
     ("tags", Schema.JObj [])].

Definition documentedRoot : val := (Schema.parse documented []).1.
Definition documentedStore : heap := (Schema.parse documented []).2.

End Samples.

(** ** More sample data *)

Module MoreSamples.
Import TreeSitter Parsing Locate Samples.

(** Output formats with two aliases, one naming the other. *)
Definition formatAliases : gmap string (list string) :=
  list_to_map [("html-all", ["html"; "$slides"]); ("slides", ["revealjs"])].

(** An alias that names itself. *)
Definition loopingAliases : gmap string (list string) :=
  list_to_map [("all", ["html"; "$all"])].

(** A schema that [walkSchema] cannot iterate. *)
Definition brokenSchemas : heap :=
  [ Obj [("$id", VStr "broken"); ("anyOf", VNum 1)] ].

Definition brokenWorld : Registry.World :=
  {| Registry.store := brokenSchemas; Registry.definitionsObject := ∅;
     Registry.validators := () |}.

(** A schema whose [$id] is a member of [Object.prototype]. *)
Definition constructorSchema : heap :=
  [ Obj [("$id", VStr "constructor"); ("type", VStr "string")] ].

(** Two alternatives, the first with a list of completions. *)
Definition choices : heap :=
  [ Arr [VStr "a"; VStr "b"];
    Obj [("type", VStr "string"); ("completions", VRef 0)];
    Obj [("type", VStr "number")];
    Arr [VRef 1; VRef 2];
    Obj [("anyOf", VRef 3)] ].

(** Three alternatives: an object, a string without the flag, and
    [null]. *)
Definition mixedBranches : heap :=
  [ Obj [("type", VStr "object")];
    Obj [("type", VStr "string")];
    Arr [VRef 0; VRef 1; VNull];
    Obj [("anyOf", VRef 2)] ].

(** A string schema with completions that are declared exhaustive. *)
Definition enumerated : heap :=
  [ Arr [VStr "a"];
    Obj [("type", VStr "string"); ("completions", VRef 0);
         ("exhaustiveCompletions", VBool true)] ].

(** Three lines, the cursor on a blank fourth line below them. *)
Definition nested : string :=
  "a:" +:+ String newline "  b:" +:+ String newline "    c: 1" +:+ String newline "    ".

Definition belowNested : LocateFromIndentationContext :=
  {| loc_line := "    "; loc_code := inl nested;
     loc_position := {| row := 3; column := 4 |} |}.

(** The cursor on the line [c: 1]. *)
Definition onValueLine : LocateFromIndentationContext :=
  {| loc_line := "    c: 1"; loc_code := inl nested;
     loc_position := {| row := 2; column := 8 |} |}.

(** A parser that throws on texts of fewer than three characters. *)
Definition fragileParser : Parser := {|
  Tree := string;
  rootNodeType := fun t => t;
  parse := fun s => if (String.length s <? 3)%nat then None else Some "stream"
|}.

(** [abcd] with the cursor at the end of the line. *)
Definition fourLetters : @YamlIntelligenceContext plainText :=
  {| ctx_code := inl "abcd"; position := {| row := 0; column := 4 |} |}.

End MoreSamples.

(* ===================================================================== *)
(** * Part II: properties                                                  *)
(* ===================================================================== *)

Module SchemaFacts.
Import Schema Samples.

Lemma getField_object h l props k :
  h !! l = Some (Obj props) →
  getField h (VRef l) k = Ok (default VUndefined (assoc k props)).
Proof. intros H. simpl. by rewrite H. Qed.

Lemma schemaType_object h l props :
  h !! l = Some (Obj props) →
  let get k := default VUndefined (assoc k props) in
  schemaType h (VRef l) =
    Ok (if truthy (get "type") then get "type"
        else if truthy (get "anyOf") then VStr "anyOf"
        else if truthy (get "oneOf") then VStr "oneOf"
        else if truthy (get "allOf") then VStr "allOf"
        else if truthy (get "enum") then VStr "enum"
        else VStr "any").
Proof.
  intros H get. unfold schemaType.
  rewrite !(getField_object h l props) by done. simpl. subst get. simpl.
  destruct (truthy (default VUndefined (assoc "type" props))); [done|].
  destruct (truthy (default VUndefined (assoc "anyOf" props))); [done|].
  destruct (truthy (default VUndefined (assoc "oneOf" props))); [done|].
  destruct (truthy (default VUndefined (assoc "allOf" props))); [done|].
  destruct (truthy (default VUndefined (assoc "enum" props))); done.
Qed.

(** C5.  On a schema object the classification follows the precedence
    type, anyOf, oneOf, allOf, enum, "any": a truthy [type] is the answer
    whatever else is present; otherwise the first of [anyOf], [oneOf],
    [allOf], [enum] that is present decides; with none of them the
    schema is "any".  A string type next to an enum classifies as the
    type, and an enum without a type as "enum". *)
Theorem schemaType_precedence h l props :
  h !! l = Some (Obj props) →
  let s := VRef l in
  (∀ t, getField h s "type" = Ok t → truthy t = true → schemaType h s = Ok t) ∧
  (lacksField h s "type" → hasField h s "anyOf" → schemaType h s = Ok (VStr "anyOf")) ∧
  (lacksField h s "type" → lacksField h s "anyOf" → hasField h s "oneOf" →
     schemaType h s = Ok (VStr "oneOf")) ∧
  (lacksField h s "type" → lacksField h s "anyOf" → lacksField h s "oneOf" →
     hasField h s "allOf" → schemaType h s = Ok (VStr "allOf")) ∧
  (lacksField h s "type" → lacksField h s "anyOf" → lacksField h s "oneOf" →
     lacksField h s "allOf" → hasField h s "enum" → schemaType h s = Ok (VStr "enum")) ∧
  (lacksField h s "type" → lacksField h s "anyOf" → lacksField h s "oneOf" →
     lacksField h s "allOf" → lacksField h s "enum" → schemaType h s = Ok (VStr "any")) ∧
  (∀ e rest, props = ("type", VStr "string") :: ("enum", e) :: rest →
     schemaType h s = Ok (VStr "string")) ∧
  (∀ e, props = [("enum", VRef e)] → schemaType h s = Ok (VStr "enum")).
Proof.
  intros H s. unfold hasField, lacksField. subst s.
  rewrite (schemaType_object h l props H).
  rewrite !(getField_object h l props) by done.
  split_and!.
  - intros t [= <-] ->. done.
  - intros (? & [= <-] & ->) (? & [= <-] & ->). done.
  - intros (? & [= <-] & ->) (? & [= <-] & ->) (? & [= <-] & ->). done.
  - intros (? & [= <-] & ->) (? & [= <-] & ->) (? & [= <-] & ->) (? & [= <-] & ->). done.
  - intros (? & [= <-] & ->) (? & [= <-] & ->) (? & [= <-] & ->) (? & [= <-] & ->)
           (? & [= <-] & ->). done.
  - intros (? & [= <-] & ->) (? & [= <-] & ->) (? & [= <-] & ->) (? & [= <-] & ->)
           (? & [= <-] & ->). done.
  - intros e rest ->. done.
  - intros e ->. done.
Qed.

(** [{type: "string", enum: ["a", "b"]}] and [{enum: [1, 2]}]. *)
Lemma schemaType_precedence_witness :
  schemaType typedEnum.2 typedEnum.1 = Ok (VStr "string") ∧
  schemaType bareEnum.2 bareEnum.1 = Ok (VStr "enum").
Proof.
  split.
  - destruct (schemaType_precedence typedEnum.2 1
                [("type", VStr "string"); ("enum", VRef 0)] eq_refl)
      as (_ & _ & _ & _ & _ & _ & H & _).
    exact (H (VRef 0) [] eq_refl).
  - destruct (schemaType_precedence bareEnum.2 1 [("enum", VRef 0)] eq_refl)
      as (_ & _ & _ & _ & _ & _ & _ & H).
    exact (H 0%nat eq_refl).
Defined.

End SchemaFacts.

Module NormalizeFacts.
Import Schema Samples.

Section ChainFacts.
Context {A B : Type}.

Lemma chain_length (P : A → B → nat → nat → Prop) xs : ∀ ys lo hi,
  chain P xs ys lo hi → length xs = length ys.
Proof.
  induction xs as [|x xs IH]; intros [|y ys] lo hi; simpl; try done.
  intros (mid & _ & H). f_equal. eauto.
Qed.

Lemma chain_impl (P Q : A → B → nat → nat → Prop) xs : ∀ ys lo hi,
  Forall (λ x, ∀ y a b, P x y a b → Q x y a b) xs →
  chain P xs ys lo hi → chain Q xs ys lo hi.
Proof.
  induction xs as [|x xs IH]; intros [|y ys] lo hi HF; simpl; try done.
  apply Forall_cons in HF as [Hx HF].
  intros (mid & HP & H). exists mid. split; [by apply Hx | by apply IH].
Qed.

Lemma chain_le (P : A → B → nat → nat → Prop) xs : ∀ ys lo hi,
  Forall (λ x, ∀ y a b, P x y a b → (a ≤ b)%nat) xs →
  chain P xs ys lo hi → (lo ≤ hi)%nat.
Proof.
  induction xs as [|x xs IH]; intros [|y ys] lo hi HF; simpl; try done.
  apply Forall_cons in HF as [Hx HF].
  intros (mid & HP & H). apply Hx in HP. apply IH in H; [lia|done].
Qed.

Lemma chain_weaken (P : A → B → nat → nat → Prop) xs : ∀ ys lo hi lo' hi',
  Forall (λ x, ∀ y a b a', P x y a b → (a' ≤ a)%nat → P x y a' b) xs →
  chain P xs ys lo hi → (lo' ≤ lo)%nat → (hi ≤ hi')%nat → chain P xs ys lo' hi'.
Proof.
  induction xs as [|x xs IH]; intros [|y ys] lo hi lo' hi' HF; simpl; try done; [lia|].
  apply Forall_cons in HF as [Hx HF].
  intros (mid & HP & H) Hlo Hhi. exists mid. split; [by eapply Hx|].
  eapply IH; eauto.
Qed.

End ChainFacts.

Lemma tree_le h j : ∀ v lo hi, tree h j v lo hi → (lo ≤ hi)%nat.
Proof.
  induction j as [| | | |js IH|fs IH] using json_induction; intros v lo hi; simpl;
    try (intros [_ ?]; done).
  - intros (l & vs & _ & _ & Hl & Hc).
    apply chain_le in Hc; [lia|].
    eapply Forall_impl; [exact IH|]. naive_solver.
  - intros (l & ps & _ & _ & Hl & _ & Hc).
    apply chain_le in Hc; [lia|].
    eapply Forall_impl; [exact IH|]. intros f Hf p a b [_ Ht]. eauto.
Qed.

Lemma tree_weaken h j : ∀ v lo hi lo' hi',
  tree h j v lo hi → (lo' ≤ lo)%nat → (hi ≤ hi')%nat → tree h j v lo' hi'.
Proof.
  induction j as [| | | |js IH|fs IH] using json_induction; intros v lo hi lo' hi'; simpl;
    try (intros [? ?] ? ?; split; [done|lia]).
  - intros (l & vs & -> & Hl & Hlt & Hc) Hlo Hhi.
    exists l, vs. split_and!; [done|done|lia|].
    eapply chain_weaken; [|exact Hc|done|done].
    eapply Forall_impl; [exact IH|]. intros x Hx y a b a' Ht Ha.
    eapply Hx; [exact Ht|done|done].
  - intros (l & ps & -> & Hl & Hlt & Hnd & Hc) Hlo Hhi.
    exists l, ps. split_and!; [done|done|lia|done|].
    eapply chain_weaken; [|exact Hc|done|done].
    eapply Forall_impl; [exact IH|]. intros x Hx y a b a' [Hk Ht] Ha.
    split; [done|]. eapply Hx; [exact Ht|done|done].
Qed.

(** A tree only depends on the cells of its interval. *)
Lemma tree_frame h h' j : ∀ v lo hi,
  tree h j v lo hi →
  (∀ l, (lo ≤ l < hi)%nat → h' !! l = h !! l) →
  tree h' j v lo hi.
Proof.
  induction j as [| | | |js IH|fs IH] using json_induction; intros v lo hi; simpl; try done.
  - intros (l & vs & -> & Hl & Hlt & Hc) Hsame.
    assert (Hlo : (lo ≤ l)%nat).
    { apply chain_le in Hc; [done|]. eapply Forall_impl; [exact IH|].
      intros x _ y a b Ht. by eapply tree_le. }
    exists l, vs. split_and!; [done|by rewrite Hsame by lia|done|].
    clear Hl. revert vs lo Hc Hsame Hlo.
    induction IH as [|x xs Hx _ IHxs]; intros [|y ys] lo; simpl; try done.
    intros (mid & Ht & Hc) Hsame Hlo.
    assert ((mid ≤ l)%nat).
    { apply chain_le in Hc; [done|]. apply Forall_forall. intros z _ y' a b Ht'.
      by eapply tree_le. }
    exists mid. split.
    + apply Hx; [done|]. intros l' Hl'. apply Hsame. lia.
    + apply IHxs; [done| |done]. intros l' Hl'. apply Hsame.
      apply tree_le in Ht. lia.
  - intros (l & ps & -> & Hl & Hlt & Hnd & Hc) Hsame.
    assert (Hlo : (lo ≤ l)%nat).
    { apply chain_le in Hc; [done|]. eapply Forall_impl; [exact IH|].
      intros x _ y a b [_ Ht]. by eapply tree_le. }
    exists l, ps. split_and!; [done|by rewrite Hsame by lia|done|done|].
    clear Hl Hnd. revert ps lo Hc Hsame Hlo.
    induction IH as [|x xs Hx _ IHxs]; intros [|y ys] lo; simpl; try done.
    intros (mid & [Hk Ht] & Hc) Hsame Hlo.
    assert ((mid ≤ l)%nat).
    { apply chain_le in Hc; [done|]. apply Forall_forall. intros z _ y' a b [_ Ht'].
      by eapply tree_le. }
    exists mid. split.
    + split; [done|]. apply Hx; [done|]. intros l' Hl'. apply Hsame. lia.
    + apply IHxs; [done| |done]. intros l' Hl'. apply Hsame.
      apply tree_le in Ht. lia.
Qed.

Lemma chain_within {A B : Type} (P Q : A → B → nat → nat → Prop) xs : ∀ ys lo hi,
  Forall (λ x, ∀ y a b, P x y a b → (a ≤ b)%nat) xs →
  (∀ x y a b, x ∈ xs → (lo ≤ a)%nat → (b ≤ hi)%nat → P x y a b → Q x y a b) →
  chain P xs ys lo hi → chain Q xs ys lo hi.
Proof.
  induction xs as [|x xs IH]; intros [|y ys] lo hi Hle HPQ; simpl; try done.
  apply Forall_cons in Hle as [Hx Hle].
  intros (mid & HP & Hc).
  pose proof (Hx _ _ _ HP) as Hmid.
  pose proof (chain_le P xs ys mid hi Hle Hc) as Hhi.
  exists mid. split.
  - apply HPQ; [by left|done|done|done].
  - apply IH; [done| |done].
    intros x' y' a b Hin Ha Hb. apply HPQ; [by right|lia|done].
Qed.

Lemma trees_le h js : Forall (λ x, ∀ y a b, tree h x y a b → (a ≤ b)%nat) js.
Proof. apply Forall_forall. intros x _ y a b. apply tree_le. Qed.

Lemma fields_le h (fs : list (string * json)) :
  Forall (λ f, ∀ (p : string * val) a b, field h f p a b → (a ≤ b)%nat) fs.
Proof. apply Forall_forall. intros x _ y a b [_ Ht]. by eapply tree_le. Qed.

Lemma trees_frame h h' js vs lo hi :
  chain (tree h) js vs lo hi →
  (∀ l, (lo ≤ l < hi)%nat → h' !! l = h !! l) →
  chain (tree h') js vs lo hi.
Proof.
  intros Hc Hsame. eapply chain_within; [apply trees_le| |exact Hc].
  intros x y a b _ Ha Hb Ht. eapply tree_frame; [exact Ht|].
  intros l Hl. apply Hsame. lia.
Qed.

Lemma fields_frame h h' fs ps lo hi :
  chain (field h) fs ps lo hi →
  (∀ l, (lo ≤ l < hi)%nat → h' !! l = h !! l) →
  chain (field h') fs ps lo hi.
Proof.
  intros Hc Hsame. eapply chain_within; [apply fields_le| |exact Hc].
  intros x y a b _ Ha Hb [Hk Ht]. split; [done|]. eapply tree_frame; [exact Ht|].
  intros l Hl. apply Hsame. lia.
Qed.

Lemma tree_obj h fs v lo hi :
  tree h (JObj fs) v lo hi ↔
  ∃ l ps, v = VRef l ∧ h !! l = Some (Obj ps) ∧ (l < hi)%nat ∧
          NoDup (map fst ps) ∧ chain (field h) fs ps lo l.
Proof. done. Qed.

Lemma tree_arr h js v lo hi :
  tree h (JArr js) v lo hi ↔
  ∃ l vs, v = VRef l ∧ h !! l = Some (Arr vs) ∧ (l < hi)%nat ∧ chain (tree h) js vs lo l.
Proof. done. Qed.

Lemma tree_shallow h j v lo hi : tree h j v lo hi → shallow j v.
Proof.
  destruct j; simpl; try (by intros [-> _]).
  - by intros (l & vs & -> & _).
  - by intros (l & ps & -> & _).
Qed.

Lemma shallow_truthy j v : shallow j v → truthy v = truthyJ j.
Proof. destruct j, v; simpl; try done; by intros ->. Qed.

Lemma shallow_str j v s : shallow j v → (v = VStr s ↔ isStr j s = true).
Proof.
  destruct j, v; simpl; try done; try (intros _; split; [done|discriminate]).
  all: try (intros _; split; done).
  intros ->. split.
  - intros [= ->]. apply String.eqb_refl.
  - intros ->%String.eqb_eq. done.
Qed.

(** The values of a chain of fields, key by key. *)
Lemma fields_assoc h fs : ∀ ps lo hi k,
  chain (field h) fs ps lo hi →
  match assoc k fs, assoc k ps with
  | Some j, Some v => ∃ a b, (lo ≤ a)%nat ∧ (b ≤ hi)%nat ∧ tree h j v a b
  | None, None => True
  | _, _ => False
  end.
Proof.
  induction fs as [|[k0 j0] fs IH]; intros [|[k1 v1] ps] lo hi k; simpl; try done.
  intros (mid & [Hk Ht] & Hc). simpl in Hk. subst k1.
  pose proof (chain_le _ _ _ _ _ (fields_le h fs) Hc) as Hhi.
  pose proof (tree_le _ _ _ _ _ Ht) as Hmid.
  destruct (String.eqb k k0).
  - exists lo, mid. split_and!; [done|lia|done].
  - specialize (IH ps mid hi k Hc).
    destruct (assoc k fs), (assoc k ps); try done.
    destruct IH as (a & b & ? & ? & ?). exists a, b. split_and!; [lia|done|done].
Qed.

Lemma fields_keys h fs : ∀ ps lo hi,
  chain (field h) fs ps lo hi → map fst fs = map fst ps.
Proof.
  induction fs as [|[k0 j0] fs IH]; intros [|[k1 v1] ps] lo hi; simpl; try done.
  intros (mid & [Hk _] & Hc). simpl in Hk. subst. f_equal. eauto.
Qed.

Lemma fields_shallow h fs ps lo hi k :
  chain (field h) fs ps lo hi →
  match assoc k fs, assoc k ps with
  | Some j, Some v => shallow j v
  | None, None => True
  | _, _ => False
  end.
Proof.
  intros Hc. pose proof (fields_assoc h fs ps lo hi k Hc) as H.
  destruct (assoc k fs), (assoc k ps); try done.
  destruct H as (a & b & _ & _ & Ht). by eapply tree_shallow.
Qed.

Lemma fields_truthy h fs ps lo hi k :
  chain (field h) fs ps lo hi →
  truthy (default VUndefined (assoc k ps)) =
  match assoc k fs with Some j => truthyJ j | None => false end.
Proof.
  intros Hc. pose proof (fields_shallow h fs ps lo hi k Hc) as H.
  destruct (assoc k fs), (assoc k ps); try done. simpl. by apply shallow_truthy.
Qed.

(** [schemaType] of a node in the store is [schemaTypeJ] of its fields. *)
Lemma schemaType_node h l fs ps lo :
  h !! l = Some (Obj ps) →
  chain (field h) fs ps lo l →
  ∃ t, schemaType h (VRef l) = Ok t ∧ shallow (schemaTypeJ fs) t.
Proof.
  intros Hl Hc.
  rewrite (SchemaFacts.schemaType_object h l ps Hl). cbv zeta.
  unfold schemaTypeJ.
  rewrite !(fields_truthy h fs ps lo l) by done.
  pose proof (fields_shallow h fs ps lo l "type" Hc) as Htype.
  destruct (assoc "type" fs) as [jt|] eqn:E1.
  - destruct (assoc "type" ps) as [vt|]; [|done]. simpl.
    destruct (truthyJ jt); [eauto|].
    repeat (match goal with |- context [match assoc ?k fs with _ => _ end] =>
              destruct (match assoc k fs with Some j => truthyJ j | None => false end) end;
            [eexists; split; [done|done]|]).
    eexists; split; done.
  - repeat (match goal with |- context [match assoc ?k fs with _ => _ end] =>
              destruct (match assoc k fs with Some j => truthyJ j | None => false end) end;
            [eexists; split; [done|done]|]).
    eexists; split; done.
Qed.

(* ---- lemmas ---- *)

Lemma normalizeJson_obj fs :
  normalizeJson (JObj fs) =
    if lacksIterable (schemaTypeJ fs) fs then Throw TypeError
    else fs' ← normalizeFields (schemaTypeJ fs) fs; Ok (JObj fs').
Proof. reflexivity. Qed.

Section FilterFacts.
Context {A : Type}.
Implicit Types ps : list (string * A).

Lemma filterBy_ext (f g : string → A → bool) ps :
  (∀ k v, f k v = g k v) → filterBy f ps = filterBy g ps.
Proof.
  intros H. induction ps as [|[k v] r IH]; simpl; [done|]. by rewrite H, IH.
Qed.

Lemma filterBy_filterBy (f g : string → A → bool) ps :
  filterBy g (filterBy f ps) = filterBy (λ k v, f k v && g k v) ps.
Proof.
  induction ps as [|[k v] r IH]; simpl; [done|].
  destruct (f k v); simpl; [|done]. destruct (g k v); by rewrite IH.
Qed.

Lemma filterBy_keys_subset (f : string → A → bool) ps k :
  k ∈ map fst (filterBy f ps) → k ∈ map fst ps.
Proof.
  induction ps as [|[k0 v] r IH]; simpl; [done|].
  destruct (f k0 v); simpl.
  - intros [->|H]%elem_of_cons; [by left | right; auto].
  - intros H. right. auto.
Qed.

Lemma filterBy_NoDup (f : string → A → bool) ps :
  NoDup (map fst ps) → NoDup (map fst (filterBy f ps)).
Proof.
  induction ps as [|[k v] r IH]; simpl; [done|].
  intros [Hk Hr]%NoDup_cons. destruct (f k v); simpl; [|auto].
  apply NoDup_cons. split; [|auto]. intros H%filterBy_keys_subset. done.
Qed.

Lemma assoc_None ps k : k ∉ map fst ps → assoc k ps = None.
Proof.
  induction ps as [|[k0 v] r IH]; simpl; [done|].
  intros H. apply not_elem_of_cons in H as [Hne Hr].
  destruct (String.eqb k k0) eqn:E; [by apply String.eqb_eq in E|auto].
Qed.

Lemma assoc_Some_elem ps k v : assoc k ps = Some v → k ∈ map fst ps.
Proof.
  induction ps as [|[k0 v0] r IH]; simpl; [done|].
  destruct (String.eqb k k0) eqn:E.
  - apply String.eqb_eq in E as ->. intros _. by left.
  - intros H. right. auto.
Qed.

Lemma remove_notin ps k : k ∉ map fst ps → remove k ps = ps.
Proof.
  induction ps as [|[k0 v] r IH]; simpl; [done|].
  intros H. apply not_elem_of_cons in H as [Hne Hr].
  destruct (String.eqb k k0) eqn:E; [by apply String.eqb_eq in E|].
  by rewrite IH.
Qed.

Lemma filterBy_id (f : string → A → bool) ps :
  (∀ k v, (k, v) ∈ ps → f k v = true) → filterBy f ps = ps.
Proof.
  induction ps as [|[k v] r IH]; simpl; [done|].
  intros H. rewrite H by left. rewrite IH; [done|].
  intros k' v' Hin. apply H. by right.
Qed.

Lemma deleted_filterBy (tr : A → bool) k ps :
  NoDup (map fst ps) →
  deleted tr k ps = filterBy (λ k' v, negb (String.eqb k k' && tr v)) ps.
Proof.
  unfold deleted. induction ps as [|[k0 v0] r IH]; simpl; [done|].
  intros [Hk Hr]%NoDup_cons. specialize (IH Hr).
  destruct (String.eqb k k0) eqn:E; simpl.
  - apply String.eqb_eq in E as ->.
    assert (Hid : filterBy (λ k' v, negb (String.eqb k0 k' && tr v)) r = r).
    { apply filterBy_id. intros k' v' Hin.
      destruct (String.eqb k0 k') eqn:E'; [|done].
      apply String.eqb_eq in E' as ->. destruct Hk.
      apply list_elem_of_fmap. by exists (k', v'). }
    destruct (tr v0); simpl; rewrite Hid; [|done].
    by apply remove_notin.
  - rewrite <- IH. destruct (assoc k r) as [v|]; [|done].
    destruct (tr v); done.
Qed.

Lemma stripFields_deleted (tr : A → bool) ps :
  NoDup (map fst ps) →
  foldl (λ ps k, deleted tr k ps) ps authoringFields = stripFields tr ps.
Proof.
  intros Hnd. unfold authoringFields, stripFields. cbn [foldl].
  rewrite (deleted_filterBy tr "completions" ps) by done.
  rewrite (deleted_filterBy tr "exhaustiveCompletions") by by apply filterBy_NoDup.
  rewrite filterBy_filterBy.
  rewrite (deleted_filterBy tr "documentation") by by apply filterBy_NoDup.
  rewrite filterBy_filterBy.
  rewrite (deleted_filterBy tr "tags") by by apply filterBy_NoDup.
  rewrite filterBy_filterBy.
  apply filterBy_ext. intros k v. unfold isAuthoring, authoringFields. cbn [existsb].
  rewrite !(String.eqb_sym k).
  destruct (String.eqb "completions" k), (String.eqb "exhaustiveCompletions" k),
    (String.eqb "documentation" k), (String.eqb "tags" k), (tr v); done.
Qed.

Lemma stripFields_assoc (tr : A → bool) ps k :
  isAuthoring k = false → assoc k (stripFields tr ps) = assoc k ps.
Proof.
  intros Hk. unfold stripFields. induction ps as [|[k0 v0] r IH]; simpl; [done|].
  destruct (String.eqb k k0) eqn:E.
  - apply String.eqb_eq in E as <-. rewrite Hk. simpl. by rewrite String.eqb_refl.
  - destruct (negb _); simpl; [by rewrite E|done].
Qed.

End FilterFacts.

Lemma deleteIfTruthy_node h l ps k :
  h !! l = Some (Obj ps) →
  deleteIfTruthy k (VRef l) h = Ok (<[l := Obj (deleted truthy k ps)]> h).
Proof.
  intros Hl. unfold deleteIfTruthy.
  rewrite (SchemaFacts.getField_object h l ps k Hl).
  unfold mbind, outcome_bind, deleted, deleteField. rewrite Hl.
  destruct (assoc k ps) as [v|]; simpl.
  - destruct (truthy v); [done|]. by rewrite list_insert_id.
  - by rewrite list_insert_id.
Qed.

Lemma stripAuthoring_node h l ps :
  h !! l = Some (Obj ps) → NoDup (map fst ps) →
  stripAuthoring (VRef l) h = Ok (<[l := Obj (stripFields truthy ps)]> h).
Proof.
  intros Hl Hnd. rewrite <- stripFields_deleted by done.
  unfold stripAuthoring.
  assert (Hlt : (l < length h)%nat) by (by eapply lookup_lt_Some).
  assert (Hgen : ∀ ks ps h, h !! l = Some (Obj ps) →
    forEach (λ k, deleteIfTruthy k (VRef l)) ks h
    = Ok (<[l := Obj (foldl (λ ps k, deleted truthy k ps) ps ks)]> h)).
  { clear. induction ks as [|k ks IH]; intros ps h Hl; simpl.
    - by rewrite list_insert_id.
    - rewrite (deleteIfTruthy_node h l ps k Hl). simpl.
      assert (Hlt : (l < length h)%nat) by (by eapply lookup_lt_Some).
      rewrite (IH (deleted truthy k ps)) by (by apply list_lookup_insert_eq).
      by rewrite list_insert_insert_eq. }
  by apply Hgen.
Qed.

Lemma stripAuthoring_other h v :
  (∀ l, v = VRef l → ∃ vs, h !! l = Some (Arr vs)) → v ≠ VNull → v ≠ VUndefined →
  stripAuthoring v h = Ok h.
Proof.
  intros Hv Hn Hu. unfold stripAuthoring, authoringFields, deleteIfTruthy.
  destruct v as [| | | | |l]; try done.
  destruct (Hv l eq_refl) as [vs Hl].
  cbn [forEach getField mbind outcome_bind]. rewrite Hl.
  cbn [truthy mbind outcome_bind]. rewrite Hl.
  cbn [truthy mbind outcome_bind]. rewrite Hl.
  cbn [truthy mbind outcome_bind]. rewrite Hl.
  reflexivity.
Qed.

Lemma field_weaken h f p a b a' :
  field h f p a b → (a' ≤ a)%nat → field h f p a' b.
Proof. intros [Hk Ht] Ha. split; [done|]. eapply tree_weaken; [exact Ht|done|done]. Qed.

Lemma fields_strip h fs : ∀ ps lo hi,
  chain (field h) fs ps lo hi →
  chain (field h) (stripFields truthyJ fs) (stripFields truthy ps) lo hi.
Proof.
  unfold stripFields.
  induction fs as [|[k0 j0] fs IH]; intros [|[k1 v1] ps] lo hi; simpl; try done.
  intros (mid & [Hk Ht] & Hc). simpl in Hk, Ht. subst k1.
  rewrite (shallow_truthy j0 v1) by (by eapply tree_shallow).
  destruct (negb _).
  - simpl. exists mid. split; [done|]. by apply IH.
  - apply IH in Hc. eapply chain_weaken; [|exact Hc| |done].
    + apply Forall_forall. intros f _ p a b a' Hf Ha. by eapply field_weaken.
    + by eapply tree_le.
Qed.

(** *** The store outside an interval *)

Lemma sameOutside_refl lo hi h : sameOutside lo hi h h.
Proof. done. Qed.

Lemma sameOutside_trans lo hi lo1 hi1 lo2 hi2 h h1 h2 :
  sameOutside lo1 hi1 h h1 → sameOutside lo2 hi2 h1 h2 →
  (lo ≤ lo1)%nat → (hi1 ≤ hi)%nat → (lo ≤ lo2)%nat → (hi2 ≤ hi)%nat →
  sameOutside lo hi h h2.
Proof.
  intros [Hl1 H1] [Hl2 H2] ? ? ? ?. split; [congruence|].
  intros l Hl. rewrite H2 by lia. apply H1. lia.
Qed.

Lemma sameOutside_widen lo hi lo' hi' h h' :
  sameOutside lo hi h h' → (lo' ≤ lo)%nat → (hi ≤ hi')%nat → sameOutside lo' hi' h h'.
Proof. intros [Hl H] ? ?. split; [done|]. intros l Hl'. apply H. lia. Qed.

Lemma sameOutside_insert lo hi h l o :
  (lo ≤ l < hi)%nat → sameOutside lo hi h (<[l := o]> h).
Proof.
  intros Hl. split; [by rewrite length_insert|].
  intros l' Hl'. apply list_lookup_insert_ne. lia.
Qed.

(** *** Walking values that are not schema objects *)

Lemma schemaType_other h v :
  (∀ l, v = VRef l → ∃ vs, h !! l = Some (Arr vs)) → v ≠ VNull → v ≠ VUndefined →
  schemaType h v = Ok (VStr "any").
Proof.
  intros Hv Hn Hu. unfold schemaType.
  destruct v as [| | | | |l]; try done.
  destruct (Hv l eq_refl) as [vs Hl].
  unfold getField. rewrite Hl. done.
Qed.

Lemma walkSchema_other fuel h v :
  (∀ l, v = VRef l → ∃ vs, h !! l = Some (Arr vs)) → v ≠ VNull → v ≠ VUndefined →
  walkSchema (S fuel) stripAuthoring v h = Ok h.
Proof.
  intros Hv Hn Hu. cbn [walkSchema].
  rewrite stripAuthoring_other by done. cbn [mbind outcome_bind].
  rewrite schemaType_other by done. cbn [mbind outcome_bind].
  repeat (rewrite decide_False by discriminate). done.
Qed.

Lemma walkSchema_null fuel h : walkSchema (S fuel) stripAuthoring VNull h = Throw TypeError.
Proof. done. Qed.

Lemma forEach_noop {A : Type} (body : A → heap → outcome heap) xs h :
  (∀ x, x ∈ xs → body x h = Ok h) → forEach body xs h = Ok h.
Proof.
  induction xs as [|x xs IH]; intros H; simpl; [done|].
  rewrite H by left. simpl. apply IH. intros y Hy. apply H. by right.
Qed.

Lemma forEach_app {A : Type} (body : A → heap → outcome heap) xs ys h :
  forEach body (xs ++ ys) h = h' ← forEach body xs h; forEach body ys h'.
Proof.
  revert h. induction xs as [|x xs IH]; intros h; simpl; [done|].
  destruct (body x h) as [h1| |]; simpl; [apply IH|done|done].
Qed.

Lemma forEach_fmap {A B : Type} (g : A → B) (body : B → heap → outcome heap) xs h :
  forEach body (map g xs) h = forEach (λ x, body (g x)) xs h.
Proof.
  revert h. induction xs as [|x xs IH]; intros h; simpl; [done|].
  destruct (body (g x) h) as [h1| |]; simpl; [apply IH|done|done].
Qed.

Lemma forEach_ext {A : Type} (f g : A → heap → outcome heap) xs h :
  (∀ x h, f x h = g x h) → forEach f xs h = forEach g xs h.
Proof.
  intros H. revert h. induction xs as [|x xs IH]; intros h; simpl; [done|].
  rewrite H. destruct (g x h) as [h1| |]; simpl; [apply IH|done|done].
Qed.

Lemma forOfArray_end n body la i h vs :
  h !! la = Some (Arr vs) → vs !! i = None → forOfArray n body la i h = Ok h.
Proof. intros Hl Hi. destruct n; simpl; by rewrite Hl, Hi. Qed.

Lemma forOfArray_step n body la i h vs v :
  h !! la = Some (Arr vs) → vs !! i = Some v →
  forOfArray (S n) body la i h = h' ← body v h; forOfArray n body la (S i) h'.
Proof. intros Hl Hi. simpl. by rewrite Hl, Hi. Qed.

Lemma drop_cons_lookup {A : Type} (xs : list A) i y ys :
  drop i xs = y :: ys → xs !! i = Some y ∧ drop (S i) xs = ys.
Proof.
  intros H. split.
  - rewrite <- (Nat.add_0_r i). rewrite <- lookup_drop. by rewrite H.
  - rewrite <- (Nat.add_1_r i). rewrite <- drop_drop. by rewrite H.
Qed.

Lemma drop_nil_lookup {A : Type} (xs : list A) i : drop i xs = [] → xs !! i = None.
Proof.
  intros H. rewrite <- (Nat.add_0_r i). rewrite <- lookup_drop. by rewrite H.
Qed.

(** *** Computations on trees *)

Lemma tame_bind {X Y : Type} (m : outcome X) (k : X → outcome Y) :
  tame m → (∀ x, tame (k x)) → tame (m ≫= k).
Proof. destruct m; simpl; auto. Qed.

Lemma normalizeEach_tame js :
  Forall (λ x, tame (normalizeJson x)) js → tame (normalizeEach js).
Proof.
  induction 1 as [|x xs Hx _ IH]; simpl; [done|].
  apply tame_bind; [done|]. intros x'. apply tame_bind; [done|]. done.
Qed.

Lemma normalizeOwn_tame (fs : list (string * json)) :
  Forall (λ f, tame (normalizeJson f.2)) fs → tame (normalizeOwn fs).
Proof.
  induction 1 as [|[k x] xs Hx _ IH]; simpl; [done|].
  apply tame_bind; [done|]. intros x'. apply tame_bind; [done|]. done.
Qed.

Lemma normalizeFields_tame t (fs : list (string * json)) :
  Forall (λ f, ∀ kind, tame (normalizeChild kind f.2)) fs → tame (normalizeFields t fs).
Proof.
  induction 1 as [|[k x] xs Hx _ IH]; simpl; [done|].
  destruct (isAuthoring k && truthyJ x); [done|].
  apply tame_bind; [apply Hx|]. intros x'. apply tame_bind; [done|]. done.
Qed.

Lemma normalizeJson_tame_both j :
  tame (normalizeJson j) ∧ ∀ kind, tame (normalizeChild kind j).
Proof.
  induction j as [| | | |js IH|fs IH] using json_induction.
  1-4: split; [done|]; intros []; simpl; try done; by repeat case_match.
  - split; [done|].
    assert (He : tame (normalizeEach js)).
    { apply normalizeEach_tame. eapply Forall_impl; [exact IH|]. by intros x [? _]. }
    intros []; simpl; try done.
    all: apply tame_bind; done.
  - assert (Ho : tame (normalizeOwn fs)).
    { apply normalizeOwn_tame. eapply Forall_impl; [exact IH|]. by intros x [? _]. }
    assert (Hj : tame (normalizeJson (JObj fs))).
    { rewrite normalizeJson_obj. destruct (lacksIterable _ _); [done|].
      apply tame_bind; [|done]. apply normalizeFields_tame.
      eapply Forall_impl; [exact IH|]. by intros x [_ ?]. }
    split; [done|].
    intros []; unfold normalizeChild.
    + simpl truthyJ. cbv iota. exact Hj.
    + done.
    + apply tame_bind; done.
    + done.
Qed.

Lemma normalizeJson_tame j : tame (normalizeJson j).
Proof. apply normalizeJson_tame_both. Qed.

Lemma normalizeChild_tame kind j : tame (normalizeChild kind j).
Proof. apply normalizeJson_tame_both. Qed.

Lemma mapFields_ext (f g : string → json → outcome json) fs :
  (∀ k v, f k v = g k v) → mapFields f fs = mapFields g fs.
Proof.
  intros H. induction fs as [|[k v] r IH]; simpl; [done|]. by rewrite H, IH.
Qed.

Lemma mapFields_id fs : mapFields (λ _ v, Ok v) fs = Ok fs.
Proof. induction fs as [|[k v] r IH]; simpl; [done|]. by rewrite IH. Qed.

Lemma mapFields_tame (g : string → json → outcome json) fs :
  (∀ k v, tame (g k v)) → tame (mapFields g fs).
Proof.
  intros H. induction fs as [|[k v] r IH]; simpl; [done|].
  apply tame_bind; [done|]. intros x. apply tame_bind; done.
Qed.

Lemma updateAt_missing k g fs : assoc k fs = None → updateAt k g fs = Ok fs.
Proof.
  unfold updateAt. induction fs as [|[k0 v] r IH]; simpl; [done|].
  rewrite (String.eqb_sym k0 k).
  destruct (String.eqb k k0); [done|]. intros H. by rewrite IH.
Qed.

Lemma setAt_missing k j fs : assoc k fs = None → setAt k j fs = fs.
Proof.
  unfold setAt. induction fs as [|[k0 v] r IH]; simpl; [done|].
  rewrite (String.eqb_sym k0 k).
  destruct (String.eqb k k0); [done|]. intros H. by rewrite IH.
Qed.

Lemma updateAt_found k g fs j :
  NoDup (map fst fs) → assoc k fs = Some j →
  updateAt k g fs = j' ← g j; Ok (setAt k j' fs).
Proof.
  unfold updateAt, setAt. induction fs as [|[k0 v] r IH]; simpl; [done|].
  intros [Hk Hr]%NoDup_cons. rewrite (String.eqb_sym k0 k).
  destruct (String.eqb k k0) eqn:E.
  - apply String.eqb_eq in E as ->. intros [= ->].
    pose proof (assoc_None r k0 Hk) as Hnone.
    pose proof (updateAt_missing k0 g r Hnone) as Hu. unfold updateAt in Hu. rewrite Hu.
    pose proof (setAt_missing k0) as Hs. unfold setAt in Hs.
    destruct (g j) as [j'| |]; simpl; [|done..]. by rewrite Hs.
  - intros Hj. rewrite (IH Hr Hj). by destruct (g j).
Qed.

Lemma mapFields_seq k1 g1 (G : string → json → outcome json) fs :
  (∀ v, G k1 v = Ok v) → (∀ v, tame (g1 v)) → (∀ k v, tame (G k v)) →
  mapFields (λ k v, if String.eqb k k1 then g1 v else G k v) fs =
    fs' ← updateAt k1 g1 fs; mapFields G fs'.
Proof.
  intros HG Hg1 HGt. unfold updateAt.
  induction fs as [|[k v] r IH]; simpl; [done|].
  rewrite IH. clear IH.
  assert (Hu : tame (mapFields (λ k' v, if String.eqb k' k1 then g1 v else Ok v) r)).
  { apply mapFields_tame. intros k' v'. by destruct (String.eqb k' k1). }
  destruct (String.eqb k k1) eqn:E.
  - apply String.eqb_eq in E as ->.
    pose proof (Hg1 v) as Hv.
    destruct (g1 v) as [x|e|]; simpl; [|by simpl in Hv; subst|done].
    destruct (mapFields _ r) as [r1|e|]; simpl; [|done..].
    rewrite HG. simpl. done.
  - pose proof (HGt k v) as Hv.
    destruct (mapFields _ r) as [r1|e|]; simpl.
    + done.
    + simpl in Hu. subst e. destruct (G k v) as [x|e|]; simpl; [done| |done].
      simpl in Hv. by subst.
    + done.
Qed.

Lemma normalizeFields_mapFields t fs :
  normalizeFields t fs =
    mapFields (λ k v, normalizeChild (kindOf t k) v) (stripFields truthyJ fs).
Proof.
  unfold stripFields. induction fs as [|[k v] r IH]; simpl; [done|].
  destruct (isAuthoring k && truthyJ v); simpl; [done|]. by rewrite IH.
Qed.

Lemma fields_focus h fs : ∀ ps lo hi k j,
  chain (field h) fs ps lo hi → NoDup (map fst fs) → assoc k fs = Some j →
  ∃ v a b, assoc k ps = Some v ∧ (lo ≤ a)%nat ∧ (b ≤ hi)%nat ∧ tree h j v a b ∧
    ∀ h' j', tree h' j' v a b → sameOutside a b h h' →
             chain (field h') (setAt k j' fs) ps lo hi.
Proof.
  induction fs as [|[k0 j0] fs IH]; intros [|[k1 v1] ps] lo hi k j; simpl; try done.
  intros (mid & [Hk Ht] & Hc) [Hk0 Hnd]%NoDup_cons. simpl in Hk, Ht. subst k1.
  pose proof (tree_le _ _ _ _ _ Ht) as Hmid.
  pose proof (chain_le _ _ _ _ _ (fields_le h fs) Hc) as Hhi.
  rewrite (String.eqb_sym k0 k).
  destruct (String.eqb k k0) eqn:E.
  - apply String.eqb_eq in E as ->. intros [= ->].
    exists v1, lo, mid. split_and!; [done|done|done|done|].
    intros h' j' Ht' [_ Hs]. simpl.
    rewrite (setAt_missing k0 j' fs (assoc_None fs k0 Hk0)).
    exists mid. split; [done|].
    eapply fields_frame; [exact Hc|]. intros l Hl. apply Hs. lia.
  - intros Hj. destruct (IH ps mid hi k j Hc Hnd Hj) as (v & a & b & Hv & Ha & Hb & Htv & Hput).
    exists v, a, b. split_and!; [done|lia|done|done|].
    intros h' j' Ht' Hs. exists mid. split.
    + split; [done|]. simpl. eapply tree_frame; [exact Ht|].
      intros l Hl. destruct Hs as [_ Hs]. apply Hs. lia.
    + by apply Hput.
Qed.

(** *** Sizes *)

Lemma jsize_pos j : (1 ≤ jsize j)%nat.
Proof. destruct j; simpl; lia. Qed.

Lemma jsize_elems js :
  Forall (λ x, (jsize x < jsize (JArr js))%nat) js ∧ (length js < jsize (JArr js))%nat.
Proof.
  simpl. induction js as [|x xs [IH1 IH2]]; simpl; [split; [done|lia]|].
  pose proof (jsize_pos x). split; [|lia].
  constructor; [lia|]. eapply Forall_impl; [exact IH1|]. intros y Hy. simpl in Hy. lia.
Qed.

Lemma jsize_fields (fs : list (string * json)) :
  Forall (λ f, (jsize f.2 < jsize (JObj fs))%nat) fs.
Proof.
  simpl. induction fs as [|[k x] xs IH]; simpl; [done|].
  constructor; [simpl; lia|]. eapply Forall_impl; [exact IH|]. intros y Hy. simpl in Hy. lia.
Qed.

Lemma jsize_assoc (fs : list (string * json)) k j :
  assoc k fs = Some j → (jsize j < jsize (JObj fs))%nat.
Proof.
  intros H. pose proof (jsize_fields fs) as HF. rewrite Forall_forall in HF.
  induction fs as [|[k0 x] xs IH]; simpl in H; [done|].
  destruct (String.eqb k k0).
  - injection H as ->. apply (HF (k0, j)). by left.
  - assert (Hx : (jsize j < jsize (JObj xs))%nat).
    { apply IH; [done|]. apply Forall_forall. apply jsize_fields. }
    simpl in *. lia.
Qed.

Lemma assoc_NoDup_elem {A : Type} (ps : list (string * A)) k v :
  NoDup (map fst ps) → (k, v) ∈ ps → assoc k ps = Some v.
Proof.
  induction ps as [|[k0 v0] r IH]; simpl; [by intros _ H%elem_of_nil|].
  intros [Hk Hr]%NoDup_cons [[= -> ->]|Hin]%elem_of_cons.
  - by rewrite String.eqb_refl.
  - destruct (String.eqb k k0) eqn:E; [|auto].
    apply String.eqb_eq in E as ->. destruct Hk.
    apply list_elem_of_fmap. by exists (k0, v).
Qed.

Lemma chars_length s : length (chars s) = String.length s.
Proof.
  unfold chars. rewrite length_map. induction s as [|c s IH]; simpl; [done|]. by rewrite IH.
Qed.

Lemma chars_prim s v : v ∈ chars s → ∃ c, v = VStr c.
Proof. unfold chars. intros (c & -> & _)%list_elem_of_fmap. eauto. Qed.

Lemma Forall2_seq_lookup {A : Type} (vs : list A) :
  ∀ i, Forall2 (λ n y, ∀ ws, drop i ws = vs → ws !! n = Some y) (seq i (length vs)) vs.
Proof.
  induction vs as [|v vs IH]; intros i; simpl; [constructor|].
  constructor.
  - intros ws Hws. by apply drop_cons_lookup in Hws as [? _].
  - eapply Forall2_impl; [apply (IH (S i))|]. intros n y H ws Hws.
    apply H. by apply drop_cons_lookup in Hws as [_ ?].
Qed.

Lemma tree_ref_arr h js la vs a b :
  h !! la = Some (Arr vs) → (la < b)%nat → chain (tree h) js vs a la →
  tree h (JArr js) (VRef la) a b.
Proof. intros. simpl. exists la, vs. done. Qed.

Lemma tree_ref_obj h fs l ps a b :
  h !! l = Some (Obj ps) → (l < b)%nat → NoDup (map fst ps) → chain (field h) fs ps a l →
  tree h (JObj fs) (VRef l) a b.
Proof. intros. simpl. exists l, ps. done. Qed.

Section Loops.
Variable fuel : nat.
Hypothesis IH : ∀ j h v lo hi,
  tree h j v lo hi → (jsize j < fuel)%nat → walks fuel j h v lo hi.

(** [for (const s of a) walkSchema(s, f)] over the elements of an array
    cell. *)
Lemma forOfArray_trees la vs : ∀ js ys h mid i n,
  h !! la = Some (Arr vs) → drop i vs = ys →
  chain (tree h) js ys mid la →
  (length js ≤ n)%nat → Forall (λ x, (jsize x < fuel)%nat) js →
  simulates (forOfArray n (walkSchema fuel stripAuthoring) la i h) (normalizeEach js)
    (λ js' h', chain (tree h') js' ys mid la ∧ sameOutside mid la h h').
Proof.
  induction js as [|x xs IHxs]; intros [|y ys] h mid i n Hla Hdrop Hc Hn Hsz;
    simpl in Hc; try done.
  - simpl. exists h. split; [|done].
    eapply forOfArray_end; [done|]. by apply drop_nil_lookup.
  - destruct Hc as (m1 & Ht & Hc).
    apply drop_cons_lookup in Hdrop as [Hi Hdrop].
    apply Forall_cons in Hsz as [Hx Hsz].
    destruct n as [|n]; [simpl in Hn; lia|].
    rewrite (forOfArray_step n _ la i h vs y Hla Hi).
    pose proof (tree_le _ _ _ _ _ Ht) as Hm1.
    pose proof (chain_le _ _ _ _ _ (trees_le h xs) Hc) as Hm1la.
    pose proof (IH x h y mid m1 Ht Hx) as Hw. unfold walks, simulates in Hw.
    simpl normalizeEach. unfold simulates.
    destruct (normalizeJson x) as [x'|e|]; [|by rewrite Hw|done].
    destruct Hw as (h1 & -> & Ht1 & Hs1). cbn [mbind outcome_bind].
    assert (Hla1 : h1 !! la = Some (Arr vs)).
    { destruct Hs1 as [_ Hs1]. rewrite Hs1 by lia. done. }
    assert (Hc1 : chain (tree h1) xs ys m1 la).
    { eapply trees_frame; [exact Hc|]. intros l Hl.
      destruct Hs1 as [_ Hs1]. apply Hs1. lia. }
    pose proof (IHxs ys h1 m1 (S i) n Hla1 Hdrop Hc1 ltac:(simpl in Hn; lia) Hsz) as Hr.
    unfold simulates in Hr.
    destruct (normalizeEach xs) as [xs'|e|]; [|by rewrite Hr|done].
    destruct Hr as (h2 & -> & Hc2 & Hs2). cbn [mbind outcome_bind].
    exists h2. split; [done|]. split.
    + simpl. exists m1. split; [|done].
      eapply tree_frame; [exact Ht1|]. intros l Hl.
      destruct Hs2 as [_ Hs2]. apply Hs2. lia.
    + eapply sameOutside_trans; [exact Hs1|exact Hs2|lia..].
Qed.

(** A loop that reads its elements from cells that the walk does not
    touch. *)
Lemma forEach_trees : ∀ js ys (rds : list (heap → outcome val)) h mid hi,
  chain (tree h) js ys mid hi →
  Forall2 (λ rd y, ∀ h', sameOutside mid hi h h' → rd h' = Ok y) rds ys →
  Forall (λ x, (jsize x < fuel)%nat) js →
  simulates (forEach (λ rd h, v ← rd h; walkSchema fuel stripAuthoring v h) rds h)
    (normalizeEach js)
    (λ js' h', chain (tree h') js' ys mid hi ∧ sameOutside mid hi h h').
Proof.
  induction js as [|x xs IHxs]; intros [|y ys] rds h mid hi Hc Hrds Hsz;
    simpl in Hc; try done.
  - apply Forall2_nil_inv_r in Hrds as ->. simpl. exists h. done.
  - destruct Hc as (m1 & Ht & Hc).
    apply Forall2_cons_inv_r in Hrds as (rd & rds' & Hrd & Hrds & ->).
    apply Forall_cons in Hsz as [Hx Hsz].
    pose proof (tree_le _ _ _ _ _ Ht) as Hm1.
    pose proof (chain_le _ _ _ _ _ (trees_le h xs) Hc) as Hm1hi.
    cbn [forEach]. rewrite (Hrd h (sameOutside_refl _ _ _)). cbn [mbind outcome_bind].
    pose proof (IH x h y mid m1 Ht Hx) as Hw. unfold walks, simulates in Hw.
    simpl normalizeEach. unfold simulates.
    destruct (normalizeJson x) as [x'|e|]; [|by rewrite Hw|done].
    destruct Hw as (h1 & -> & Ht1 & Hs1). cbn [mbind outcome_bind].
    assert (Hc1 : chain (tree h1) xs ys m1 hi).
    { eapply trees_frame; [exact Hc|]. intros l Hl.
      destruct Hs1 as [_ Hs1]. apply Hs1. lia. }
    assert (Hrds1 : Forall2 (λ rd y, ∀ h', sameOutside m1 hi h1 h' → rd h' = Ok y) rds' ys).
    { eapply Forall2_impl; [exact Hrds|]. intros rd' y' Hrd' h' Hs'. apply Hrd'.
      eapply sameOutside_trans; [exact Hs1|exact Hs'|lia..]. }
    pose proof (IHxs ys rds' h1 m1 hi Hc1 Hrds1 Hsz) as Hr. unfold simulates in Hr.
    destruct (normalizeEach xs) as [xs'|e|]; [|by rewrite Hr|done].
    destruct Hr as (h2 & -> & Hc2 & Hs2). cbn [mbind outcome_bind].
    exists h2. split; [done|]. split.
    + simpl. exists m1. split; [|done].
      eapply tree_frame; [exact Ht1|]. intros l Hl.
      destruct Hs2 as [_ Hs2]. apply Hs2. lia.
    + eapply sameOutside_trans; [exact Hs1|exact Hs2|lia..].
Qed.

Lemma forEach_fields : ∀ fs ps (rds : list (heap → outcome val)) h mid hi,
  chain (field h) fs ps mid hi →
  Forall2 (λ rd p, ∀ h', sameOutside mid hi h h' → rd h' = Ok p.2) rds ps →
  Forall (λ f, (jsize f.2 < fuel)%nat) fs →
  simulates (forEach (λ rd h, v ← rd h; walkSchema fuel stripAuthoring v h) rds h)
    (normalizeOwn fs)
    (λ fs' h', chain (field h') fs' ps mid hi ∧ sameOutside mid hi h h').
Proof.
  induction fs as [|[k x] xs IHxs]; intros [|[k' y] ys] rds h mid hi Hc Hrds Hsz;
    simpl in Hc; try done.
  - apply Forall2_nil_inv_r in Hrds as ->. simpl. exists h. done.
  - destruct Hc as (m1 & [Hk Ht] & Hc). simpl in Hk, Ht. subst k'.
    apply Forall2_cons_inv_r in Hrds as (rd & rds' & Hrd & Hrds & ->).
    apply Forall_cons in Hsz as [Hx Hsz]. simpl in Hx, Hrd.
    pose proof (tree_le _ _ _ _ _ Ht) as Hm1.
    pose proof (chain_le _ _ _ _ _ (fields_le h xs) Hc) as Hm1hi.
    cbn [forEach]. rewrite (Hrd h (sameOutside_refl _ _ _)). cbn [mbind outcome_bind].
    pose proof (IH x h y mid m1 Ht Hx) as Hw. unfold walks, simulates in Hw.
    simpl normalizeOwn. unfold simulates.
    destruct (normalizeJson x) as [x'|e|]; [|by rewrite Hw|done].
    destruct Hw as (h1 & -> & Ht1 & Hs1). cbn [mbind outcome_bind].
    assert (Hc1 : chain (field h1) xs ys m1 hi).
    { eapply fields_frame; [exact Hc|]. intros l Hl.
      destruct Hs1 as [_ Hs1]. apply Hs1. lia. }
    assert (Hrds1 : Forall2 (λ rd p, ∀ h', sameOutside m1 hi h1 h' → rd h' = Ok p.2) rds' ys).
    { eapply Forall2_impl; [exact Hrds|]. intros rd' y' Hrd' h' Hs'. apply Hrd'.
      eapply sameOutside_trans; [exact Hs1|exact Hs'|lia..]. }
    pose proof (IHxs ys rds' h1 m1 hi Hc1 Hrds1 Hsz) as Hr. unfold simulates in Hr.
    destruct (normalizeOwn xs) as [xs'|e|]; [|by rewrite Hr|done].
    destruct Hr as (h2 & -> & Hc2 & Hs2). cbn [mbind outcome_bind].
    exists h2. split; [done|]. split.
    + simpl. exists m1. split; [|done]. split; [done|]. simpl.
      eapply tree_frame; [exact Ht1|]. intros l Hl.
      destruct Hs2 as [_ Hs2]. apply Hs2. lia.
    + eapply sameOutside_trans; [exact Hs1|exact Hs2|lia..].
Qed.

(** The walker on a value that is not an object changes nothing. *)
Lemma walk_prim h v :
  (1 ≤ fuel)%nat →
  (∀ l, v = VRef l → ∃ vs, h !! l = Some (Arr vs)) → v ≠ VNull → v ≠ VUndefined →
  walkSchema fuel stripAuthoring v h = Ok h.
Proof.
  intros Hf. destruct fuel as [|f]; [lia|]. apply walkSchema_other.
Qed.

Section Node.
Variables (h : heap) (l : nat) (ps : list (string * val)) (fs : list (string * json))
          (lo : nat).
Hypothesis Hl : h !! l = Some (Obj ps).
Hypothesis Hnd : NoDup (map fst ps).
Hypothesis Hc : chain (field h) fs ps lo l.

Let post := λ (fs' : list (string * json)) (h' : heap),
  chain (field h') fs' ps lo l ∧ sameOutside lo l h h'.

Lemma node_keys : NoDup (map fst fs).
Proof. by rewrite (fields_keys h fs ps lo l Hc). Qed.

Lemma node_missing k : assoc k fs = None → assoc k ps = None.
Proof.
  intros H. pose proof (fields_assoc h fs ps lo l k Hc) as Ha. rewrite H in Ha.
  by destruct (assoc k ps).
Qed.

(** [if (schema.k) walkSchema(schema.k, f)] *)
Lemma step_single k :
  (∀ j, assoc k fs = Some j → (jsize j < fuel)%nat) →
  simulates (items ← getField h (VRef l) k;
             if truthy items then walkSchema fuel stripAuthoring items h else Ok h)
            (updateAt k (normalizeChild Single) fs) post.
Proof.
  intros Hsz. rewrite (SchemaFacts.getField_object h l ps k Hl). cbn [mbind outcome_bind].
  destruct (assoc k fs) as [j|] eqn:Hj.
  - destruct (fields_focus h fs ps lo l k j Hc node_keys Hj)
      as (v & a & b & Hv & Ha & Hb & Ht & Hput).
    rewrite Hv. cbn [from_option id].
    rewrite (updateAt_found k _ fs j node_keys Hj). unfold normalizeChild.
    rewrite (shallow_truthy j v) by (by eapply tree_shallow).
    destruct (truthyJ j).
    + pose proof (IH j h v a b Ht (Hsz j eq_refl)) as Hw. unfold walks, simulates in Hw.
      unfold simulates.
      destruct (normalizeJson j) as [j'|e|]; cbn [mbind outcome_bind]; [|done..].
      destruct Hw as (h' & -> & Ht' & Hs'). exists h'. split; [done|]. split.
      * by apply Hput.
      * eapply sameOutside_widen; [exact Hs'|done..].
    + cbn [mbind outcome_bind]. exists h. split; [done|]. split; [|done].
      apply Hput; [done|done].
  - rewrite (node_missing k Hj). cbn [from_option id truthy].
    rewrite (updateAt_missing k _ fs Hj). exists h. done.
Qed.

(** [for (const s of schema.k) walkSchema(s, f)] *)
Lemma step_each k :
  assoc k fs ≠ None →
  (∀ j, assoc k fs = Some j → (jsize j < fuel)%nat) →
  simulates (xs ← getField h (VRef l) k; forOf fuel (walkSchema fuel stripAuthoring) xs h)
            (updateAt k (normalizeChild Each) fs) post.
Proof.
  intros Hsome Hsz. rewrite (SchemaFacts.getField_object h l ps k Hl).
  cbn [mbind outcome_bind].
  destruct (assoc k fs) as [j|] eqn:Hj; [|done].
  destruct (fields_focus h fs ps lo l k j Hc node_keys Hj)
    as (v & a & b & Hv & Ha & Hb & Ht & Hput).
  rewrite Hv. cbn [from_option id].
  rewrite (updateAt_found k _ fs j node_keys Hj). unfold normalizeChild.
  specialize (Hsz j eq_refl).
  destruct j as [|b0|n|s|js|pfs]; simpl in Ht.
  - destruct Ht as [-> _]. done.
  - destruct Ht as [-> _]. done.
  - destruct Ht as [-> _]. done.
  - destruct Ht as [-> Hab]. cbn [mbind outcome_bind forOf].
    exists h. split.
    + apply forEach_noop. intros x (c & ->)%chars_prim.
      apply walk_prim; [simpl in Hsz; lia|done..].
    + split; [|done]. apply Hput; [done|done].
  - destruct Ht as (la & vs & -> & Hla & Hlab & Hcs).
    cbn [forOf]. rewrite Hla.
    destruct (jsize_elems js) as [Hel Hlen].
    assert (Hn : (length js ≤ fuel)%nat) by lia.
    assert (Hels : Forall (λ x, (jsize x < fuel)%nat) js).
    { eapply Forall_impl; [exact Hel|]. intros x Hx. cbn beta in Hx. lia. }
    pose proof (forOfArray_trees la vs js vs h a 0 fuel Hla eq_refl Hcs Hn Hels) as Hr.
    unfold simulates in Hr |- *.
    destruct (normalizeEach js) as [js'|e|]; cbn [mbind outcome_bind]; [|done..].
    destruct Hr as (h' & -> & Hcs' & Hs'). exists h'. split; [done|].
    pose proof (chain_le _ _ _ _ _ (trees_le h js) Hcs) as Hala.
    split.
    + apply Hput.
      * apply tree_ref_arr with vs; [|done|done].
        destruct Hs' as [_ Hs']. rewrite Hs' by lia. done.
      * eapply sameOutside_widen; [exact Hs'|lia..].
    + eapply sameOutside_widen; [exact Hs'|lia..].
  - destruct Ht as (lc & pps & -> & Hlc & _). cbn [forOf]. by rewrite Hlc.
Qed.

(** The block for [properties] and [patternProperties]. *)
Lemma step_own k :
  (∀ j, assoc k fs = Some j → (jsize j < fuel)%nat) →
  simulates (walkOwn (walkSchema fuel stripAuthoring) k (VRef l) h)
            (updateAt k (normalizeChild Own) fs) post.
Proof.
  intros Hsz. unfold walkOwn.
  rewrite (SchemaFacts.getField_object h l ps k Hl). cbn [mbind outcome_bind].
  destruct (assoc k fs) as [j|] eqn:Hj.
  2:{ rewrite (node_missing k Hj). cbn [from_option id truthy].
      rewrite (updateAt_missing k _ fs Hj). exists h. done. }
  destruct (fields_focus h fs ps lo l k j Hc node_keys Hj)
    as (v & a & b & Hv & Ha & Hb & Ht & Hput).
  rewrite Hv. cbn [from_option id].
  rewrite (updateAt_found k _ fs j node_keys Hj). unfold normalizeChild.
  specialize (Hsz j eq_refl).
  assert (Hfuel : (1 ≤ fuel)%nat) by (pose proof (jsize_pos j); lia).
  assert (Hkeep : post (setAt k j fs) h).
  { split; [|done]. apply Hput; [done|done]. }
  assert (Hfield : ∀ h', sameOutside a b h h' → getField h' (VRef l) k = Ok v).
  { intros h' [_ Hs']. unfold getField. rewrite Hs' by lia. rewrite Hl. by rewrite Hv. }
  destruct j as [|b0|n|s|js|pfs]; simpl in Ht.
  - destruct Ht as [-> _]. cbn [truthy mbind outcome_bind]. exists h. done.
  - destruct Ht as [-> _]. cbn [mbind outcome_bind].
    destruct (truthy (VBool b0)); exists h; done.
  - destruct Ht as [-> _]. cbn [mbind outcome_bind].
    destruct (truthy (VNum n)); exists h; done.
  - destruct Ht as [-> Hab]. cbn [mbind outcome_bind].
    destruct (truthy (VStr s)); [|exists h; done].
    cbn [getOwnPropertyNames mbind outcome_bind].
    exists h. split; [|done]. apply forEach_noop. intros key Hkey.
    rewrite (Hfield h (sameOutside_refl _ _ _)). cbn [mbind outcome_bind getProp].
    destruct key as [k'|i|]; cbn [mbind outcome_bind].
    + apply elem_of_app in Hkey as [Hkey|Hkey].
      * by apply list_elem_of_fmap in Hkey as (i' & [=] & _).
      * by apply list_elem_of_singleton in Hkey.
    + destruct (chars s !! i) as [c|] eqn:Hi; cbn [from_option id].
      * apply list_elem_of_lookup_2, chars_prim in Hi as (c' & ->). by apply walk_prim.
      * apply elem_of_app in Hkey as [Hkey|Hkey].
        -- apply list_elem_of_fmap in Hkey as (i' & [= ->] & Hi').
           apply elem_of_seq in Hi'. apply lookup_ge_None in Hi.
           rewrite chars_length in Hi. lia.
        -- by apply list_elem_of_singleton in Hkey.
    + by apply walk_prim.
  - destruct Ht as (la & vs & -> & Hla & Hlab & Hcs). cbn [truthy].
    cbn [getOwnPropertyNames]. rewrite Hla. cbn [mbind outcome_bind].
    rewrite forEach_app. rewrite forEach_fmap.
    pose proof (chain_le _ _ _ _ _ (trees_le h js) Hcs) as Hala.
    destruct (jsize_elems js) as [Hel _].
    set (rds := map (λ (i : nat) (h : heap),
                       p' ← getField h (VRef l) k; getProp h p' (PIndex i))
                    (seq 0 (length vs))).
    assert (Hrds : Forall2 (λ rd y, ∀ h', sameOutside a la h h' → rd h' = Ok y) rds vs).
    { subst rds. apply Forall2_fmap_l.
      eapply Forall2_impl; [apply (Forall2_seq_lookup vs 0)|].
      intros i y Hi h' Hs'. cbn beta.
      rewrite (Hfield h') by (eapply sameOutside_widen; [exact Hs'|lia..]).
      cbn [mbind outcome_bind getProp].
      destruct Hs' as [_ Hs']. rewrite Hs' by lia. rewrite Hla.
      by rewrite (Hi vs eq_refl). }
    assert (Hels : Forall (λ x, (jsize x < fuel)%nat) js).
    { eapply Forall_impl; [exact Hel|]. intros x Hx. cbn beta in Hx. lia. }
    pose proof (forEach_trees js vs rds h a la Hcs Hrds Hels) as Hr.
    assert (Heq : ∀ h0,
      forEach (λ (x : nat) (h : heap),
                 p' ← getField h (VRef l) k;
                 s0 ← getProp h p' (PIndex x);
                 walkSchema fuel stripAuthoring s0 h) (seq 0 (length vs)) h0
      = forEach (λ rd h, v ← rd h; walkSchema fuel stripAuthoring v h) rds h0).
    { intros h0. subst rds. rewrite forEach_fmap. apply forEach_ext.
      intros i h1. by destruct (getField h1 (VRef l) k). }
    rewrite Heq. unfold simulates in Hr |- *.
    destruct (normalizeEach js) as [js'|e|]; cbn [mbind outcome_bind]; [|by rewrite Hr|done].
    destruct Hr as (h' & -> & Hcs' & Hs'). cbn [mbind outcome_bind forEach].
    rewrite (Hfield h') by (eapply sameOutside_widen; [exact Hs'|lia..]).
    cbn [mbind outcome_bind getProp].
    assert (Hla' : h' !! la = Some (Arr vs)).
    { destruct Hs' as [_ Hs']. rewrite Hs' by lia. done. }
    rewrite Hla'. cbn [mbind outcome_bind].
    rewrite walk_prim by done. cbn [mbind outcome_bind].
    exists h'. split; [done|]. split.
    + apply Hput.
      * by apply tree_ref_arr with vs.
      * eapply sameOutside_widen; [exact Hs'|lia..].
    + eapply sameOutside_widen; [exact Hs'|lia..].
  - destruct Ht as (lc & pps & -> & Hlc & Hlcb & Hndp & Hcs). cbn [truthy].
    cbn [getOwnPropertyNames]. rewrite Hlc. cbn [mbind outcome_bind].
    rewrite forEach_fmap.
    pose proof (chain_le _ _ _ _ _ (fields_le h pfs) Hcs) as Hala.
    set (rds := map (λ (p : string * val) (h : heap),
                       p' ← getField h (VRef l) k; getProp h p' (PName p.1)) pps).
    assert (Hrds : Forall2 (λ rd p, ∀ h', sameOutside a lc h h' → rd h' = Ok p.2) rds pps).
    { subst rds. apply Forall2_fmap_l. apply Forall2_same_length_lookup_2; [done|].
      intros i p p' Hp Hp'. rewrite Hp in Hp'. injection Hp' as <-.
      intros h' Hs'. cbn beta.
      rewrite (Hfield h') by (eapply sameOutside_widen; [exact Hs'|lia..]).
      cbn [mbind outcome_bind getProp].
      destruct Hs' as [_ Hs']. rewrite Hs' by lia. rewrite Hlc.
      destruct p as [pk pv]. cbn [fst snd].
      rewrite (assoc_NoDup_elem pps pk pv Hndp); [done|].
      by eapply list_elem_of_lookup_2. }
    assert (Hels : Forall (λ f : string * json, (jsize f.2 < fuel)%nat) pfs).
    { eapply Forall_impl; [apply (jsize_fields pfs)|]. intros x Hx. cbn beta in Hx. lia. }
    pose proof (forEach_fields pfs pps rds h a lc Hcs Hrds Hels) as Hr.
    assert (Heq : ∀ h0,
      forEach (λ (x : string * val) (h : heap),
                 p' ← getField h (VRef l) k;
                 s0 ← getProp h p' (PName x.1);
                 walkSchema fuel stripAuthoring s0 h) pps h0
      = forEach (λ rd h, v ← rd h; walkSchema fuel stripAuthoring v h) rds h0).
    { intros h0. subst rds. rewrite forEach_fmap. apply forEach_ext.
      intros i h1. by destruct (getField h1 (VRef l) k). }
    rewrite Heq. unfold simulates in Hr |- *.
    destruct (normalizeOwn pfs) as [pfs'|e|]; cbn [mbind outcome_bind]; [|by rewrite Hr|done].
    destruct Hr as (h' & -> & Hcs' & Hs').
    assert (Hlc' : h' !! lc = Some (Obj pps)).
    { destruct Hs' as [_ Hs']. rewrite Hs' by lia. done. }
    exists h'. split; [done|]. split.
    + apply Hput.
      * by apply tree_ref_obj with pps.
      * eapply sameOutside_widen; [exact Hs'|lia..].
    + eapply sameOutside_widen; [exact Hs'|lia..].
Qed.

End Node.

End Loops.


Lemma simulates_bind {X Y : Type} (op1 : outcome heap) (op2 : heap → outcome heap)
    (r1 : outcome X) (r2 : X → outcome Y) (post1 : X → heap → Prop)
    (post2 : Y → heap → Prop) :
  simulates op1 r1 post1 →
  (∀ x h', r1 = Ok x → post1 x h' → simulates (op2 h') (r2 x) post2) →
  simulates (h' ← op1; op2 h') (x ← r1; r2 x) post2.
Proof.
  unfold simulates. intros H1 H2.
  destruct r1 as [x|e|]; [|by rewrite H1|done].
  destruct H1 as (h' & -> & Hp). cbn [mbind outcome_bind]. by apply H2.
Qed.

Lemma simulates_post {X : Type} (op : outcome heap) (r : outcome X)
    (post post' : X → heap → Prop) :
  simulates op r post → (∀ x h', post x h' → post' x h') → simulates op r post'.
Proof.
  unfold simulates. intros H Hpp. destruct r; [|done..].
  destruct H as (h' & -> & Hp). eauto.
Qed.

Lemma assoc_Some_in {A : Type} (ps : list (string * A)) k v :
  assoc k ps = Some v → (k, v) ∈ ps.
Proof.
  induction ps as [|[k0 v0] r IH]; simpl; [done|].
  destruct (String.eqb k k0) eqn:E.
  - apply String.eqb_eq in E as ->. intros [= ->]. by left.
  - intros H. right. auto.
Qed.

Lemma filterBy_subset {A : Type} (f : string → A → bool) ps x :
  x ∈ filterBy f ps → x ∈ ps.
Proof.
  induction ps as [|[k v] r IH]; simpl; [done|].
  destruct (f k v).
  - intros [->|H]%elem_of_cons; [by left|right; auto].
  - intros H. right. auto.
Qed.

Lemma jsize_in (fs : list (string * json)) k j :
  (k, j) ∈ fs → (jsize j < jsize (JObj fs))%nat.
Proof.
  intros Hin. pose proof (jsize_fields fs) as HF. rewrite Forall_forall in HF.
  apply (HF _ Hin).
Qed.

Lemma mapFields_assoc_ne (g : string → json → outcome json) fs fs' k :
  mapFields g fs = Ok fs' → (∀ v, g k v = Ok v) → assoc k fs' = assoc k fs.
Proof.
  revert fs'. induction fs as [|[k0 v0] r IH]; intros fs'; simpl.
  - by intros [= <-].
  - destruct (g k0 v0) as [v'| |] eqn:Eg; simpl; [|done..].
    destruct (mapFields g r) as [r'| |]; simpl; [|done..].
    intros [= <-] Hk. simpl. destruct (String.eqb k k0) eqn:E.
    + apply String.eqb_eq in E as ->. rewrite Hk in Eg. by injection Eg as ->.
    + by apply IH.
Qed.

Lemma updateAt_assoc_ne k1 g fs fs' k :
  updateAt k1 g fs = Ok fs' → k ≠ k1 → assoc k fs' = assoc k fs.
Proof.
  intros Hu Hne. eapply mapFields_assoc_ne; [exact Hu|].
  intros v. cbn beta. by rewrite (proj2 (String.eqb_neq k k1) Hne).
Qed.

Lemma schemaTypeJ_strip fs : schemaTypeJ (stripFields truthyJ fs) = schemaTypeJ fs.
Proof.
  unfold schemaTypeJ. by rewrite !stripFields_assoc by done.
Qed.

Lemma shallow_JStr s t : shallow (JStr s) t → t = VStr s.
Proof. destruct t; simpl; try done. by intros ->. Qed.

Lemma shallow_not_str tJ t s :
  shallow tJ t → (∀ s', tJ ≠ JStr s') → t ≠ VStr s.
Proof. destruct tJ, t; simpl; try done. intros -> H. by destruct (H s1). Qed.

(** The walk of [normalizeSchema] over a tree in the store computes
    [normalizeJson], in place, and stays inside the tree. *)
Theorem walkSchema_walks : ∀ fuel j h v lo hi,
  tree h j v lo hi → (jsize j < fuel)%nat → walks fuel j h v lo hi.
Proof.
  induction fuel as [|fuel IH]; intros j h v lo hi Ht Hsz; [lia|].
  unfold walks.
  destruct j as [|b|n|s|js|fs].
  - destruct Ht as [-> _]. done.
  - destruct Ht as [-> ?]. exists h. rewrite walkSchema_other by done. done.
  - destruct Ht as [-> ?]. exists h. rewrite walkSchema_other by done. done.
  - destruct Ht as [-> ?]. exists h. rewrite walkSchema_other by done. done.
  - pose proof Ht as (la & vs & -> & Hla & Hlt & Hc). exists h.
    rewrite walkSchema_other; [done| |done|done].
    intros l' [= <-]. eauto.
  - destruct Ht as (l & ps & -> & Hl & Hlt & Hnd & Hc).
    pose proof (chain_le _ _ _ _ _ (fields_le h fs) Hc) as Hlol.
    assert (Hlen : (l < length h)%nat) by (by eapply lookup_lt_Some).
    set (ps1 := stripFields truthy ps). set (fs1 := stripFields truthyJ fs).
    set (h1 := <[l := Obj ps1]> h).
    assert (Hl1 : h1 !! l = Some (Obj ps1)) by (by apply list_lookup_insert_eq).
    assert (Hnd1 : NoDup (map fst ps1)) by (by apply filterBy_NoDup).
    assert (Hc1 : chain (field h1) fs1 ps1 lo l).
    { eapply fields_frame; [apply fields_strip; exact Hc|].
      intros l' Hl'. apply list_lookup_insert_ne. lia. }
    assert (Hs1 : sameOutside lo hi h h1) by (apply sameOutside_insert; lia).
    destruct (schemaType_node h1 l fs1 ps1 lo Hl1 Hc1) as (t & Htype & Hsh).
    unfold fs1 in Hsh. rewrite schemaTypeJ_strip in Hsh.
    rewrite normalizeJson_obj. rewrite normalizeFields_mapFields. fold fs1.
    cbn [walkSchema]. rewrite (stripAuthoring_node h l ps Hl Hnd). fold ps1 h1.
    cbn [mbind outcome_bind]. rewrite Htype. cbn [mbind outcome_bind].
    assert (Hsize : ∀ k j, assoc k fs1 = Some j → (jsize j < fuel)%nat).
    { intros k j Hj. apply assoc_Some_in, filterBy_subset, jsize_in in Hj. lia. }
    set (post1 := λ (fs' : list (string * json)) (h' : heap),
                    chain (field h') fs' ps1 lo l ∧ sameOutside lo l h1 h').
    set (post := λ (j' : json) (h' : heap),
                   tree h' j' (VRef l) lo hi ∧ sameOutside lo hi h h').
    assert (Hfin : ∀ op r, simulates op r post1 →
                           simulates op (fs' ← r; Ok (JObj fs')) post).
    { intros op r Hsim. unfold simulates in *.
      destruct r as [fs'|e|]; cbn [mbind outcome_bind]; [|done..].
      destruct Hsim as (h' & -> & Hc' & Hs'). exists h'. split; [done|]. split.
      - apply tree_ref_obj with ps1; [|done|done|done].
        destruct Hs' as [_ Hs']. rewrite Hs' by lia. done.
      - eapply sameOutside_trans; [exact Hs1|exact Hs'|lia..]. }
    assert (Hskip : ∀ tJ, (∀ k, kindOf tJ k = Skip) → lacksIterable tJ fs = false →
      simulates (Ok h1)
        (if lacksIterable tJ fs then Throw TypeError
         else fs' ← mapFields (λ k v, normalizeChild (kindOf tJ k) v) fs1; Ok (JObj fs'))
        post).
    { intros tJ Hk ->. apply Hfin.
      rewrite (mapFields_ext _ (λ _ v, Ok v)) by (intros k v; by rewrite Hk).
      rewrite mapFields_id. exists h1. done. }
    assert (Hcomb : ∀ kw, kw = "anyOf" ∨ kw = "oneOf" ∨ kw = "allOf" →
      simulates (xs ← getField h1 (VRef l) kw;
                 forOf fuel (walkSchema fuel stripAuthoring) xs h1)
        (if lacksIterable (JStr kw) fs then Throw TypeError
         else fs' ← mapFields (λ k v, normalizeChild (kindOf (JStr kw) k) v) fs1;
              Ok (JObj fs'))
        post).
    { intros kw Hkw.
      assert (Hauth : isAuthoring kw = false) by (by destruct Hkw as [->|[->| ->]]).
      assert (Hlack : lacksIterable (JStr kw) fs = bool_decide (assoc kw fs = None))
        by (by destruct Hkw as [->|[->| ->]]).
      assert (Hkind : ∀ k v, normalizeChild (kindOf (JStr kw) k) v
                = if String.eqb k kw then normalizeChild Each v else Ok v).
      { intros k v. destruct Hkw as [->|[->| ->]]; unfold kindOf; cbn [isStr];
          change (String.eqb "anyOf" "array") with false;
          change (String.eqb "oneOf" "array") with false;
          change (String.eqb "allOf" "array") with false;
          change (String.eqb "anyOf" "anyOf") with true;
          change (String.eqb "oneOf" "anyOf") with false;
          change (String.eqb "oneOf" "oneOf") with true;
          change (String.eqb "allOf" "anyOf") with false;
          change (String.eqb "allOf" "oneOf") with false;
          change (String.eqb "allOf" "allOf") with true;
          cbv iota; by destruct (String.eqb k _). }
      rewrite Hlack. rewrite (mapFields_ext _ _ fs1 Hkind).
      pose proof (stripFields_assoc truthyJ fs kw Hauth) as Hassoc. fold fs1 in Hassoc.
      destruct (assoc kw fs) as [j|] eqn:Hj.
      - rewrite bool_decide_eq_false_2 by done. apply Hfin.
        apply (step_each fuel IH h1 l ps1 fs1 lo Hl1 Hnd1 Hc1 kw).
        + by rewrite Hassoc.
        + intros j' Hj'. by eapply Hsize.
      - rewrite bool_decide_eq_true_2 by done. unfold simulates.
        rewrite (SchemaFacts.getField_object h1 l ps1 kw Hl1).
        rewrite (node_missing h1 l ps1 fs1 lo Hc1 kw Hassoc). done. }
    assert (Hneq : ∀ s s', s ≠ s' → VStr s ≠ VStr s') by (intros ? ? ? [=]; done).
    destruct (schemaTypeJ fs) as [|b|n|s|js|pfs] eqn:HtJ.
    1-3,5-6: destruct t; try done;
      repeat (rewrite decide_False by discriminate); by apply Hskip.
    apply shallow_JStr in Hsh as ->.
    destruct (decide (s = "array")) as [->|Hn1].
    { rewrite decide_True by done. change (lacksIterable (JStr "array") fs) with false.
      cbv iota. apply Hfin.
      rewrite (mapFields_ext _ (λ k' v, if String.eqb k' "items"
                                        then normalizeChild Single v else Ok v)).
      2:{ intros k v. unfold kindOf. cbn [isStr].
          change (String.eqb "array" "array") with true. cbv iota.
          by destruct (String.eqb k "items"). }
      apply (step_single fuel IH h1 l ps1 fs1 lo Hl1 Hnd1 Hc1 "items").
      intros j Hj. by eapply Hsize. }
    rewrite decide_False by (by apply Hneq).
    destruct (decide (s = "anyOf")) as [->|Hn2].
    { rewrite decide_True by done. apply Hcomb. auto. }
    rewrite decide_False by (by apply Hneq).
    destruct (decide (s = "oneOf")) as [->|Hn3].
    { rewrite decide_True by done. apply Hcomb. auto. }
    rewrite decide_False by (by apply Hneq).
    destruct (decide (s = "allOf")) as [->|Hn4].
    { rewrite decide_True by done. apply Hcomb. auto. }
    rewrite decide_False by (by apply Hneq).
    destruct (decide (s = "object")) as [->|Hn5].
    2:{ rewrite decide_False by (by apply Hneq). apply Hskip.
        - intros k. unfold kindOf. cbn [isStr].
          by rewrite !(proj2 (String.eqb_neq _ _)) by done.
        - unfold lacksIterable. by rewrite !(proj2 (String.eqb_neq _ _)) by done. }
    rewrite decide_True by done. change (lacksIterable (JStr "object") fs) with false.
    cbv iota. apply Hfin.
    set (G2 := λ (k : string) (v : json),
                 if String.eqb k "additionalProperties" then normalizeChild Single v
                 else Ok v).
    set (G1 := λ (k : string) (v : json),
                 if String.eqb k "patternProperties" then normalizeChild Own v
                 else G2 k v).
    rewrite (mapFields_ext _ (λ k v, if String.eqb k "properties"
                                     then normalizeChild Own v else G1 k v)).
    2:{ intros k v. unfold kindOf, G1, G2. cbn [isStr].
        change (String.eqb "object" "array") with false.
        change (String.eqb "object" "anyOf") with false.
        change (String.eqb "object" "oneOf") with false.
        change (String.eqb "object" "allOf") with false.
        change (String.eqb "object" "object") with true. cbv iota.
        destruct (String.eqb k "properties") eqn:E1; [done|].
        destruct (String.eqb k "patternProperties") eqn:E2; [done|].
        by destruct (String.eqb k "additionalProperties"). }
    assert (HG2 : ∀ k v, tame (G2 k v)).
    { intros k v. unfold G2. destruct (String.eqb _ _); [apply normalizeChild_tame|done]. }
    assert (HG1 : ∀ k v, tame (G1 k v)).
    { intros k v. unfold G1. destruct (String.eqb _ _); [apply normalizeChild_tame|done]. }
    rewrite (mapFields_seq "properties" (normalizeChild Own) G1);
      [|done|intros; apply normalizeChild_tame|done].
    eapply simulates_bind.
    { apply (step_own fuel IH h1 l ps1 fs1 lo Hl1 Hnd1 Hc1 "properties").
      intros j Hj. by eapply Hsize. }
    intros fs2 h2 Hu2 [Hc2 Hs2].
    assert (Hl2 : h2 !! l = Some (Obj ps1)).
    { destruct Hs2 as [_ Hs2]. rewrite Hs2 by lia. done. }
    unfold G1 at 1.
    rewrite (mapFields_seq "patternProperties" (normalizeChild Own) G2);
      [|done|intros; apply normalizeChild_tame|done].
    eapply simulates_bind.
    { apply (step_own fuel IH h2 l ps1 fs2 lo Hl2 Hnd1 Hc2 "patternProperties").
      intros j Hj. apply (Hsize "patternProperties").
      by rewrite <- (updateAt_assoc_ne _ _ _ _ "patternProperties" Hu2). }
    intros fs3 h3 Hu3 [Hc3 Hs3].
    assert (Hl3 : h3 !! l = Some (Obj ps1)).
    { destruct Hs3 as [_ Hs3]. rewrite Hs3 by lia. done. }
    eapply simulates_post.
    { apply (step_single fuel IH h3 l ps1 fs3 lo Hl3 Hnd1 Hc3 "additionalProperties").
      intros j Hj. apply (Hsize "additionalProperties").
      rewrite <- (updateAt_assoc_ne _ _ _ _ "additionalProperties" Hu2) by done.
      by rewrite <- (updateAt_assoc_ne _ _ _ _ "additionalProperties" Hu3). }
    intros fs4 h4 [Hc4 Hs4]. split; [done|].
    assert (Hs34 : sameOutside lo l h2 h4)
      by (eapply sameOutside_trans; [exact Hs3|exact Hs4|lia..]).
    eapply sameOutside_trans; [exact Hs2|exact Hs34|lia..].
Qed.

(** *** [JSON.parse] builds a tree *)

Lemma parse_arr js h :
  parse (JArr js) h =
    let '(vs, h1) := parseList js h in (VRef (length h1), h1 ++ [Arr vs]).
Proof. reflexivity. Qed.

Lemma parse_obj fs h :
  parse (JObj fs) h =
    let '(ps, h1) := parseFields fs h in (VRef (length h1), h1 ++ [Obj ps]).
Proof. reflexivity. Qed.

Lemma parseList_trees js :
  Forall parsesTo js → forallb uniqueKeys js = true →
  ∀ h vs h', parseList js h = (vs, h') →
    (∃ ext, h' = h ++ ext) ∧ chain (tree h') js vs (length h) (length h').
Proof.
  induction 1 as [|x xs Hx _ IH]; intros Hu h vs h'; simpl.
  - intros [= <- <-]. split; [exists []; by rewrite app_nil_r|done].
  - simpl in Hu. apply andb_true_iff in Hu as [Hux Huxs].
    destruct (parse x h) as [v h1] eqn:Hp.
    destruct (parseList xs h1) as [vs' h2] eqn:Hps.
    intros [= <- <-].
    destruct (Hx Hux h v h1 Hp) as [[e1 ->] Ht].
    destruct (IH Huxs _ _ _ Hps) as [[e2 ->] Hc].
    split; [exists (e1 ++ e2); by rewrite app_assoc|].
    exists (length (h ++ e1)). split; [|done].
    eapply tree_frame; [exact Ht|]. intros l Hl.
    apply lookup_app_l. lia.
Qed.

Lemma parseFields_trees (fs : list (string * json)) :
  Forall (λ f, parsesTo f.2) fs → forallb (λ f, uniqueKeys f.2) fs = true →
  ∀ h ps h', parseFields fs h = (ps, h') →
    (∃ ext, h' = h ++ ext) ∧ map fst ps = map fst fs ∧
    chain (field h') fs ps (length h) (length h').
Proof.
  induction 1 as [|[k x] xs Hx _ IH]; intros Hu h ps h'; simpl.
  - intros [= <- <-]. split; [exists []; by rewrite app_nil_r|done].
  - simpl in Hu. apply andb_true_iff in Hu as [Hux Huxs].
    destruct (parse x h) as [v h1] eqn:Hp.
    destruct (parseFields xs h1) as [ps' h2] eqn:Hps.
    intros [= <- <-]. simpl in Hx.
    destruct (Hx Hux h v h1 Hp) as [[e1 ->] Ht].
    destruct (IH Huxs _ _ _ Hps) as ([e2 ->] & Hk & Hc).
    split; [exists (e1 ++ e2); by rewrite app_assoc|].
    split; [simpl; by rewrite Hk|].
    exists (length (h ++ e1)). split; [|done]. split; [done|]. simpl.
    eapply tree_frame; [exact Ht|]. intros l Hl.
    apply lookup_app_l. lia.
Qed.

Lemma parse_tree j : parsesTo j.
Proof.
  induction j as [| | | |js IH|fs IH] using json_induction; intros Hu h v h'.
  1-4: simpl; intros [= <- <-]; split; [exists []; by rewrite app_nil_r|done].
  - rewrite parse_arr. destruct (parseList js h) as [vs h1] eqn:Hp. intros [= <- <-].
    simpl in Hu. destruct (parseList_trees js IH Hu h vs h1 Hp) as [[e ->] Hc].
    split; [exists (e ++ [Arr vs]); by rewrite app_assoc|].
    apply tree_ref_arr with vs.
    + by apply list_lookup_middle.
    + rewrite !length_app. simpl. lia.
    + eapply trees_frame; [exact Hc|]. intros l Hl. apply lookup_app_l. lia.
  - rewrite parse_obj. destruct (parseFields fs h) as [ps h1] eqn:Hp. intros [= <- <-].
    simpl in Hu. apply andb_true_iff in Hu as [Hnd Hu].
    apply bool_decide_eq_true in Hnd.
    destruct (parseFields_trees fs IH Hu h ps h1 Hp) as ([e ->] & Hk & Hc).
    split; [exists (e ++ [Obj ps]); by rewrite app_assoc|].
    apply tree_ref_obj with ps.
    + by apply list_lookup_middle.
    + rewrite !length_app. simpl. lia.
    + by rewrite Hk.
    + eapply fields_frame; [exact Hc|]. intros l Hl. apply lookup_app_l. lia.
Qed.

(** *** [JSON.stringify] reads a tree back *)

Lemma mapM_cons_outcome {A B : Type} (f : A → outcome B) x xs :
  mapM f (x :: xs) = y ← f x; k ← mapM f xs; Ok (y :: k).
Proof. reflexivity. Qed.

Lemma stringify_ref fuel stack h l :
  l ∉ stack →
  stringify (S fuel) stack h (VRef l) =
    match h !! l with
    | Some (Arr vs) =>
        js ← mapM (λ v, o ← stringify fuel (l :: stack) h v; Ok (default JNull o)) vs;
        Ok (Some (JArr js))
    | Some (Obj props) =>
        fs ← mapM (λ p : string * val,
                     o ← stringify fuel (l :: stack) h p.2;
                     Ok (option_map (pair p.1) o)) props;
        Ok (Some (JObj (omap id fs)))
    | None => Throw (InternalError "dangling reference")
    end.
Proof. intros Hl. cbn [stringify]. by rewrite decide_False. Qed.

Lemma omap_id_Some {A : Type} (xs : list A) : omap id (map Some xs) = xs.
Proof. induction xs as [|x xs IH]; [done|]. cbn. by f_equal. Qed.

Theorem tree_stringify : ∀ fuel j h v lo hi stack,
  tree h j v lo hi → (jsize j ≤ fuel)%nat →
  (∀ l, l ∈ stack → ¬ (lo ≤ l < hi)%nat) →
  stringify fuel stack h v = Ok (Some j).
Proof.
  induction fuel as [|fuel IH]; intros j h v lo hi stack Ht Hsz Hstack.
  { pose proof (jsize_pos j). lia. }
  destruct j as [|b|n|s|js|fs].
  1-4: by destruct Ht as [-> _].
  - destruct Ht as (la & vs & -> & Hla & Hlt & Hc).
    pose proof (chain_le _ _ _ _ _ (trees_le h js) Hc) as Hlo.
    rewrite stringify_ref by (intros Hin; apply (Hstack la Hin); lia).
    rewrite Hla.
    assert (Hm : mapM (λ v, o ← stringify fuel (la :: stack) h v; Ok (default JNull o)) vs
                 = Ok js).
    { destruct (jsize_elems js) as [Hel _].
      assert (Hels : Forall (λ x, (jsize x ≤ fuel)%nat) js).
      { eapply Forall_impl; [exact Hel|]. intros x Hx. cbn beta in Hx. lia. }
      clear Hla Hel Hsz. revert vs lo Hc Hstack Hlo.
      induction Hels as [|x xs Hx _ IHxs]; intros [|y ys] lo Hc Hstack Hlo;
        simpl in Hc; try done.
      destruct Hc as (m & Ht & Hc). rewrite mapM_cons_outcome.
      pose proof (tree_le _ _ _ _ _ Ht) as Hm.
      pose proof (chain_le _ _ _ _ _ (trees_le h xs) Hc) as Hmla.
      rewrite (IH x h y lo m (la :: stack) Ht Hx).
      2:{ intros l' [->|Hin]%elem_of_cons; [lia|]. intros ?. apply (Hstack l' Hin). lia. }
      cbn [mbind outcome_bind default from_option id].
      rewrite (IHxs ys m Hc); [done| |done].
      intros l' Hin ?. apply (Hstack l' Hin). lia. }
    rewrite Hm. done.
  - destruct Ht as (lc & ps & -> & Hlc & Hlt & Hnd & Hc).
    pose proof (chain_le _ _ _ _ _ (fields_le h fs) Hc) as Hlo.
    rewrite stringify_ref by (intros Hin; apply (Hstack lc Hin); lia).
    rewrite Hlc.
    assert (Hm : mapM (λ p : string * val,
                         o ← stringify fuel (lc :: stack) h p.2;
                         Ok (option_map (pair p.1) o)) ps
                 = Ok (map Some fs)).
    { pose proof (jsize_fields fs) as Hel.
      assert (Hels : Forall (λ f : string * json, (jsize f.2 ≤ fuel)%nat) fs).
      { eapply Forall_impl; [exact Hel|]. intros x Hx. cbn beta in Hx. lia. }
      clear Hlc Hel Hsz Hnd. revert ps lo Hc Hstack Hlo.
      induction Hels as [|[k x] xs Hx _ IHxs]; intros [|[k' y] ys] lo Hc Hstack Hlo;
        simpl in Hc; try done.
      destruct Hc as (m & [Hk Ht] & Hc). simpl in Hk, Ht, Hx. subst k'.
      rewrite mapM_cons_outcome.
      pose proof (tree_le _ _ _ _ _ Ht) as Hm.
      pose proof (chain_le _ _ _ _ _ (fields_le h xs) Hc) as Hmla.
      cbn [fst snd].
      rewrite (IH x h y lo m (lc :: stack) Ht Hx).
      2:{ intros l' [->|Hin]%elem_of_cons; [lia|]. intros ?. apply (Hstack l' Hin). lia. }
      cbn [mbind outcome_bind option_map].
      rewrite (IHxs ys m Hc); [done| |done].
      intros l' Hin ?. apply (Hstack l' Hin). lia. }
    rewrite Hm. cbn [mbind outcome_bind]. by rewrite omap_id_Some.
Qed.

Lemma mapM_outcome_impl {A B : Type} (f g : A → outcome B) xs r :
  mapM f xs = Ok r → (∀ x y, x ∈ xs → f x = Ok y → g x = Ok y) → mapM g xs = Ok r.
Proof.
  revert r. induction xs as [|x xs IH]; intros r; [done|].
  rewrite !mapM_cons_outcome.
  destruct (f x) as [y| |] eqn:Hf; cbn [mbind outcome_bind]; [|done..].
  destruct (mapM f xs) as [k| |] eqn:Hm; cbn [mbind outcome_bind]; [|done..].
  intros [= <-] Himpl. rewrite (Himpl x y) by (by left || done).
  cbn [mbind outcome_bind]. rewrite (IH k eq_refl); [done|].
  intros x' y' Hin. apply Himpl. by right.
Qed.

(** Serialising a value is not affected by cells added to the store. *)
Lemma stringify_extend ext : ∀ fuel stack h v r,
  stringify fuel stack h v = Ok r → stringify fuel stack (h ++ ext) v = Ok r.
Proof.
  induction fuel as [|fuel IH]; intros stack h v r; destruct v as [| | | | |l]; try done.
  destruct (decide (l ∈ stack)) as [Hin|Hin].
  { cbn [stringify]. rewrite !decide_True by done. intros; discriminate. }
  rewrite !stringify_ref by done.
  destruct (h !! l) as [[props|vs]|] eqn:Hl; [| |done].
  - rewrite (lookup_app_l_Some _ _ _ _ Hl).
    destruct (mapM _ props) as [fs| |] eqn:Hm; cbn [mbind outcome_bind]; [|done..].
    intros [= <-].
    erewrite mapM_outcome_impl; [done|exact Hm|].
    intros p y _. cbn beta.
    destruct (stringify fuel (l :: stack) h p.2) as [o| |] eqn:Hs;
      cbn [mbind outcome_bind]; [|done..].
    by rewrite (IH _ _ _ _ Hs).
  - rewrite (lookup_app_l_Some _ _ _ _ Hl).
    destruct (mapM _ vs) as [js| |] eqn:Hm; cbn [mbind outcome_bind]; [|done..].
    intros [= <-].
    erewrite mapM_outcome_impl; [done|exact Hm|].
    intros p y _. cbn beta.
    destruct (stringify fuel (l :: stack) h p) as [o| |] eqn:Hs;
      cbn [mbind outcome_bind]; [|done..].
    by rewrite (IH _ _ _ _ Hs).
Qed.

(** *** The result of [normalizeSchema] *)

Lemma sameOutside_extends h ext h2 :
  sameOutside (length h) (length (h ++ ext)) (h ++ ext) h2 → ∃ ext', h2 = h ++ ext'.
Proof.
  intros [Hlen Hsame]. exists (drop (length h) h2).
  rewrite <- (take_drop (length h) h2) at 1. f_equal.
  apply list_eq. intros i.
  destruct (decide (i < length h)%nat) as [Hi|Hi].
  - rewrite lookup_take_lt by done. rewrite Hsame by lia. by apply lookup_app_l.
  - rewrite lookup_take_ge by lia. symmetry. apply lookup_ge_None. lia.
Qed.

Lemma kindOf_authoring t k : isAuthoring k = true → kindOf t k = Skip.
Proof.
  unfold isAuthoring, authoringFields. cbn [existsb]. rewrite !orb_true_iff.
  intros [H | [H | [H | [H | H]]]]; [| | | |done]; apply String.eqb_eq in H as ->.
  all: unfold kindOf; repeat (destruct (isStr t _)); reflexivity.
Qed.

Lemma normalizeFields_authoring t fs : ∀ fs',
  normalizeFields t fs = Ok fs' →
  ∀ k v, (k, v) ∈ fs' → isAuthoring k = true → truthyJ v = false.
Proof.
  induction fs as [|[k0 v0] r IH]; intros fs'; cbn [normalizeFields].
  { intros [= <-] k v Hin. by apply elem_of_nil in Hin. }
  destruct (isAuthoring k0 && truthyJ v0) eqn:Hd; [by apply IH|].
  destruct (normalizeChild (kindOf t k0) v0) as [v'| |] eqn:Hv; cbn [mbind outcome_bind]; [|done..].
  destruct (normalizeFields t r) as [r'| |]; cbn [mbind outcome_bind]; [|done..].
  intros [= <-] k v [[= -> ->]|Hin]%elem_of_cons Hk; [|by eapply IH].
  rewrite (kindOf_authoring t k0 Hk) in Hv. cbn [normalizeChild] in Hv.
  injection Hv as <-. rewrite Hk in Hd. exact Hd.
Qed.

Lemma isAuthoring_elem k : k ∈ authoringFields → isAuthoring k = true.
Proof.
  unfold authoringFields. rewrite !elem_of_cons.
  intros [-> | [-> | [-> | [-> | H]]]]; [done..|]. by apply elem_of_nil in H.
Qed.

(** At the root of a tree left by the walk no authoring field reads as
    truthy. *)
Lemma normalized_root h j j' v lo hi :
  normalizeJson j = Ok j' → tree h j' v lo hi →
  ∀ k, k ∈ authoringFields → ¬ hasField h v k.
Proof.
  intros Hn Ht k Hk (x & Hget & Htr).
  destruct j as [|b|n|s|js|fs].
  - done.
  - injection Hn as <-. destruct Ht as [-> _]. by injection Hget as <-.
  - injection Hn as <-. destruct Ht as [-> _]. by injection Hget as <-.
  - injection Hn as <-. destruct Ht as [-> _]. by injection Hget as <-.
  - injection Hn as <-. apply tree_arr in Ht as (l & vs & -> & Hl & _).
    cbn [getField] in Hget. rewrite Hl in Hget. by injection Hget as <-.
  - rewrite normalizeJson_obj in Hn.
    destruct (lacksIterable _ fs); [done|].
    destruct (normalizeFields _ fs) as [fs'| |] eqn:Hf; cbn [mbind outcome_bind] in Hn; [|done..].
    injection Hn as <-. apply tree_obj in Ht as (l & ps & -> & Hl & _ & _ & Hc).
    rewrite (SchemaFacts.getField_object h l ps k Hl) in Hget. injection Hget as <-.
    rewrite (fields_truthy h fs' ps lo l k Hc) in Htr.
    destruct (assoc k fs') as [t|] eqn:Ha; [|done].
    apply assoc_Some_in in Ha.
    rewrite (normalizeFields_authoring _ fs fs' Hf k t Ha (isAuthoring_elem k Hk)) in Htr.
    done.
Qed.

(** X23.  [normalizeSchema] refines [normalizeJson].  When the schema
    serialises to the tree [j] (no object naming a property twice) and the
    fuel exceeds the size of [j], the call ends as [normalizeJson j] does.
    If that is a tree [j'], the call returns a value [result] in a store
    that only extends the given one, so that every cell of the input is
    unchanged and the schema still serialises to [j]; [result] is the root
    of a copy of [j'] made of fresh cells only; no authoring field of
    [result] reads as truthy; and [result] serialises to [j'].  If
    [normalizeJson j] throws, the call throws a [TypeError]. *)
Theorem normalizeSchema_refines fuel h schema j :
  stringify fuel [] h schema = Ok (Some j) →
  uniqueKeys j = true →
  (jsize j < fuel)%nat →
  match normalizeJson j with
  | Ok j' =>
      ∃ result h',
        normalizeSchema fuel schema h = Ok (result, h') ∧
        (∃ ext, h' = h ++ ext) ∧
        tree h' j' result (length h) (length h') ∧
        (∀ k, k ∈ authoringFields → ¬ hasField h' result k) ∧
        (∀ fuel', (jsize j' ≤ fuel')%nat → stringify fuel' [] h' result = Ok (Some j')) ∧
        stringify fuel [] h' schema = Ok (Some j)
  | Throw _ => normalizeSchema fuel schema h = Throw TypeError
  | OutOfFuel => False
  end.
Proof.
  intros Hs Hu Hsz. unfold normalizeSchema. rewrite Hs. cbn [mbind outcome_bind].
  destruct (parse j h) as [result h1] eqn:Hp.
  destruct (parse_tree j Hu h result h1 Hp) as [[ext1 ->] Ht].
  pose proof (walkSchema_walks fuel j (h ++ ext1) result (length h)
                (length (h ++ ext1)) Ht Hsz) as Hw.
  unfold walks, simulates in Hw.
  destruct (normalizeJson j) as [j'|e|] eqn:Hn; [|by rewrite Hw|done].
  destruct Hw as (h2 & -> & Ht2 & Hsame).
  cbn [mbind outcome_bind].
  destruct (sameOutside_extends h ext1 h2 Hsame) as [ext2 ->].
  destruct Hsame as [Hlen _]. rewrite <- Hlen in Ht2.
  exists result, (h ++ ext2). split_and!.
  - done.
  - by exists ext2.
  - done.
  - by apply (normalized_root _ j j' _ _ _ Hn Ht2).
  - intros fuel' Hf. apply (tree_stringify fuel' j' _ _ _ _ [] Ht2 Hf).
    intros l Hl. by apply elem_of_nil in Hl.
  - by apply stringify_extend.
Qed.

(** C7.  [normalizeSchema] does not remove every authoring-only field.
    For the schema [{type: "string", exhaustiveCompletions: false}] the
    call returns a fresh copy and leaves the input as it was, but the
    copy still carries [exhaustiveCompletions]: line 181 tests the value
    of the field, not its presence, before it deletes it. *)
Theorem normalizeSchema_keeps_falsy_field :
  normalizeSchema 3 (VRef 0) flagged =
    Ok (VRef 1,
        flagged ++ [Obj [("type", VStr "string"); ("exhaustiveCompletions", VBool false)]]) ∧
  hasOwn (flagged ++ [Obj [("type", VStr "string"); ("exhaustiveCompletions", VBool false)]])
         (VRef 1) "exhaustiveCompletions" = true ∧
  ¬ authoringRemoved 3 (VRef 0) flagged.
Proof.
  split_and!; [reflexivity..|].
  intros H.
  specialize (H (VRef 1)
                (flagged ++ [Obj [("type", VStr "string");
                                  ("exhaustiveCompletions", VBool false)]])
                eq_refl "exhaustiveCompletions").
  assert (Hin : "exhaustiveCompletions" ∈ authoringFields)
    by (unfold authoringFields; repeat constructor).
  specialize (H Hin). vm_compute in H. discriminate.
Qed.

Lemma normalizeSchema_refines_witness :
  stringify 12 [] documentedStore documentedRoot = Ok (Some documented) ∧
  uniqueKeys documented = true ∧
  (jsize documented < 12)%nat ∧
  ∃ result h',
    normalizeSchema 12 documentedRoot documentedStore = Ok (result, h') ∧
    (∃ ext, h' = documentedStore ++ ext) ∧
    tree h'
      (JObj [("type", JStr "object");
             ("properties",
               JObj [("echo", JObj [("type", JStr "boolean");
                                    ("exhaustiveCompletions", JBool false)])])])
      result (length documentedStore) (length h') ∧
    (∀ k, k ∈ authoringFields → ¬ hasField h' result k) ∧
    (∀ fuel', (jsize
                 (JObj [("type", JStr "object");
                        ("properties",
                          JObj [("echo", JObj [("type", JStr "boolean");
                                               ("exhaustiveCompletions", JBool false)])])])
               ≤ fuel')%nat →
       stringify fuel' [] h' result =
         Ok (Some (JObj [("type", JStr "object");
                         ("properties",
                           JObj [("echo", JObj [("type", JStr "boolean");
                                                ("exhaustiveCompletions", JBool false)])])]))) ∧
    stringify 12 [] h' documentedRoot = Ok (Some documented).
Proof.
  split_and!; [reflexivity | reflexivity | vm_compute; lia |].
  apply (normalizeSchema_refines 12 documentedStore documentedRoot documented);
    [reflexivity | reflexivity | vm_compute; lia].
Defined.

End NormalizeFacts.

Module RegistryFacts.
Import Schema Registry Samples.

Lemma readSlot_insert d key schema :
  readSlot (<[key := schema]> d) key = Own schema.
Proof. unfold readSlot. by rewrite lookup_insert_eq. Qed.

Lemma getField_defined h schema k v : getField h schema k = Ok v → schema ≠ VUndefined.
Proof. by destruct schema. Qed.

(** A registered key makes [setSchemaDefinition] a no-op. *)
Lemma setSchemaDefinition_present h d schema key :
  idKey h schema = Ok key →
  hasSchemaDefinition d key = true →
  setSchemaDefinition h d schema = Ok d.
Proof.
  unfold idKey, setSchemaDefinition, hasSchemaDefinition.
  destruct (getField h schema "$id") as [id| |]; simpl; [|done..].
  intros [= <-] Hhas. apply negb_true_iff in Hhas. by rewrite Hhas.
Qed.

(** After a successful [setSchemaDefinition] the key is registered, and
    with the schema just given when the key was free. *)
Lemma setSchemaDefinition_registers h d schema key d1 :
  idKey h schema = Ok key →
  setSchemaDefinition h d schema = Ok d1 →
  hasSchemaDefinition d1 key = true ∧
  (hasSchemaDefinition d key = false → getSchemaDefinition d1 key = Ok (Own schema)) ∧
  (hasSchemaDefinition d key = true → d1 = d).
Proof.
  unfold idKey, setSchemaDefinition, hasSchemaDefinition, getSchemaDefinition.
  destruct (getField h schema "$id") as [id| |] eqn:Hid; simpl; [|done..].
  intros [= <-].
  assert (Hdef : isUndefined (Own schema) = false).
  { apply getField_defined in Hid. by destruct schema. }
  destruct (isUndefined (readSlot d (toPropertyKey id))) eqn:E; intros [= <-].
  - rewrite readSlot_insert, Hdef. done.
  - rewrite E. done.
Qed.

Section DefineFacts.
Context `{VQ : ValidatorQueue}.

Lemma define_present fuel schema (w : World) key :
  idKey (store w) schema = Ok key →
  hasSchemaDefinition (definitionsObject w) key = true →
  define fuel schema w = (w, Ok ()).
Proof.
  unfold idKey, define.
  destruct (getField (store w) schema "$id") as [id| |]; simpl; [|done..].
  by intros [= <-] ->.
Qed.

Lemma define_registers fuel schema (w w1 : World) key r :
  idKey (store w) schema = Ok key →
  define fuel schema w = (w1, r) →
  hasSchemaDefinition (definitionsObject w1) key = true ∧
  (hasSchemaDefinition (definitionsObject w) key = false →
     getSchemaDefinition (definitionsObject w1) key = Ok (Own schema)) ∧
  (hasSchemaDefinition (definitionsObject w) key = true → w1 = w).
Proof.
  intros Hkey. pose proof Hkey as Hkey'. revert Hkey'.
  unfold idKey at 1, define.
  destruct (getField (store w) schema "$id") as [id| |] eqn:Hid; simpl; [|done..].
  intros [= <-].
  destruct (hasSchemaDefinition (definitionsObject w) (toPropertyKey id)) eqn:Hhas.
  { by intros [= <- <-]. }
  destruct (setSchemaDefinition (store w) (definitionsObject w) schema) as [d| |] eqn:Hset.
  2,3: unfold setSchemaDefinition in Hset; rewrite Hid in Hset; simpl in Hset;
       by destruct (isUndefined _).
  destruct (setSchemaDefinition_registers _ _ _ _ _ Hkey Hset) as (H1 & H2 & _).
  intros Hw.
  assert (definitionsObject w1 = d) as ->.
  { destruct (normalizeSchema fuel schema (store w)) as [[n h1]| |];
      [destruct (withValidator n h1 (validators w)) as [[h2 vs]| |]|..];
      simplify_eq; reflexivity. }
  split_and!; [done | intros _; by apply H2 | done].
Qed.

(** C6.  Registration by [$id] is idempotent and the first registration
    wins.  Once a call of [define] (or of [setSchemaDefinition]) for a
    schema has been made, a second call with any schema that has the same
    [$id] changes nothing: the registry, and with it the whole state, is
    the one left by the first call; and if the id was free before, looking
    it up after either call gives the schema registered first. *)
Theorem define_idempotent fuel fuel' schema1 schema2 (w w1 : World) key r :
  idKey (store w) schema1 = Ok key →
  define fuel schema1 w = (w1, r) →
  idKey (store w1) schema2 = Ok key →
  define fuel' schema2 w1 = (w1, Ok ()) ∧
  setSchemaDefinition (store w1) (definitionsObject w1) schema2 = Ok (definitionsObject w1) ∧
  (hasSchemaDefinition (definitionsObject w) key = false →
     getSchemaDefinition (definitionsObject w1) key = Ok (Own schema1)) ∧
  (∀ d1, setSchemaDefinition (store w) (definitionsObject w) schema1 = Ok d1 →
     setSchemaDefinition (store w1) d1 schema2 = Ok d1 ∧
     (hasSchemaDefinition (definitionsObject w) key = false →
        getSchemaDefinition d1 key = Ok (Own schema1))).
Proof.
  intros Hk1 Hdef Hk2.
  destruct (define_registers _ _ _ _ _ _ Hk1 Hdef) as (Hhas & Hget & _).
  split_and!.
  - by apply (define_present _ _ _ key).
  - by apply (setSchemaDefinition_present _ _ _ key).
  - done.
  - intros d1 Hset.
    destruct (setSchemaDefinition_registers _ _ _ _ _ Hk1 Hset) as (H1 & H2 & _).
    split; [|done]. by apply (setSchemaDefinition_present _ _ _ key).
Qed.

End DefineFacts.

Lemma define_idempotent_witness :
  let w1 := (define 5 (VRef 0) emptyWorld).1 in
  define 5 (VRef 1) w1 = (w1, Ok ()) ∧
  getSchemaDefinition (definitionsObject w1) "quarto" = Ok (Own (VRef 0)).
Proof.
  intros w1.
  destruct (define_idempotent 5 5 (VRef 0) (VRef 1) emptyWorld w1 "quarto"
              (define 5 (VRef 0) emptyWorld).2) as (H1 & _ & H3 & _).
  - reflexivity.
  - subst w1. by destruct (define 5 (VRef 0) emptyWorld).
  - vm_compute. reflexivity.
  - split; [exact H1|]. apply H3. vm_compute. reflexivity.
Defined.

End RegistryFacts.

Module ErrorsFacts.
Import Schema Errors Samples.

Section HandlerFacts.
Context `{EL : ErrorLib}.

Lemma has_elem_of (set : list string) (x : string) : has set x = true ↔ x ∈ set.
Proof.
  unfold has. rewrite existsb_exists. split.
  - intros (y & Hy & Heq). apply String.eqb_eq in Heq as ->. by apply list_elem_of_In.
  - intros Hx. exists x. split; [by apply list_elem_of_In | apply String.eqb_refl].
Qed.

Lemma has_not_elem_of (set : list string) (x : string) : has set x = false ↔ x ∉ set.
Proof.
  rewrite <- has_elem_of. destruct (has set x); naive_solver.
Qed.

Lemma getField_truthy h v k t :
  getField h v k = Ok t → t ≠ VUndefined → truthy v = true.
Proof. destruct v; simpl; try done; by intros [= <-]. Qed.

(** *** The bad-boolean handler *)


Lemma checkForBadBoolean_fix h error parse schema0 p strValue fix_ :
  params (ajvError error) = Some p →
  result (violatingObject error) = VStr strValue →
  keyword (ajvError error) = "type" →
  getField h (schema p) "type" = Ok (VStr "boolean") →
  (strValue ∈ yesses ∧ fix_ = true) ∨ ((strValue ∉ yesses) ∧ strValue ∈ nos ∧ fix_ = false) →
  checkForBadBoolean h error parse schema0 =
    newError ← badBooleanError h error parse (schema p) fix_; Ok (withNiceError error newError).
Proof.
  intros Hp Hres Hkey Htype Hfix. unfold checkForBadBoolean. rewrite Hp, Hres, Hkey.
  rewrite (getField_truthy _ _ _ _ Htype) by done.
  rewrite Htype. unfold mbind at 1, outcome_bind at 1.
  rewrite decide_True by done.
  destruct Hfix as [[Hy%has_elem_of ->]|(Hy%has_not_elem_of & Hn%has_elem_of & ->)].
  - by rewrite Hy.
  - by rewrite Hy, Hn.
Qed.

(** X22.  What [checkForBadBoolean] returns for an error that carries
    its [params].  When the keyword is [type], the violating value a
    string and the schema of [params] of type boolean: for a yes-literal
    (a no-literal) the returned error is the received one with a new
    nice error, made of the heading of [formatHeading], the one message
    that the value is a string, the location of the old nice error, and
    whatever the two info helpers add, followed by the explanation of
    strict booleans and the advice to use [true] ([false]); an exception
    of [formatHeading] is passed on; a string of neither set leaves the
    error as it was.  An error that is not of that kind comes back
    unchanged. *)
Theorem checkForBadBoolean_rewrites h error parse schema0 p :
  params (ajvError error) = Some p →
  (∀ strValue,
     result (violatingObject error) = VStr strValue →
     keyword (ajvError error) = "type" →
     getField h (schema p) "type" = Ok (VStr "boolean") →
     (∀ fix_ head,
        (strValue ∈ yesses ∧ fix_ = true) ∨
        ((strValue ∉ yesses) ∧ strValue ∈ nos ∧ fix_ = false) →
        formatHeading h error parse (schema p) = Ok head →
        let filed :=
          addFileInfo
            (addInstancePathInfo
               {| heading := head;
                  Errors.error :=
                    ["The value " +:+ quotedStringColor (getVerbatimInput error)
                     +:+ " is a string."];
                  info := [];
                  niceLocation := niceLocation (niceError error) |}
               (ajvInstancePath (ajvError error)))
            (source error) in
        checkForBadBoolean h error parse schema0 =
          Ok {| source := source error;
                violatingObject := violatingObject error;
                instancePath := instancePath error;
                message := message error;
                location := location error;
                niceError :=
                  {| heading := heading filed;
                     Errors.error := Errors.error filed;
                     info := info filed ++
                       ["Quarto uses YAML 1.2, which interprets booleans strictly.";
                        "Try using " +:+ quotedStringColor (if fix_ then "true" else "false")
                        +:+ " instead."];
                     niceLocation := niceLocation filed |};
                ajvError := ajvError error |}) ∧
     (∀ e, strValue ∈ yesses ∨ strValue ∈ nos →
        formatHeading h error parse (schema p) = Throw e →
        checkForBadBoolean h error parse schema0 = Throw e) ∧
     (strValue ∉ yesses → strValue ∉ nos →
        checkForBadBoolean h error parse schema0 = Ok error)) ∧
  ((∀ s, result (violatingObject error) ≠ VStr s) ∨
   keyword (ajvError error) ≠ "type" ∨
   truthy (schema p) = false ∨
   (∃ t, getField h (schema p) "type" = Ok t ∧ t ≠ VStr "boolean") →
   checkForBadBoolean h error parse schema0 = Ok error).
Proof.
  intros Hp. split.
  - intros strValue Hres Hkey Htype. split_and!.
    + intros fix_ head Hfix Hhead filed.
      rewrite (checkForBadBoolean_fix _ _ _ _ _ _ _ Hp Hres Hkey Htype Hfix).
      unfold badBooleanError. rewrite Hhead. done.
    + intros e Hin Hhead.
      assert (∃ fix_, (strValue ∈ yesses ∧ fix_ = true) ∨
                      ((strValue ∉ yesses) ∧ strValue ∈ nos ∧ fix_ = false)) as (fix_ & Hfix).
      { destruct (decide (strValue ∈ yesses)) as [Hy|Hy]; [exists true; by left|].
        exists false. right. by destruct Hin. }
      rewrite (checkForBadBoolean_fix _ _ _ _ _ _ _ Hp Hres Hkey Htype Hfix).
      unfold badBooleanError. rewrite Hhead. done.
    + intros Hy%has_not_elem_of Hn%has_not_elem_of.
      unfold checkForBadBoolean. rewrite Hp, Hres, Hkey.
      rewrite (getField_truthy _ _ _ _ Htype) by done.
      rewrite Htype. unfold mbind, outcome_bind.
      rewrite decide_True by done. by rewrite Hy, Hn.
  - intros Hother. unfold checkForBadBoolean. rewrite Hp.
    destruct (result (violatingObject error)) as [| | | |s|] eqn:Hres; try done.
    destruct Hother as [H|[H|[H|(t & Ht & Hne)]]].
    + by destruct (H s).
    + apply String.eqb_neq in H. by rewrite H.
    + rewrite H. by rewrite andb_false_r.
    + destruct (_ && _); [|done]. rewrite Ht. unfold mbind, outcome_bind.
      by rewrite decide_False.
Qed.

(** *** The similar-key handler *)

Lemma minFrom_le frag keys : ∀ b, (minFrom frag b keys ≤ b)%nat.
Proof.
  induction keys as [|k ks IH]; intros b; simpl; [lia|].
  etrans; [apply IH|]. lia.
Qed.

Lemma minFrom_lower frag keys : ∀ b k,
  k ∈ keys → (minFrom frag b keys ≤ editDistance k frag)%nat.
Proof.
  induction keys as [|k' ks IH]; intros b k Hk; [by apply elem_of_nil in Hk|].
  simpl. apply elem_of_cons in Hk as [->|Hk].
  - etrans; [apply minFrom_le|]. lia.
  - by apply IH.
Qed.

Lemma minFrom_attained frag keys : ∀ b,
  minFrom frag b keys = b ∨ ∃ k, k ∈ keys ∧ editDistance k frag = minFrom frag b keys.
Proof.
  induction keys as [|k ks IH]; intros b; simpl; [by left|].
  destruct (IH (Nat.min b (editDistance k frag))) as [Heq|(k' & Hk' & Heq)].
  - destruct (Nat.min_spec b (editDistance k frag)) as [[? Hm]|[? Hm]].
    + left. unfold minFrom in *. lia.
    + right. exists k. split; [by left|]. unfold minFrom in *. lia.
  - right. exists k'. split; [by right|done].
Qed.

(** The loop keeps the keys seen at the smallest distance so far, in
    order; a strictly smaller distance starts the list afresh. *)
Lemma bestKeyLoop_from frag keys : ∀ best b,
  bestKeyLoop frag keys best (Some b) =
    (if (minFrom frag b keys <? b)%nat
     then filter (λ k, editDistance k frag = minFrom frag b keys) keys
     else best ++ filter (λ k, editDistance k frag = b) keys,
     Some (minFrom frag b keys)).
Proof.
  induction keys as [|k ks IH]; intros best b.
  - simpl. rewrite Nat.ltb_irrefl. by rewrite app_nil_r.
  - simpl bestKeyLoop. simpl minFrom.
    pose proof (minFrom_le frag ks (Nat.min b (editDistance k frag))) as Hle.
    rewrite !filter_cons.
    destruct (editDistance k frag <? b)%nat eqn:E1.
    + apply Nat.ltb_lt in E1. rewrite IH.
      replace (Nat.min b (editDistance k frag)) with (editDistance k frag) in * by lia.
      assert ((minFrom frag (editDistance k frag) ks <? b)%nat = true) as ->
        by (apply Nat.ltb_lt; lia).
      destruct (minFrom frag (editDistance k frag) ks <? editDistance k frag)%nat eqn:E2.
      * apply Nat.ltb_lt in E2. rewrite decide_False by lia. done.
      * apply Nat.ltb_ge in E2.
        assert (minFrom frag (editDistance k frag) ks = editDistance k frag) as -> by lia.
        rewrite decide_True by done. done.
    + apply Nat.ltb_ge in E1.
      destruct (editDistance k frag =? b)%nat eqn:E2.
      * apply Nat.eqb_eq in E2. rewrite IH. rewrite E2 in *.
        replace (Nat.min b b) with b in * by lia.
        destruct (minFrom frag b ks <? b)%nat eqn:E3.
        -- apply Nat.ltb_lt in E3. rewrite decide_False by lia. done.
        -- rewrite decide_True by done. by rewrite <- app_assoc.
      * apply Nat.eqb_neq in E2. rewrite IH.
        replace (Nat.min b (editDistance k frag)) with b in * by lia.
        destruct (minFrom frag b ks <? b)%nat eqn:E3.
        -- apply Nat.ltb_lt in E3. rewrite decide_False by lia. done.
        -- rewrite decide_False by lia. done.
Qed.

(** Over a non-empty list of accepted keys the loop returns exactly the
    keys at the minimal distance (ties keep all, in order) and that
    distance. *)
Lemma bestKeyLoop_minimal frag keys :
  keys ≠ [] →
  ∃ m, bestKeyLoop frag keys [] None =
         (filter (λ k, editDistance k frag = m) keys, Some m) ∧
       (∀ k, k ∈ keys → (m ≤ editDistance k frag)%nat) ∧
       (∃ k, k ∈ keys ∧ editDistance k frag = m).
Proof.
  destruct keys as [|k ks]; [done|]. intros _.
  exists (minFrom frag (editDistance k frag) ks).
  pose proof (minFrom_le frag ks (editDistance k frag)) as Hle.
  split_and!.
  - simpl bestKeyLoop. rewrite bestKeyLoop_from. rewrite filter_cons.
    destruct (minFrom frag (editDistance k frag) ks <? editDistance k frag)%nat eqn:E.
    + apply Nat.ltb_lt in E. rewrite decide_False by lia. done.
    + apply Nat.ltb_ge in E.
      assert (minFrom frag (editDistance k frag) ks = editDistance k frag) as -> by lia.
      rewrite decide_True by done. done.
  - intros k' [->|Hk']%elem_of_cons; [done|]. by apply minFrom_lower.
  - destruct (minFrom_attained frag ks (editDistance k frag)) as [Heq|(k' & Hk' & Heq)].
    + exists k. split; [by left|done].
    + exists k'. split; [by right|done].
Qed.

(** What the handler returns once the accepted keys are known, field
    by field. *)
Lemma checkForSimilarKey_result h error parse schema0 id unnormalized keys :
  let lastFragment := fragmentToString (getLastFragment (instancePath error)) in
  errorSchemaOf (ajvError error) ≠ VUndefined →
  getField h (errorSchemaOf (ajvError error)) "$id" = Ok id →
  resolveSchema h id = Ok unnormalized →
  possibleSchemaKeys h unnormalized = Ok keys →
  keys ≠ [] →
  ∃ m, (∀ k, k ∈ keys → (m ≤ editDistance k lastFragment)%nat) ∧
       (∃ k, k ∈ keys ∧ editDistance k lastFragment = m) ∧
       checkForSimilarKey h error parse schema0 =
         Ok {| source := source error;
               violatingObject := violatingObject error;
               instancePath := instancePath error;
               message := message error;
               location := location error;
               niceError :=
                 {| heading := heading (niceError error);
                    Errors.error := Errors.error (niceError error);
                    info :=
                      if (10 * String.length lastFragment <? 3 * m)%nat
                      then info (niceError error)
                      else info (niceError error) ++
                           [didYouMean (filter (λ k, editDistance k lastFragment = m) keys)];
                    niceLocation := niceLocation (niceError error) |};
               ajvError := ajvError error |}.
Proof.
  intros frag Hdef Hid Hres Hkeys Hne.
  destruct (bestKeyLoop_minimal frag keys Hne) as (m & Hloop & Hlow & Hatt).
  exists m. split_and!; [done..|].
  unfold checkForSimilarKey. fold frag.
  rewrite decide_False by done. rewrite Hid. unfold mbind, outcome_bind.
  rewrite Hres, Hkeys.
  destruct keys as [|k0 ks]; [done|].
  change (length (k0 :: ks) =? 0)%nat with false. cbv iota.
  rewrite Hloop. unfold beyondCutoff.
  destruct (10 * String.length frag <? 3 * m)%nat; [|done].
  by destruct error as [? ? ? ? ? [] ?].
Qed.


End HandlerFacts.


(** The error without [params] passes the heading of line 119 and the
    similar-key handler, which look for the schema under
    [parentSchema]. *)
Example without_params_elsewhere :
  formatHeading documentSchemas (withoutParams "yes") noParse (VRef 5)
    = Ok "Key draft has value yes but it must instead be true or false" ∧
  checkForSimilarKey documentSchemas (withoutParams "yes") noParse (VRef 5)
    = Ok (withoutParams "yes").
Proof. split; vm_compute; reflexivity. Qed.

Example bad_boolean_yes :
  ∃ r, checkForBadBoolean documentSchemas (stringForBoolean "yes") noParse VUndefined = Ok r ∧
       heading (niceError r) = "Key draft has value yes but it must instead be true or false" ∧
       Errors.error (niceError r) = ["The value yes is a string."] ∧
       info (niceError r) =
         ["Quarto uses YAML 1.2, which interprets booleans strictly.";
          "Try using true instead."].
Proof. eexists. split_and!; vm_compute; reflexivity. Qed.

(** With the accepted keys [title] and [subtitle], the offending key
    [subtitel] gets [subtitle] as its only suggestion under the
    Levenshtein distance, where the distances are 5 and 2. *)
Example similar_key_subtitle :
  bestKeyLoop "subtitel" ["title"; "subtitle"] [] None = (["subtitle"], Some 2%nat) ∧
  ∃ r, checkForSimilarKey documentSchemas (unknownKey 2) noParse VUndefined = Ok r ∧
       info (niceError r) = ["Did you mean subtitle?"].
Proof. split; [|eexists; split]; vm_compute; reflexivity. Qed.



End ErrorsFacts.

Module ParsingFacts.
Import TreeSitter Parsing Samples.

Example run_openBracket :
  map (fun y => (code y, deletions y)) (yields (attemptParsesAtLine 5 openBracket))
  = [("k: ", 2); ("k:", 3); ("k", 4); ("", 5)].
Proof. vm_compute. reflexivity. Qed.

Example run_cleanLine :
  map (fun y => (code y, deletions y)) (yields (attemptParsesAtLine 4 cleanLine))
  = [("a: b", 0); ("a: ", 1); ("a:", 2); ("a", 3); ("", 4)].
Proof. vm_compute. reflexivity. Qed.

Example run_cursorBelow :
  map (fun y => (code y, deletions y)) (yields (attemptParsesAtLine 2 cursorBelow))
  = [("a: b", 0)].
Proof. vm_compute. reflexivity. Qed.

Section AdapterFacts.
Context `{TL : TextLib} `{P : Parser}.

Lemma reparse_unfold fuel mcode codeLines pos cl cc d :
  0 < cc →
  reparse (S fuel) mcode codeLines pos cl cc d =
    match attemptAt mcode codeLines pos cl (d + 1) with
    | None => {| yields := []; ending_of := Raised |}
    | Some y =>
        let rest := reparse fuel mcode codeLines pos cl (cc - 1) (d + 1) in
        if cleanAttempt y
        then {| yields := y :: yields rest; ending_of := ending_of rest |}
        else rest
    end.
Proof.
  intros Hcc. simpl. apply Z.ltb_lt in Hcc as ->.
  unfold attemptAt.
  destruct (chunksFor _ _ _ _ _) as [chunks|]; simpl; [|done].
  destruct (parse _) as [tree|]; simpl; done.
Qed.

Lemma reparse_stop fuel mcode codeLines pos cl cc d :
  cc ≤ 0 →
  reparse fuel mcode codeLines pos cl cc d = {| yields := []; ending_of := Returned |}.
Proof.
  intros Hcc. destruct fuel; simpl;
    (destruct (0 <? cc) eqn:E; [apply Z.ltb_lt in E; lia | done]).
Qed.

Lemma attemptAt_deletions mcode codeLines pos cl d y :
  attemptAt mcode codeLines pos cl d = Some y →
  deletions y = d ∧ parse (value (code y)) = Some (parse_tree y).
Proof.
  unfold attemptAt. intros H.
  destruct (chunksFor _ _ _ _ _) as [chunks|]; simpl in H; [|done].
  destruct (parse _) as [tree|] eqn:E; simpl in H; [|done].
  by simplify_eq.
Qed.

Lemma reparse_yields fuel mcode codeLines pos cl : ∀ cc d,
  Forall (yieldedOk d cc) (yields (reparse fuel mcode codeLines pos cl cc d)).
Proof.
  induction fuel as [|fuel IH]; intros cc d.
  - simpl. destruct (0 <? cc); constructor.
  - destruct (Z_lt_le_dec 0 cc) as [Hcc|Hcc].
    + rewrite reparse_unfold by done.
      destruct (attemptAt _ _ _ _ _) as [y|] eqn:Ey; [|constructor].
      apply attemptAt_deletions in Ey as [Hd Hp].
      assert (Hrest : Forall (yieldedOk d cc)
                (yields (reparse fuel mcode codeLines pos cl (cc - 1) (d + 1)))).
      { eapply Forall_impl; [apply IH|]. intros z (? & ? & ?).
        repeat split; [done | done | lia | lia]. }
      simpl. destruct (cleanAttempt y) eqn:Ec; [|done].
      simpl. constructor; [|done].
      repeat split; [done | done | lia | lia].
    + rewrite reparse_stop by done. constructor.
Qed.

Lemma reparse_increasing fuel mcode codeLines pos cl : ∀ cc d,
  StronglySorted Z.lt (map deletions (yields (reparse fuel mcode codeLines pos cl cc d))).
Proof.
  induction fuel as [|fuel IH]; intros cc d.
  - simpl. destruct (0 <? cc); constructor.
  - destruct (Z_lt_le_dec 0 cc) as [Hcc|Hcc].
    + rewrite reparse_unfold by done.
      destruct (attemptAt _ _ _ _ _) as [y|] eqn:Ey; [|constructor].
      apply attemptAt_deletions in Ey as [Hd Hp].
      simpl. destruct (cleanAttempt y); [|apply IH].
      simpl. constructor; [apply IH|].
      apply Forall_map.
      eapply Forall_impl; [apply reparse_yields|].
      intros z (? & ? & ?). simpl. lia.
    + rewrite reparse_stop by done. constructor.
Qed.

Lemma reparse_length fuel mcode codeLines pos cl : ∀ cc d,
  (length (yields (reparse fuel mcode codeLines pos cl cc d)) ≤ Z.to_nat cc)%nat.
Proof.
  induction fuel as [|fuel IH]; intros cc d.
  - simpl. destruct (0 <? cc); simpl; lia.
  - destruct (Z_lt_le_dec 0 cc) as [Hcc|Hcc].
    + rewrite reparse_unfold by done.
      destruct (attemptAt _ _ _ _ _) as [y|]; [|simpl; lia].
      specialize (IH (cc - 1) (d + 1)).
      simpl. destruct (cleanAttempt y); simpl; lia.
    + rewrite reparse_stop by done. simpl. lia.
Qed.

Lemma reparse_finishes mcode codeLines pos cl : ∀ fuel cc d,
  (Z.to_nat cc ≤ fuel)%nat →
  ending_of (reparse fuel mcode codeLines pos cl cc d) ≠ Unfinished.
Proof.
  induction fuel as [|fuel IH]; intros cc d Hf.
  - rewrite reparse_stop by lia. done.
  - destruct (Z_lt_le_dec 0 cc) as [Hcc|Hcc].
    + rewrite reparse_unfold by done.
      destruct (attemptAt _ _ _ _ _) as [y|]; [|done].
      assert (Hr := IH (cc - 1) (d + 1) ltac:(lia)).
      simpl. by destruct (cleanAttempt y).
    + rewrite reparse_stop by done. done.
Qed.

(** Once the fuel covers the column budget, more fuel changes nothing. *)
Lemma reparse_fuel mcode codeLines pos cl : ∀ fuel fuel' cc d,
  (Z.to_nat cc ≤ fuel)%nat → (Z.to_nat cc ≤ fuel')%nat →
  reparse fuel mcode codeLines pos cl cc d = reparse fuel' mcode codeLines pos cl cc d.
Proof.
  induction fuel as [|fuel IH]; intros fuel' cc d Hf Hf'.
  - rewrite !reparse_stop by lia. done.
  - destruct (Z_lt_le_dec 0 cc) as [Hcc|Hcc].
    + destruct fuel' as [|fuel']; [lia|].
      rewrite !reparse_unfold by done.
      destruct (attemptAt _ _ _ _ _) as [y|]; [|done].
      by rewrite (IH fuel' (cc - 1) (d + 1)) by lia.
    + rewrite !reparse_stop by done. done.
Qed.

(** When no attempt throws, the loop runs through the whole column
    budget and yields every clean attempt, in order. *)
Lemma reparse_all mcode codeLines pos cl : ∀ fuel cc d,
  (Z.to_nat cc ≤ fuel)%nat →
  (∀ k, d < k ≤ d + cc → is_Some (attemptAt mcode codeLines pos cl k)) →
  reparse fuel mcode codeLines pos cl cc d =
    {| yields := filter (λ y, cleanAttempt y = true)
                   (omap (attemptAt mcode codeLines pos cl) (seqZ (d + 1) cc));
       ending_of := Returned |}.
Proof.
  induction fuel as [|fuel IH]; intros cc d Hf Hall.
  - rewrite reparse_stop by lia.
    rewrite seqZ_nil by lia. done.
  - destruct (Z_lt_le_dec 0 cc) as [Hcc|Hcc].
    + rewrite reparse_unfold by done.
      rewrite seqZ_cons by lia. simpl.
      destruct (Hall (d + 1) ltac:(lia)) as [y Hy]. rewrite Hy.
      rewrite (IH (cc - 1) (d + 1)) by (try lia; intros k Hk; apply Hall; lia).
      replace (Z.succ (d + 1)) with (d + 1 + 1) by lia.
      replace (Z.pred cc) with (cc - 1) by lia.
      rewrite filter_cons.
      destruct (cleanAttempt y) eqn:Ec.
      * rewrite decide_True by done. done.
      * rewrite decide_False by done. done.
    + rewrite reparse_stop by done.
      rewrite seqZ_nil by lia. done.
Qed.


Lemma clean_not_error (t : Tree) : clean t = true ↔ rootNodeType t ≠ "ERROR".
Proof.
  unfold clean. rewrite negb_true_iff. apply String.eqb_neq.
Qed.

Lemma nthZ_Some {A} (xs : list A) i x :
  nthZ xs i = Some x → 0 ≤ i < Z.of_nat (length xs).
Proof.
  unfold nthZ. destruct (i <? 0) eqn:E; [done|].
  apply Z.ltb_ge in E. intros H%lookup_lt_Some. lia.
Qed.

Lemma nthZ_inside {A} (xs : list A) i :
  0 ≤ i < Z.of_nat (length xs) → is_Some (nthZ xs i).
Proof.
  intros [H0 H1]. unfold nthZ.
  destruct (i <? 0) eqn:E; [apply Z.ltb_lt in E; lia|].
  apply lookup_lt_is_Some. lia.
Qed.

(** The shape of a run: what the first parse contributes, then the
    loop when the cursor row lies inside the buffer. *)
Lemma attemptParsesAtLine_outside fuel context :
  rowOutside context →
  attemptParsesAtLine fuel context =
    {| yields := match fullParse context with
                 | Some t => if clean t then [fullBufferAttempt context t] else []
                 | None => []
                 end;
       ending_of := Returned |}.
Proof.
  unfold rowOutside, codeLinesOf, attemptParsesAtLine, fullParse, fullBufferAttempt.
  intros Hrow. destruct (parse _) as [t|]; [|done].
  destruct (_ || _) eqn:E; [done|].
  apply orb_false_iff in E as [E1 E2].
  apply Z.leb_gt in E1. apply Z.ltb_ge in E2. lia.
Qed.

Lemma attemptParsesAtLine_inside fuel context t cl :
  fullParse context = Some t →
  nthZ (codeLinesOf context) (row (position context)) = Some cl →
  attemptParsesAtLine fuel context =
    let rest := reparse fuel (asMappedString (ctx_code context)) (codeLinesOf context)
                  (position context) (substring cl) (column (position context)) 0 in
    {| yields := (if clean t then [fullBufferAttempt context t] else []) ++ yields rest;
       ending_of := ending_of rest |}.
Proof.
  unfold codeLinesOf, attemptParsesAtLine, fullParse, fullBufferAttempt.
  intros -> Hcl. pose proof (nthZ_Some _ _ _ Hcl) as [H0 H1].
  destruct (_ || _) eqn:E.
  { apply orb_true_iff in E as [E|E];
      [apply Z.leb_le in E | apply Z.ltb_lt in E]; lia. }
  by rewrite Hcl.
Qed.

(** C2, as amended.  A clean parse of the whole buffer is the first
    element of the sequence, with zero deletions, and it is not the
    last one: with the cursor row inside the buffer and no reparse
    throwing, the generator goes through the whole column budget and
    the sequence is the full-buffer parse followed by every clean
    reparse for 1, 2, ..., column deletions.  It ends when the column
    budget is exhausted, not at the first clean parse. *)
Theorem clean_full_parse_is_first_of_all fuel context t cl :
  fullParse context = Some t →
  clean t = true →
  nthZ (codeLinesOf context) (row (position context)) = Some cl →
  (Z.to_nat (column (position context)) ≤ fuel)%nat →
  (∀ k, 0 < k ≤ column (position context) →
        is_Some (attemptAt (asMappedString (ctx_code context)) (codeLinesOf context)
                           (position context) (substring cl) k)) →
  attemptParsesAtLine fuel context =
    {| yields :=
         fullBufferAttempt context t ::
         filter (λ y, cleanAttempt y = true)
           (omap (attemptAt (asMappedString (ctx_code context)) (codeLinesOf context)
                            (position context) (substring cl))
                 (seqZ 1 (column (position context))));
       ending_of := Returned |}.
Proof.
  intros Hfull Hclean Hcl Hfuel Hall.
  rewrite (attemptParsesAtLine_inside fuel context t cl) by done.
  rewrite Hclean. simpl.
  rewrite reparse_all by (try done; intros k Hk; apply Hall; lia).
  done.
Qed.

(** C3, as amended.  With the cursor row outside the buffer no reparse
    is attempted and the generator returns: the sequence holds the
    parse of the whole buffer (zero deletions) when that parse is
    clean, and is empty when it is an ERROR tree or the parser
    throws. *)
Theorem row_outside_only_full_parse fuel context :
  rowOutside context →
  attemptParsesAtLine fuel context =
    {| yields := match fullParse context with
                 | Some t => if clean t then [fullBufferAttempt context t] else []
                 | None => []
                 end;
       ending_of := Returned |}.
Proof. apply attemptParsesAtLine_outside. Qed.

Lemma attemptParsesAtLine_no_parse fuel context :
  fullParse context = None →
  attemptParsesAtLine fuel context = {| yields := []; ending_of := Returned |}.
Proof.
  unfold attemptParsesAtLine, fullParse. by intros ->.
Qed.

Lemma attemptParsesAtLine_cases context :
  fullParse context = None ∨ rowOutside context ∨
  (∃ t cl, fullParse context = Some t ∧
           nthZ (codeLinesOf context) (row (position context)) = Some cl).
Proof.
  destruct (fullParse context) as [t|] eqn:Ht; [|by left].
  right.
  destruct (Z_lt_le_dec (row (position context)) 0) as [Hlo|Hlo].
  { left. by left. }
  destruct (Z_lt_le_dec (row (position context))
                        (Z.of_nat (length (codeLinesOf context)))) as [Hhi|Hhi].
  - destruct (nthZ_inside (codeLinesOf context) (row (position context)))
      as [cl Hcl]; [lia|]. right. eauto.
  - left. by right.
Qed.

(** Apart from the loop, a run is a first parse and nothing else. *)
Lemma attemptParsesAtLine_short fuel context :
  fullParse context = None ∨ rowOutside context →
  attemptParsesAtLine fuel context =
    {| yields := match fullParse context with
                 | Some t => if clean t then [fullBufferAttempt context t] else []
                 | None => []
                 end;
       ending_of := Returned |}.
Proof.
  intros [Hnone|Hout].
  - rewrite attemptParsesAtLine_no_parse by done. by rewrite Hnone.
  - by apply attemptParsesAtLine_outside.
Qed.

(** C4.  For a cursor with a column of at least zero and fuel that
    covers the column, the run ends (it returns or the parser throws,
    it never runs out of fuel, and more fuel gives the same run), it
    yields at most one plus column elements, and the deletion counts
    of the yielded elements are strictly increasing. *)
Theorem attemptParsesAtLine_finite_increasing fuel context :
  0 ≤ column (position context) →
  (Z.to_nat (column (position context)) ≤ fuel)%nat →
  ending_of (attemptParsesAtLine fuel context) ≠ Unfinished ∧
  (∀ fuel', (Z.to_nat (column (position context)) ≤ fuel')%nat →
            attemptParsesAtLine fuel' context = attemptParsesAtLine fuel context) ∧
  Z.of_nat (length (yields (attemptParsesAtLine fuel context)))
    ≤ 1 + column (position context) ∧
  StronglySorted Z.lt (map deletions (yields (attemptParsesAtLine fuel context))).
Proof.
  intros Hcol Hfuel.
  destruct (attemptParsesAtLine_cases context) as [Hs|[Hs|(t & cl & Ht & Hcl)]].
  1,2: assert (Hshort := λ f, attemptParsesAtLine_short f context ltac:(eauto)).
  1,2: split; [|split; [|split]];
         [ by rewrite Hshort
         | intros fuel' _; by rewrite !Hshort
         | rewrite Hshort; simpl; destruct (fullParse context) as [t|]; [|simpl; lia];
           destruct (clean t); simpl; lia
         | rewrite Hshort; simpl; destruct (fullParse context) as [t|]; [|constructor];
           destruct (clean t); simpl; repeat constructor ].
  pose proof (reparse_yields fuel (asMappedString (ctx_code context))
    (codeLinesOf context) (position context) (substring cl)
    (column (position context)) 0) as Hall.
  pose proof (reparse_length fuel (asMappedString (ctx_code context))
    (codeLinesOf context) (position context) (substring cl)
    (column (position context)) 0) as Hlen.
  split; [|split; [|split]].
  - rewrite (attemptParsesAtLine_inside fuel context t cl) by done. simpl.
    by apply reparse_finishes.
  - intros fuel' Hfuel'.
    rewrite !(attemptParsesAtLine_inside _ context t cl) by done. simpl.
    by rewrite (reparse_fuel _ _ _ _ fuel' fuel).
  - rewrite (attemptParsesAtLine_inside fuel context t cl) by done. simpl.
    rewrite length_app. destruct (clean t); simpl; lia.
  - rewrite (attemptParsesAtLine_inside fuel context t cl) by done. simpl.
    rewrite map_app. apply StronglySorted_app; split_and!.
    + intros x y Hx Hy.
      destruct (clean t); simpl in Hx; [|by apply elem_of_nil in Hx].
      apply list_elem_of_singleton in Hx as ->.
      apply list_elem_of_fmap in Hy as (z & -> & Hz).
      rewrite Forall_forall in Hall. destruct (Hall z Hz) as (_ & _ & ?). lia.
    + destruct (clean t); simpl; repeat constructor.
    + apply reparse_increasing.
Qed.

(** C9.  Every element of the sequence carries a clean parse of its
    own text (root type other than ERROR: failed attempts are not
    yielded); for a cursor column of at least zero its deletion count
    lies between zero and the column; and an element with zero
    deletions is the parse of the whole buffer. *)
Theorem yielded_clean_and_bounded fuel context :
  0 ≤ column (position context) →
  Forall (λ y,
      rootNodeType (parse_tree y) ≠ "ERROR" ∧
      parse (value (code y)) = Some (parse_tree y) ∧
      0 ≤ deletions y ≤ column (position context) ∧
      (deletions y = 0 → y = fullBufferAttempt context (parse_tree y) ∧
                         fullParse context = Some (parse_tree y)))
    (yields (attemptParsesAtLine fuel context)).
Proof.
  intros Hcol.
  assert (Hfirst : ∀ t, fullParse context = Some t →
    Forall (λ y,
      rootNodeType (parse_tree y) ≠ "ERROR" ∧
      parse (value (code y)) = Some (parse_tree y) ∧
      0 ≤ deletions y ≤ column (position context) ∧
      (deletions y = 0 → y = fullBufferAttempt context (parse_tree y) ∧
                         fullParse context = Some (parse_tree y)))
      (if clean t then [fullBufferAttempt context t] else [])).
  { intros t Ht. destruct (clean t) eqn:Ec; [|constructor].
    repeat constructor; simpl; try done; try lia.
    by apply clean_not_error. }
  destruct (attemptParsesAtLine_cases context) as [Hs|[Hs|(t & cl & Ht & Hcl)]].
  1,2: rewrite attemptParsesAtLine_short by eauto; simpl;
       destruct (fullParse context) as [t|] eqn:Ht; [by apply Hfirst | constructor].
  rewrite (attemptParsesAtLine_inside fuel context t cl) by done. simpl.
  apply Forall_app; split; [by apply Hfirst|].
  eapply Forall_impl; [apply reparse_yields|].
  intros y (Hc & Hp & Hd). split_and!; try done; try lia.
  by apply clean_not_error.
Qed.

End AdapterFacts.

(** The three sample runs instantiate the statements above. *)

Lemma cleanLine_attempts k :
  0 < k ≤ 4 →
  is_Some (attemptAt (asMappedString (ctx_code cleanLine)) (codeLinesOf cleanLine)
                     (position cleanLine) "a: b" k).
Proof.
  intros Hk.
  assert (k = 1 ∨ k = 2 ∨ k = 3 ∨ k = 4) as [-> | [-> | [-> | ->]]] by lia;
    vm_compute; eauto.
Qed.

(** C2 as the specification words it fails on [a: b]: the clean parse of
    the whole buffer is followed by four more elements. *)
Lemma clean_full_parse_not_sole : ¬ soleAttempt 4 cleanLine.
Proof.
  intros H. unfold soleAttempt in H.
  specialize (H ("stream" : @Tree bracketParser) eq_refl eq_refl).
  apply (f_equal length) in H. vm_compute in H. discriminate H.
Qed.

Lemma clean_full_parse_is_first_of_all_witness :
  map (λ y, (code y, deletions y)) (yields (attemptParsesAtLine 4 cleanLine))
  = [("a: b", 0); ("a: ", 1); ("a:", 2); ("a", 3); ("", 4)].
Proof.
  rewrite (clean_full_parse_is_first_of_all 4 cleanLine ("stream" : @Tree bracketParser)
             {| substring := "a: b"; range := {| start := 0; end_ := 4 |} |}).
  - vm_compute. reflexivity.
  - reflexivity.
  - reflexivity.
  - reflexivity.
  - simpl. lia.
  - exact cleanLine_attempts.
Defined.

(** C3 as the specification words it fails on [a: b] with the cursor on
    row 3: the sequence is not empty, it holds the parse of the buffer. *)
Lemma row_outside_not_empty : ¬ emptyOutside 2 cursorBelow.
Proof.
  intros H. unfold emptyOutside in H.
  assert (Hout : rowOutside cursorBelow) by (right; vm_compute; discriminate).
  specialize (H Hout). vm_compute in H. discriminate H.
Qed.

Lemma row_outside_only_full_parse_witness :
  rowOutside cursorBelow ∧
  map (λ y, (code y, deletions y)) (yields (attemptParsesAtLine 2 cursorBelow))
  = [("a: b", 0)].
Proof.
  assert (Hout : rowOutside cursorBelow) by (right; vm_compute; discriminate).
  split; [exact Hout|].
  rewrite (row_outside_only_full_parse 2 cursorBelow Hout).
  vm_compute. reflexivity.
Defined.

Lemma attemptParsesAtLine_finite_increasing_witness :
  ending_of (attemptParsesAtLine 5 openBracket) ≠ Unfinished ∧
  Z.of_nat (length (yields (attemptParsesAtLine 5 openBracket))) ≤ 1 + 5 ∧
  StronglySorted Z.lt (map deletions (yields (attemptParsesAtLine 5 openBracket))).
Proof.
  destruct (attemptParsesAtLine_finite_increasing 5 openBracket) as (H1 & _ & H3 & H4).
  - simpl. lia.
  - simpl. lia.
  - exact (conj H1 (conj H3 H4)).
Defined.

Lemma yielded_clean_and_bounded_witness :
  Forall (λ y, rootNodeType (parse_tree y) ≠ "ERROR" ∧ 0 ≤ deletions y ≤ 5)
    (yields (attemptParsesAtLine 5 openBracket)).
Proof.
  eapply Forall_impl.
  - apply (yielded_clean_and_bounded 5 openBracket). simpl. lia.
  - intros y (H1 & _ & H3 & _). exact (conj H1 H3).
Defined.

(** *** The indentation tree *)

Lemma trimStart_length s : (String.length (trimStart s) ≤ String.length s)%nat.
Proof.
  induction s as [|c s IH]; simpl; [lia|].
  destruct (isWhiteSpace c); simpl; lia.
Qed.

Lemma getIndent_nonneg l : 0 ≤ getIndent l.
Proof. unfold getIndent. pose proof (trimStart_length l). lia. Qed.

Lemma arraySet_end (a : jsarray) x : arraySet a (Z.of_nat (length a)) x = a ++ [x].
Proof.
  unfold arraySet.
  destruct (Z.of_nat (length a) <? 0) eqn:E; [apply Z.ltb_lt in E; lia|].
  rewrite Nat2Z.id.
  destruct (length a <? length a)%nat eqn:E'; [apply Nat.ltb_lt in E'; lia|].
  by rewrite Nat.sub_diag.
Qed.

Lemma arrayGet_below (pred : jsarray) (v : Z) :
  predecessorsBelow pred → 0 ≤ v < Z.of_nat (length pred) →
  ∃ p, arrayGet pred v = Some p ∧ -1 ≤ p < v.
Proof.
  intros Hpred [H0 H1]. unfold arrayGet, nthZ.
  destruct (v <? 0) eqn:E; [apply Z.ltb_lt in E; lia|].
  destruct (lookup_lt_is_Some_2 pred (Z.to_nat v) ltac:(lia)) as [c Hc].
  rewrite Hc. simpl. destruct (Hpred _ _ Hc) as (p & -> & Hp).
  exists p. split; [done|lia].
Qed.

Lemma predecessorsBelow_snoc (pred : jsarray) p :
  predecessorsBelow pred → -1 ≤ p < Z.of_nat (length pred) →
  predecessorsBelow (pred ++ [Some p]).
Proof.
  intros Hpred Hp j c Hj.
  apply lookup_app_Some in Hj as [Hj|[Hlen Hj]]; [by apply Hpred|].
  destruct (j - length pred)%nat eqn:E; simpl in Hj; [|done].
  simplify_eq. exists p. split; [done|lia].
Qed.

(** The inner loop ends within [v + 1] steps, on a line index below the
    one it started from (or on -1). *)
Lemma descend_ends (pred ind : jsarray) (li : Z) :
  predecessorsBelow pred →
  ∀ fuel v, -1 ≤ v < Z.of_nat (length pred) → v < Z.of_nat fuel →
    ∃ p, descend fuel pred ind li (Some v) = Ok (Some p) ∧ -1 ≤ p ≤ v.
Proof.
  intros Hpred. induction fuel as [|fuel IH]; intros v Hv Hf.
  - simpl. destruct (0 <=? v) eqn:E; [apply Z.leb_le in E; lia|].
    simpl. exists v. split; [done|lia].
  - simpl. destruct (_ && _) eqn:E.
    + apply andb_true_iff in E as [E _]. apply Z.leb_le in E.
      destruct (arrayGet_below pred v Hpred ltac:(lia)) as (p & -> & Hp).
      destruct (IH p ltac:(lia) ltac:(lia)) as (q & -> & Hq).
      exists q. split; [done|lia].
    + exists v. split; [done|lia].
Qed.

Lemma descend_never_throws fuel pred ind li : ∀ v e,
  descend fuel pred ind li v ≠ Throw e.
Proof.
  induction fuel as [|fuel IH]; intros [v|] e; simpl; try done.
  - destruct (_ && _); done.
  - destruct (_ && _); [apply IH|done].
Qed.

(** The four tests of the loop body cover every case: whatever the
    state, the defensive [throw] is not reached. *)
Lemma indentStep_never_throws fuel st i line e : indentStep fuel st i line ≠ Throw e.
Proof.
  unfold indentStep.
  destruct (indentation st <? getIndent line) eqn:E1; [done|].
  destruct (String.length (trim line) =? 0)%nat; [done|].
  destruct (getIndent line =? indentation st) eqn:E2; [done|].
  destruct (getIndent line <? indentation st) eqn:E3.
  - pose proof (descend_never_throws fuel (predecessor st)
      (indents st ++ [Some (getIndent line)]) (getIndent line)
      (Some (prevPredecessor st))) as Hd.
    destruct (descend _ _ _ _ _) as [v| e' |]; simpl; [done | by specialize (Hd e') | done].
  - apply Z.ltb_ge in E1, E3. apply Z.eqb_neq in E2. lia.
Qed.

Lemma indentStep_inv fuel n st line :
  IndentInv n st → (n ≤ fuel)%nat →
  ∃ st', indentStep fuel st (Z.of_nat n) line = Ok st' ∧ IndentInv (S n) st'.
Proof.
  intros [Hlp Hli Hpred Hind Hprev Hindent] Hfuel.
  pose proof (getIndent_nonneg line) as Hnn.
  assert (Hset : ∀ x, arraySet (predecessor st) (Z.of_nat n) x = predecessor st ++ [x]).
  { intros x. rewrite <- Hlp. apply arraySet_end. }
  assert (Hind' : Forall is_Some (indents st ++ [Some (getIndent line)])).
  { apply Forall_app; split; [done|]. repeat constructor. by eexists. }
  unfold indentStep. rewrite !Hset.
  destruct (indentation st <? getIndent line) eqn:E1.
  { eexists. split; [done|].
    constructor; simpl; rewrite ?length_app; simpl; try lia; try done.
    apply predecessorsBelow_snoc; [done|lia]. }
  apply Z.ltb_ge in E1.
  assert (Hprev0 : 0 ≤ prevPredecessor st) by (apply Hindent; lia).
  destruct (arrayGet_below (predecessor st) (prevPredecessor st) Hpred ltac:(lia))
    as (p & Hp & Hpb).
  destruct (String.length (trim line) =? 0)%nat.
  { eexists. split; [done|].
    constructor; simpl; rewrite ?length_app; simpl; try lia; try done.
    rewrite Hp. apply predecessorsBelow_snoc; [done|lia]. }
  destruct (getIndent line =? indentation st) eqn:E2.
  { eexists. split; [done|].
    constructor; simpl; rewrite ?length_app; simpl; try lia; try done.
    rewrite Hp. apply predecessorsBelow_snoc; [done|lia]. }
  apply Z.eqb_neq in E2.
  destruct (getIndent line <? indentation st) eqn:E3; [|apply Z.ltb_ge in E3; lia].
  destruct (descend_ends (predecessor st) (indents st ++ [Some (getIndent line)])
              (getIndent line) Hpred fuel (prevPredecessor st) ltac:(lia) ltac:(lia))
    as (q & -> & Hq).
  simpl. rewrite Hset. eexists. split; [done|].
  constructor; simpl; rewrite ?length_app; simpl; try lia; try done.
  apply predecessorsBelow_snoc; [done|lia].
Qed.

Lemma indentLoop_inv fuel : ∀ ls n st,
  IndentInv n st → (n + length ls ≤ fuel)%nat →
  ∃ st', indentLoop fuel st (Z.of_nat n) ls = Ok st' ∧ IndentInv (n + length ls) st'.
Proof.
  induction ls as [|line ls IH]; intros n st Hinv Hfuel; simpl in *.
  - exists st. by rewrite Nat.add_0_r.
  - destruct (indentStep_inv fuel n st line Hinv ltac:(lia)) as (st1 & -> & Hinv1).
    simpl. replace (Z.of_nat n + 1) with (Z.of_nat (S n)) by lia.
    destruct (IH (S n) st1 Hinv1 ltac:(lia)) as (st2 & -> & Hinv2).
    exists st2. split; [done|]. by replace (n + S (length ls))%nat with (S n + length ls)%nat by lia.
Qed.

(** C10.  Given fuel for the inner loop that covers the number of
    lines, [getYamlIndentTree] returns normally on every input: it does
    not throw (no state at all reaches the defensive branch, because the
    four tests are exhaustive), and the predecessor and indentation
    arrays it returns have one cell per line, each holding a number, a
    predecessor being -1 or the index of an earlier line. *)
Theorem getYamlIndentTree_total `{TL : TextLib} (fuel : nat) (code : string) :
  (length (lines code) ≤ fuel)%nat →
  (∀ st i line e, indentStep fuel st i line ≠ Throw e) ∧
  ∃ pred ind,
    getYamlIndentTree fuel code = Ok (pred, ind) ∧
    length pred = length (lines code) ∧
    length ind = length (lines code) ∧
    Forall is_Some ind ∧
    predecessorsBelow pred.
Proof.
  intros Hfuel. split; [intros; apply indentStep_never_throws|].
  unfold getYamlIndentTree.
  destruct (indentLoop_inv fuel (lines code) 0
    {| predecessor := []; indents := []; indentation := -1; prevPredecessor := -1 |})
    as (st & Hst & [Hlp Hli Hpred Hind _ _]).
  - constructor; simpl; try done; try lia.
  - simpl. lia.
  - change (Z.of_nat 0) with 0 in Hst. rewrite Hst. simpl.
    exists (predecessor st), (indents st).
    split_and!; done.
Qed.

Lemma getYamlIndentTree_total_witness :
  ∃ pred ind,
    getYamlIndentTree 3 ("a:" +:+ String newline "  b: 1" +:+ String newline "c: 2")
      = Ok (pred, ind) ∧
    length pred = 3%nat ∧ length ind = 3%nat.
Proof.
  destruct (getYamlIndentTree_total 3
              ("a:" +:+ String newline "  b: 1" +:+ String newline "c: 2"))
    as (_ & pred & ind & Hrun & Hp & Hi & _).
  - vm_compute. lia.
  - exists pred, ind. split; [exact Hrun|]. split; [exact Hp | exact Hi].
Defined.

Example indent_tree_run :
  getYamlIndentTree 3 ("a:" +:+ String newline "  b: 1" +:+ String newline "c: 2")
  = Ok ([Some (-1); Some 0; Some (-1)], [Some 0; Some 2; Some 0]).
Proof. vm_compute. reflexivity. Qed.

End ParsingFacts.

Module AliasFacts.
Import Aliases.

Section Expansion.
Variable defs : gmap string (list string).

Lemma expandLoop_end fuel lst i acc :
  (length lst ≤ i)%nat → expandLoop fuel defs lst i acc = Ok acc.
Proof.
  intros Hi. destruct fuel; simpl; by rewrite (lookup_ge_None_2 lst i Hi).
Qed.

(** The loop looks only at the part of the list from its index on. *)
Lemma expandLoop_shift : ∀ fuel pre pre' todo acc,
  expandLoop fuel defs (pre ++ todo) (length pre) acc =
  expandLoop fuel defs (pre' ++ todo) (length pre') acc.
Proof.
  assert (Hnil : ∀ p : list string, (p ++ []) !! length p = None).
  { intros p. apply lookup_ge_None_2. rewrite length_app. simpl. lia. }
  induction fuel as [|fuel IH]; intros pre pre' [|el t] acc; simpl;
    rewrite ?Hnil, ?list_lookup_middle by done; try done.
  destruct (isAlias el).
  - destruct (readAlias defs (slice1 el)) as [v| |]; [|done..].
    replace ((pre ++ el :: t) ++ v) with ((pre ++ [el]) ++ (t ++ v))
      by (by rewrite <- !app_assoc).
    replace ((pre' ++ el :: t) ++ v) with ((pre' ++ [el]) ++ (t ++ v))
      by (by rewrite <- !app_assoc).
    replace (S (length pre)) with (length (pre ++ [el])) by (rewrite length_app; simpl; lia).
    replace (S (length pre')) with (length (pre' ++ [el])) by (rewrite length_app; simpl; lia).
    apply IH.
  - replace (pre ++ el :: t) with ((pre ++ [el]) ++ t) by (by rewrite <- !app_assoc).
    replace (pre' ++ el :: t) with ((pre' ++ [el]) ++ t) by (by rewrite <- !app_assoc).
    replace (S (length pre)) with (length (pre ++ [el])) by (rewrite length_app; simpl; lia).
    replace (S (length pre')) with (length (pre' ++ [el])) by (rewrite length_app; simpl; lia).
    apply IH.
Qed.

(** What was collected before is a prefix of the result. *)
Lemma expandLoop_acc : ∀ fuel lst i acc acc',
  expandLoop fuel defs lst i (acc ++ acc') =
  r ← expandLoop fuel defs lst i acc'; Ok (acc ++ r).
Proof.
  induction fuel as [|fuel IH]; intros lst i acc acc'; simpl;
    destruct (lst !! i) as [el|]; try done.
  destruct (isAlias el).
  - destruct (readAlias defs (slice1 el)); [apply IH|done..].
  - rewrite <- app_assoc. apply IH.
Qed.

Lemma plainNames_app xs ys : plainNames (xs ++ ys) = plainNames xs ++ plainNames ys.
Proof. unfold plainNames. apply List.filter_app. Qed.

(** One pass over the names that are in the list now. *)
Lemma expandLoop_pass fuel : ∀ todo pre extra acc bodies,
  expansions defs todo = Some bodies →
  expandLoop (length todo + fuel) defs (pre ++ todo ++ extra) (length pre) acc =
  expandLoop fuel defs (pre ++ todo ++ extra ++ bodies) (length (pre ++ todo))
    (acc ++ plainNames todo).
Proof.
  induction todo as [|el t IH]; intros pre extra acc bodies; cbn [expansions].
  { intros [= <-]. by rewrite !app_nil_r. }
  cbn [length Nat.add expandLoop app]. rewrite list_lookup_middle by done.
  unfold plainNames. cbn [List.filter]. fold (plainNames t).
  destruct (isAlias el); cbn [negb].
  - destruct (readAlias defs (slice1 el)) as [v| |]; [|done..].
    destruct (expansions defs t) as [r|] eqn:Hr; [|done]. intros [= <-].
    replace ((pre ++ el :: t ++ extra) ++ v) with ((pre ++ [el]) ++ t ++ (extra ++ v)).
    2:{ by simplify_list_eq. }
    replace (S (length pre)) with (length (pre ++ [el])) by (rewrite length_app; simpl; lia).
    rewrite (IH (pre ++ [el]) (extra ++ v) acc r eq_refl).
    f_equal.
    + by simplify_list_eq.
    + rewrite !length_app. simpl. lia.
  - intros Hb.
    replace (pre ++ el :: t ++ extra) with ((pre ++ [el]) ++ t ++ extra).
    2:{ by simplify_list_eq. }
    replace (S (length pre)) with (length (pre ++ [el])) by (rewrite length_app; simpl; lia).
    rewrite (IH (pre ++ [el]) extra (acc ++ [el]) bodies Hb).
    f_equal.
    + by simplify_list_eq.
    + rewrite !length_app. simpl. lia.
    + by simplify_list_eq.
Qed.

(** X1.  Aliases are expanded level by level.  When every alias of
    [lst] has an entry, [expandAliasesFrom] returns the names of [lst]
    that are not aliases, in their order, followed by the expansion of
    the entries of its aliases taken together: a name that comes from an
    alias lands after every plain name of the list, not at the place of
    the alias. *)
Theorem expandAliasesFrom_levels fuel lst bodies :
  expansions defs lst = Some bodies →
  expandAliasesFrom (length lst + fuel) lst defs =
    r ← expandAliasesFrom fuel bodies defs; Ok (plainNames lst ++ r).
Proof.
  intros Hb. unfold expandAliasesFrom.
  pose proof (expandLoop_pass fuel lst [] [] [] bodies Hb) as H.
  cbn [app length] in H. rewrite app_nil_r in H. rewrite H.
  rewrite (expandLoop_shift fuel lst [] bodies).
  cbn [app length].
  rewrite <- (app_nil_r (plainNames lst)) at 1.
  apply expandLoop_acc.
Qed.

Lemma expansions_plain lst :
  Forall (λ el, isAlias el = false) lst →
  expansions defs lst = Some [] ∧ plainNames lst = lst.
Proof.
  induction 1 as [|el t Hel _ [IH1 IH2]]; [done|].
  unfold plainNames in *. cbn [expansions List.filter]. rewrite Hel. cbn [negb].
  by rewrite IH1, IH2.
Qed.

(** X2.  A list without aliases comes back as it is, whatever the
    aliases map holds. *)
Theorem expandAliasesFrom_plain fuel lst :
  Forall (λ el, isAlias el = false) lst →
  (length lst ≤ fuel)%nat →
  expandAliasesFrom fuel lst defs = Ok lst.
Proof.
  intros Hp Hf. destruct (expansions_plain lst Hp) as [Hb Hn].
  replace fuel with (length lst + (fuel - length lst))%nat by lia.
  unfold expandAliasesFrom.
  pose proof (expandLoop_pass (fuel - length lst) lst [] [] [] [] Hb) as H.
  cbn [app length] in H. rewrite app_nil_r in H. rewrite H, Hn.
  by apply expandLoop_end.
Qed.

Lemma expandLoop_sound : ∀ fuel lst i acc r,
  expandLoop fuel defs lst i acc = Ok r →
  ∀ x, x ∈ r →
    x ∈ acc ∨ (isAlias x = false ∧ (x ∈ lst ∨ ∃ k v, defs !! k = Some v ∧ x ∈ v)).
Proof.
  induction fuel as [|fuel IH]; intros lst i acc r; simpl;
    destruct (lst !! i) as [el|] eqn:Hel; try done; try (intros [= <-]; by left).
  destruct (isAlias el) eqn:Ha.
  - unfold readAlias. destruct (defs !! slice1 el) as [v|] eqn:Hv.
    + intros Hr x Hx. destruct (IH _ _ _ _ Hr x Hx) as [?|[Hp [Hin|Hin]]]; [by left|..].
      * right. split; [done|]. apply elem_of_app in Hin as [?|?]; [by left|].
        right. by exists (slice1 el), v.
      * right. split; [done|]. by right.
    + by destruct (decide _).
  - intros Hr x Hx. destruct (IH _ _ _ _ Hr x Hx) as [Hin|?]; [|by right].
    apply elem_of_app in Hin as [?|Hin]; [by left|].
    apply list_elem_of_singleton in Hin as ->.
    right. split; [done|]. left. by eapply list_elem_of_lookup_2.
Qed.

Lemma expandLoop_prefix : ∀ fuel lst i acc r,
  expandLoop fuel defs lst i acc = Ok r →
  (acc ++ plainNames (drop i lst)) `prefix_of` r.
Proof.
  induction fuel as [|fuel IH]; intros lst i acc r; simpl;
    destruct (lst !! i) as [el|] eqn:Hel; try done.
  1,3: intros [= <-]; rewrite (drop_ge lst i) by (by apply lookup_ge_None);
       unfold plainNames; simpl; by rewrite app_nil_r.
  rewrite (drop_S lst el i Hel). unfold plainNames. cbn [List.filter].
  fold (plainNames (drop (S i) lst)).
  pose proof (lookup_lt_Some _ _ _ Hel) as Hlt.
  destruct (isAlias el) eqn:Ha; cbn [negb].
  - destruct (readAlias defs (slice1 el)) as [v| |]; [|done..].
    intros Hr. apply IH in Hr.
    rewrite drop_app_le in Hr by lia. rewrite plainNames_app in Hr.
    etrans; [|exact Hr]. rewrite app_assoc. by apply prefix_app_r.
  - intros Hr. apply IH in Hr. by rewrite <- app_assoc in Hr.
Qed.

(** X3.  What a result is made of.  When [expandAliasesFrom] returns, no
    name of the result is an alias; every name comes from the list or
    from an entry of the aliases map; and the result starts with the
    plain names of the list, in their order. *)
Theorem expandAliasesFrom_result fuel lst r :
  expandAliasesFrom fuel lst defs = Ok r →
  (∀ x, x ∈ r →
     isAlias x = false ∧ (x ∈ lst ∨ ∃ k v, defs !! k = Some v ∧ x ∈ v)) ∧
  plainNames lst `prefix_of` r.
Proof.
  intros Hr. split.
  - intros x Hx. destruct (expandLoop_sound _ _ _ _ _ Hr x Hx) as [Hin|?]; [|done].
    by apply elem_of_nil in Hin.
  - apply expandLoop_prefix in Hr. by rewrite drop_0 in Hr.
Qed.

Lemma expandLoop_unknown el j : ∀ fuel lst i acc,
  lst !! j = Some el → isAlias el = true → readAlias defs (slice1 el) = Missing →
  (i ≤ j)%nat → (j - i < fuel)%nat →
  ∃ e, expandLoop fuel defs lst i acc = Throw e.
Proof.
  induction fuel as [|fuel IH]; intros lst i acc Hj Ha Hm Hi Hf; [lia|].
  simpl. destruct (decide (i = j)) as [->|Hne].
  - rewrite Hj, Ha, Hm. by eexists.
  - destruct (lookup_lt_is_Some_2 lst i) as [el' Hel'].
    { apply lookup_lt_Some in Hj. lia. }
    rewrite Hel'. destruct (isAlias el').
    + destruct (readAlias defs (slice1 el')) as [v| |]; [|by eexists..].
      apply IH; try done; try lia. by apply lookup_app_l_Some.
    + apply IH; try done; lia.
Qed.

(** X4.  An alias without an entry is never passed over: if the list
    holds an alias that the map does not define, the call throws. *)
Theorem expandAliasesFrom_unknown fuel lst el :
  el ∈ lst → isAlias el = true → readAlias defs (slice1 el) = Missing →
  (length lst ≤ fuel)%nat →
  ∃ e, expandAliasesFrom fuel lst defs = Throw e.
Proof.
  intros [j Hj]%list_elem_of_lookup_1 Ha Hm Hf.
  apply (expandLoop_unknown el j); try done; try lia.
  apply lookup_lt_Some in Hj. lia.
Qed.

Lemma expandLoop_cycle el v : ∀ fuel lst i acc r,
  isAlias el = true → defs !! slice1 el = Some v → el ∈ v →
  (∃ j, (i ≤ j)%nat ∧ lst !! j = Some el) →
  expandLoop fuel defs lst i acc ≠ Ok r.
Proof.
  induction fuel as [|fuel IH]; intros lst i acc r Ha Hv Hin (j & Hi & Hj).
  - simpl. destruct (lookup_lt_is_Some_2 lst i) as [el' ->]; [|done].
    apply lookup_lt_Some in Hj. lia.
  - simpl. destruct (lookup_lt_is_Some_2 lst i) as [el' Hel'].
    { apply lookup_lt_Some in Hj. lia. }
    rewrite Hel'. destruct (decide (i = j)) as [->|Hne].
    + replace el' with el by congruence. rewrite Ha. unfold readAlias. rewrite Hv.
      apply IH; try done.
      apply list_elem_of_lookup_1 in Hin as [n Hn].
      exists (length lst + n)%nat. split.
      * apply lookup_lt_Some in Hj. lia.
      * rewrite lookup_app_r by lia. by replace (length lst + n - length lst)%nat with n by lia.
    + destruct (isAlias el').
      * destruct (readAlias defs (slice1 el')) as [v'| |]; [|done..].
        apply IH; try done. exists j. split; [lia|]. by apply lookup_app_l_Some.
      * apply IH; try done. exists j. split; [lia|done].
Qed.

(** X5.  An alias whose own entry names it again is expanded without
    end: with such an alias in the list the call never returns a result,
    however many iterations it is given. *)
Theorem expandAliasesFrom_cycle fuel lst el v r :
  el ∈ lst → isAlias el = true → defs !! slice1 el = Some v → el ∈ v →
  expandAliasesFrom fuel lst defs ≠ Ok r.
Proof.
  intros [j Hj]%list_elem_of_lookup_1 Ha Hv Hin.
  apply (expandLoop_cycle el v); try done. exists j. split; [lia|done].
Qed.

End Expansion.

End AliasFacts.

Module RegistryMore.
Import Schema Registry Samples.

Lemma setSchemaDefinition_frame h d schema d1 key :
  setSchemaDefinition h d schema = Ok d1 →
  idKey h schema ≠ Ok key ∨ hasSchemaDefinition d key = true →
  readSlot d1 key = readSlot d key.
Proof.
  unfold setSchemaDefinition, idKey, hasSchemaDefinition.
  destruct (getField h schema "$id") as [id| |]; simpl; [|done..].
  destruct (isUndefined (readSlot d (toPropertyKey id))) eqn:E; intros [= <-]; [|done].
  intros [Hne|Hhas].
  - unfold readSlot. rewrite lookup_insert_ne; [done|]. intros <-. by apply Hne.
  - destruct (decide (toPropertyKey id = key)) as [<-|Hne].
    + by rewrite E in Hhas.
    + unfold readSlot. by rewrite lookup_insert_ne.
Qed.

Lemma setSchemaDefinition_returns h d schema key :
  idKey h schema = Ok key → ∃ d1, setSchemaDefinition h d schema = Ok d1.
Proof.
  unfold idKey, setSchemaDefinition.
  destruct (getField h schema "$id") as [id| |]; simpl; [|done..].
  intros _. destruct (isUndefined _); by eexists.
Qed.

(** X8.  The names of [Object.prototype] are taken from the start.  For
    such a name without an entry of its own, [hasSchemaDefinition] answers
    [true], [getSchemaDefinition] returns the inherited member instead of
    throwing, and a schema with that [$id] is never stored. *)
Theorem prototype_names_are_taken h d schema key :
  key ∈ objectPrototypeNames → d !! key = None →
  hasSchemaDefinition d key = true ∧
  getSchemaDefinition d key = Ok (Inherited key) ∧
  (idKey h schema = Ok key → setSchemaDefinition h d schema = Ok d).
Proof.
  intros Hin Hnone.
  assert (Hslot : readSlot d key = Inherited key).
  { unfold readSlot. rewrite Hnone. by rewrite decide_True. }
  assert (Hhas : hasSchemaDefinition d key = true).
  { unfold hasSchemaDefinition. by rewrite Hslot. }
  split_and!; [done| |].
  - unfold getSchemaDefinition. by rewrite Hslot.
  - intros Hkey. by apply (RegistryFacts.setSchemaDefinition_present h d schema key).
Qed.

(** X9.  A schema without [$id] is stored under the name ["undefined"]:
    the lookup of that name then returns it, and every later schema
    without [$id] is dropped. *)
Theorem schema_without_id_is_undefined h d schema :
  getField h schema "$id" = Ok VUndefined →
  hasSchemaDefinition d "undefined" = false →
  ∃ d1, setSchemaDefinition h d schema = Ok d1 ∧
        getSchemaDefinition d1 "undefined" = Ok (Own schema) ∧
        ∀ schema2, getField h schema2 "$id" = Ok VUndefined →
                   setSchemaDefinition h d1 schema2 = Ok d1.
Proof.
  intros Hid Hfree.
  assert (Hkey : ∀ s, getField h s "$id" = Ok VUndefined → idKey h s = Ok "undefined").
  { intros s Hs. unfold idKey. by rewrite Hs. }
  destruct (setSchemaDefinition_returns h d schema "undefined" (Hkey _ Hid)) as [d1 Hset].
  destruct (RegistryFacts.setSchemaDefinition_registers h d schema "undefined" d1
              (Hkey _ Hid) Hset) as (Hhas & Hget & _).
  exists d1. split_and!; [done | by apply Hget |].
  intros schema2 Hid2.
  by apply (RegistryFacts.setSchemaDefinition_present h d1 schema2 "undefined"); [apply Hkey|].
Qed.

Section DefineMore.
Context `{VQ : ValidatorQueue}.

Lemma define_registry fuel schema (w w1 : World) r :
  define fuel schema w = (w1, r) →
  definitionsObject w1 = definitionsObject w ∨
  setSchemaDefinition (store w) (definitionsObject w) schema = Ok (definitionsObject w1).
Proof.
  unfold define.
  destruct (getField (store w) schema "$id") as [id| |]; [|intros [= <- _]; by left..].
  destruct (hasSchemaDefinition _ _); [intros [= <- _]; by left|].
  destruct (setSchemaDefinition _ _ _) as [d| |]; [|intros [= <- _]; by left..].
  destruct (normalizeSchema fuel schema (store w)) as [[n h1]| |];
    [destruct (withValidator n h1 (validators w)) as [[h2 vs]| |]|..];
    intros [= <- _]; by right.
Qed.

(** X6.  The registry only grows.  Whatever way a call of [define]
    ends, it leaves every name other than the [$id] of its schema, and
    every name that was registered before, bound to what it was bound to:
    looking such a name up gives the same answer after the call as
    before. *)
Theorem define_keeps_definitions fuel schema (w w1 : World) r key :
  define fuel schema w = (w1, r) →
  idKey (store w) schema ≠ Ok key ∨ hasSchemaDefinition (definitionsObject w) key = true →
  hasSchemaDefinition (definitionsObject w1) key = hasSchemaDefinition (definitionsObject w) key ∧
  getSchemaDefinition (definitionsObject w1) key = getSchemaDefinition (definitionsObject w) key.
Proof.
  intros Hdef Hkey.
  assert (Hslot : readSlot (definitionsObject w1) key = readSlot (definitionsObject w) key).
  { destruct (define_registry _ _ _ _ _ Hdef) as [->|Hset]; [done|].
    by apply (setSchemaDefinition_frame _ _ _ _ _ Hset). }
  unfold hasSchemaDefinition, getSchemaDefinition. by rewrite Hslot.
Qed.

(** X7.  [define] registers before it normalizes.  When the name is
    free and [normalizeSchema] throws on the schema, the call throws, but
    the schema is registered all the same; a second call for it returns at
    once and does not normalize again. *)
Theorem define_registers_before_normalizing fuel fuel' schema (w : World) key e :
  idKey (store w) schema = Ok key →
  hasSchemaDefinition (definitionsObject w) key = false →
  normalizeSchema fuel schema (store w) = Throw e →
  ∃ w1, define fuel schema w = (w1, Throw e) ∧
        store w1 = store w ∧
        getSchemaDefinition (definitionsObject w1) key = Ok (Own schema) ∧
        define fuel' schema w1 = (w1, Ok ()).
Proof.
  intros Hkey Hfree Hnorm.
  destruct (define fuel schema w) as [w1 r] eqn:Hdef. exists w1.
  destruct (RegistryFacts.define_registers _ _ _ _ _ _ Hkey Hdef) as (Hhas & Hget & _).
  assert (Hw1 : r = Throw e ∧ store w1 = store w).
  { destruct (setSchemaDefinition_returns (store w) (definitionsObject w) schema key Hkey)
      as [d Hset].
    revert Hdef. unfold define. unfold idKey in Hkey.
    destruct (getField (store w) schema "$id") as [id| |]; simpl in Hkey; [|done..].
    injection Hkey as <-. rewrite Hfree, Hset, Hnorm. by intros [= <- <-]. }
  destruct Hw1 as [-> Hstore].
  split_and!; [done | done | by apply Hget |].
  apply (RegistryFacts.define_present _ _ _ key); [by rewrite Hstore | done].
Qed.

End DefineMore.

End RegistryMore.

Module ErrorsMore.
Import Schema Errors Paths Samples.

Section FragmentFacts.
Context `{ET : ErrorTypes} `{EL : !ErrorLib}.

Lemma splitSlash_segment s : slashFree s = true → splitSlash s = [s].
Proof.
  unfold slashFree. induction s as [|c s IH]; simpl; [done|].
  intros [Hc Hs]%andb_true_iff. rewrite (IH Hs).
  apply negb_true_iff in Hc. by rewrite Hc.
Qed.

Lemma splitSlash_last p s :
  slashFree s = true →
  ∃ x xs, splitSlash (p +:+ String "/" s) = x :: xs ++ [s].
Proof.
  intros Hs. induction p as [|c p (x & xs & IH)]; simpl.
  - rewrite (splitSlash_segment s Hs). by exists "", [].
  - rewrite IH. destruct (Ascii.eqb c "/").
    + by exists "", (x :: xs).
    + by exists (String c x), xs.
Qed.

Lemma getLastFragment_snoc (xs : list string) s path :
  splitSlash path = xs ++ [s] → getLastFragment path = fragmentOf s.
Proof.
  intros Hsplit. unfold getLastFragment, fragmentOf. rewrite Hsplit.
  rewrite length_app. simpl.
  replace (length xs + 1 =? 0)%nat with false by (symmetry; apply Nat.eqb_neq; lia).
  by rewrite last_snoc.
Qed.

(** X10.  Only the text after the last slash of an instance path counts:
    [getLastFragment] gives [undefined] when it is empty (the path is
    empty or ends in a slash), the number it denotes when it is numeric,
    and the text itself otherwise, whatever precedes it. *)
Theorem getLastFragment_last_segment p s :
  slashFree s = true →
  getLastFragment (p +:+ String "/" s) = fragmentOf s ∧
  getLastFragment s = fragmentOf s ∧
  getLastFragment (p +:+ "/") = FUndefined.
Proof.
  intros Hs. split_and!.
  - destruct (splitSlash_last p s Hs) as (x & xs & Hsplit).
    by apply (getLastFragment_snoc (x :: xs)).
  - apply (getLastFragment_snoc []). by apply splitSlash_segment.
  - destruct (splitSlash_last p "" eq_refl) as (x & xs & Hsplit).
    by rewrite (getLastFragment_snoc (x :: xs) "" _ Hsplit).
Qed.

(** X19.  [checkForSimilarKey] measures the distances from
    [String(getLastFragment(path))], which is not always the last
    segment of the path as it is written: it is the text ["undefined"]
    when the segment is empty, the text of the number when the segment
    reads as a number, and the segment itself otherwise.  With [m] the
    smallest distance from that text to the accepted keys, the returned
    error is the received one whose info gets one more line, the
    suggestion of the keys at distance [m] (ties keep all, in the order
    of the schema), unless three times [m] exceeds ten times the length
    of that text. *)
Theorem checkForSimilarKey_measures_fragment_text h error parse schema0 p seg id
    unnormalized keys :
  let text := if String.eqb seg "" then "undefined"
              else match toNumber seg with
                   | Some n => numberToString n
                   | None => seg
                   end in
  instancePath error = p +:+ String "/" seg ∨ instancePath error = seg →
  slashFree seg = true →
  errorSchemaOf (ajvError error) ≠ VUndefined →
  getField h (errorSchemaOf (ajvError error)) "$id" = Ok id →
  resolveSchema h id = Ok unnormalized →
  possibleSchemaKeys h unnormalized = Ok keys →
  keys ≠ [] →
  ∃ m, (∀ k, k ∈ keys → (m ≤ editDistance k text)%nat) ∧
       (∃ k, k ∈ keys ∧ editDistance k text = m) ∧
       checkForSimilarKey h error parse schema0 =
         Ok {| source := source error;
               violatingObject := violatingObject error;
               instancePath := instancePath error;
               message := message error;
               location := location error;
               niceError :=
                 {| heading := heading (niceError error);
                    Errors.error := Errors.error (niceError error);
                    info :=
                      if (10 * String.length text <? 3 * m)%nat
                      then info (niceError error)
                      else info (niceError error) ++
                           [didYouMean (filter (λ k, editDistance k text = m) keys)];
                    niceLocation := niceLocation (niceError error) |};
               ajvError := ajvError error |}.
Proof.
  intros text Hpath Hseg Hdef Hid Hres Hkeys Hne.
  assert (Hfrag : fragmentToString (getLastFragment (Errors.instancePath error)) = text).
  { assert (getLastFragment (Errors.instancePath error) = fragmentOf seg) as ->.
    { destruct Hpath as [-> | ->].
      - destruct (splitSlash_last p seg Hseg) as (x & xs & Hsplit).
        by apply (getLastFragment_snoc (x :: xs)).
      - apply (getLastFragment_snoc []). by apply splitSlash_segment. }
    unfold fragmentOf, text. destruct (String.eqb seg ""); [done|].
    by destruct (toNumber seg). }
  destruct (ErrorsFacts.checkForSimilarKey_result h error parse schema0 id unnormalized keys
              Hdef Hid Hres Hkeys Hne) as (m & Hlow & Hatt & Hrun).
  rewrite Hfrag in Hlow, Hatt, Hrun. by exists m.
Qed.

Lemma append_assoc (a b c : string) : (a +:+ b) +:+ c = a +:+ (b +:+ c).
Proof.
  induction a as [|x a IH]; [done|].
  change (String x ((a +:+ b) +:+ c) = String x (a +:+ b +:+ c)). by rewrite IH.
Qed.

Lemma join_snoc sep (xs : list string) y :
  xs ≠ [] → join sep (xs ++ [y]) = join sep xs +:+ sep +:+ y.
Proof.
  induction xs as [|x xs IH]; [done|]. intros _.
  destruct xs as [|x' xs]; [done|].
  change (join sep ((x :: x' :: xs) ++ [y]))
    with (x +:+ sep +:+ join sep ((x' :: xs) ++ [y])).
  rewrite IH by done.
  change (join sep (x :: x' :: xs)) with (x +:+ sep +:+ join sep (x' :: xs)).
  by rewrite !append_assoc.
Qed.

(** X11.  The wording of the suggestion.  One key gives
    ["Did you mean a?"], two give ["Did you mean a or b?"], and three or
    more are separated by commas with ["or"] before the last one, after
    a comma: ["Did you mean a, b, or c?"]. *)
Theorem didYouMean_wording :
  (∀ a, didYouMean [a] = "Did you mean " +:+ blue a +:+ "?") ∧
  (∀ a b, didYouMean [a; b] = "Did you mean " +:+ blue a +:+ " or " +:+ blue b +:+ "?") ∧
  (∀ xs y, (2 ≤ length xs)%nat →
     didYouMean (xs ++ [y]) =
       "Did you mean " +:+ join ", " (map blue xs) +:+ ", or " +:+ blue y +:+ "?").
Proof.
  split_and!; [done|done|].
  intros xs y Hlen. unfold didYouMean.
  assert (Hl : length (map blue (xs ++ [y])) = S (length xs)).
  { rewrite length_map, length_app. simpl. lia. }
  destruct (map blue (xs ++ [y])) as [|u [|v [|w rest]]] eqn:Hm;
    [simpl in Hl; lia..|].
  rewrite <- Hm in Hl |- *. rewrite Hl.
  replace (S (length xs) - 1)%nat with (length xs) by lia.
  rewrite map_app. rewrite take_app_length', drop_app_length' by (by rewrite length_map).
  simpl map at 2.
  rewrite join_snoc by (destruct xs; [simpl in Hlen; lia|done]).
  by rewrite !append_assoc.
Qed.

End FragmentFacts.

End ErrorsMore.

Module LocateFacts.
Import TreeSitter Parsing Locate Samples.

(** *** The shape of the indentation tree *)

Lemma nthZ_app_l {A} (xs ys : list A) z :
  0 ≤ z < Z.of_nat (length xs) → nthZ (xs ++ ys) z = nthZ xs z.
Proof.
  intros Hz. unfold nthZ. destruct (z <? 0); [done|].
  apply lookup_app_l. lia.
Qed.

Lemma nthZ_lookup {A} (xs : list A) (i : nat) : nthZ xs (Z.of_nat i) = xs !! i.
Proof.
  unfold nthZ. destruct (Z.of_nat i <? 0) eqn:E; [apply Z.ltb_lt in E; lia|].
  by rewrite Nat2Z.id.
Qed.

Lemma nthZ_range {A} (xs : list A) z x :
  nthZ xs z = Some x → 0 ≤ z < Z.of_nat (length xs).
Proof.
  unfold nthZ. destruct (z <? 0) eqn:E; [done|]. apply Z.ltb_ge in E.
  intros H%lookup_lt_Some. lia.
Qed.

Lemma nthZ_inside_Some {A} (xs : list A) z :
  0 ≤ z < Z.of_nat (length xs) → ∃ x, nthZ xs z = Some x.
Proof.
  intros Hz. unfold nthZ. destruct (z <? 0) eqn:E; [apply Z.ltb_lt in E; lia|].
  apply lookup_lt_is_Some_2. lia.
Qed.

Lemma arrayGet_app_l (a b : jsarray) z :
  0 ≤ z < Z.of_nat (length a) → arrayGet (a ++ b) z = arrayGet a z.
Proof. intros Hz. unfold arrayGet. by rewrite nthZ_app_l. Qed.

Lemma arrayGet_snoc (a : jsarray) x : arrayGet (a ++ [x]) (Z.of_nat (length a)) = x.
Proof.
  unfold arrayGet. rewrite nthZ_lookup.
  rewrite lookup_app_r by lia. by rewrite Nat.sub_diag.
Qed.

Lemma arrayGet_indents (ls : list string) z l :
  nthZ ls z = Some l →
  arrayGet (map (λ l, Some (getIndent l)) ls) z = Some (getIndent l).
Proof.
  unfold arrayGet, nthZ. destruct (z <? 0); [done|].
  intros H. by rewrite list_lookup_fmap, H.
Qed.

(** Where the inner loop of [getYamlIndentTree] stops. *)
Lemma descend_stops pred ind li : ∀ fuel v q,
  descend fuel pred ind li v = Ok (Some q) →
  q < 0 ∨ arrayGet ind q = None ∨ ∃ iv, arrayGet ind q = Some iv ∧ iv < li.
Proof.
  induction fuel as [|fuel IH]; intros [v|] q; simpl; try done.
  - destruct (0 <=? v) eqn:E0; simpl.
    + destruct (arrayGet ind v) as [iv|] eqn:Hiv.
      * destruct (li <=? iv) eqn:E1; [done|]. intros [= <-].
        apply Z.leb_gt in E1. right. right. by exists iv.
      * intros [= <-]. by right; left.
    + intros [= <-]. apply Z.leb_gt in E0. by left.
  - destruct (0 <=? v) eqn:E0; simpl.
    + destruct (arrayGet ind v) as [iv|] eqn:Hiv.
      * destruct (li <=? iv) eqn:E1; [apply IH|]. intros [= <-].
        apply Z.leb_gt in E1. right. right. by exists iv.
      * intros [= <-]. by right; left.
    + intros [= <-]. apply Z.leb_gt in E0. by left.
Qed.

Lemma shape_extend (ls : list string) st line x prev' ind' :
  length (predecessor st) = length ls →
  IndentShape ls st →
  (prev' = prevPredecessor st ∧ ind' = indentation st ∧
     prevPredecessor st < Z.of_nat (length ls) ∧ isBlank line = true) ∨
  (prev' = Z.of_nat (length ls) ∧ ind' = getIndent line ∧
     ∀ p, x = Some p → 0 ≤ p → ∃ lp, nthZ ls p = Some lp ∧ getIndent lp < getIndent line) →
  IndentShape (ls ++ [line])
    {| predecessor := predecessor st ++ [x];
       indents := indents st ++ [Some (getIndent line)];
       indentation := ind';
       prevPredecessor := prev' |}.
Proof.
  intros Hlp [Hsi Hsp Hpar] Hcase. constructor; cbn [predecessor indents indentation prevPredecessor].
  - unfold indentsOf in *. by rewrite Hsi, map_app.
  - intros l Hl. destruct Hcase as [(-> & -> & Hlt & _)|(-> & -> & _)].
    + apply Hsp. rewrite <- Hl. symmetry. apply nthZ_app_l.
      split; [|done]. unfold nthZ in Hl.
      destruct (prevPredecessor st <? 0) eqn:E; [done|]. by apply Z.ltb_ge in E.
    + rewrite nthZ_lookup in Hl. rewrite lookup_app_r in Hl by lia.
      rewrite Nat.sub_diag in Hl. by injection Hl as <-.
  - intros i l p Hi Hcond Hp Hp0.
    assert (Hold : ∀ lp, nthZ ls p = Some lp → nthZ (ls ++ [line]) p = Some lp).
    { intros lp Hlp'. rewrite nthZ_app_l; [done|]. by eapply nthZ_range. }
    apply lookup_app_Some in Hi as [Hi|[Hge Hi]].
    + pose proof (lookup_lt_Some _ _ _ Hi) as Hlt.
      rewrite arrayGet_app_l in Hp by lia.
      assert (Hcond' : isBlank l = false ∨ Z.of_nat i = prevPredecessor st).
      { destruct Hcond as [?|Heq]; [by left|].
        destruct Hcase as [(-> & _)|(-> & _)]; [by right|lia]. }
      destruct (Hpar i l p Hi Hcond' Hp Hp0) as (lp & Hlp' & ?).
      exists lp. split; [by apply Hold|done].
    + destruct (i - length ls)%nat eqn:E; simpl in Hi; [|done]. injection Hi as <-.
      assert (i = length ls) as -> by lia.
      rewrite <- Hlp, arrayGet_snoc in Hp.
      destruct Hcase as [(-> & _ & Hlt & Hb)|(_ & _ & Hnew)].
      * destruct Hcond as [Hnb|Heq]; [congruence|lia].
      * destruct (Hnew p Hp Hp0) as (lp & Hlp' & ?).
        exists lp. split; [by apply Hold|done].
Qed.

Lemma indentStep_shape fuel (ls : list string) st line st' :
  IndentInv (length ls) st → (length ls ≤ fuel)%nat → IndentShape ls st →
  indentStep fuel st (Z.of_nat (length ls)) line = Ok st' →
  IndentShape (ls ++ [line]) st'.
Proof.
  intros [Hlp Hli Hpred Hind Hprev Hindent] Hfuel Hshape.
  pose proof Hshape as [Hsi Hsp Hpar].
  pose proof (ParsingFacts.getIndent_nonneg line) as Hnn.
  assert (Hset : ∀ x, arraySet (predecessor st) (Z.of_nat (length ls)) x = predecessor st ++ [x]).
  { intros x. rewrite <- Hlp. apply ParsingFacts.arraySet_end. }
  assert (Hprevline : 0 ≤ prevPredecessor st →
            ∃ lprev, nthZ ls (prevPredecessor st) = Some lprev ∧
                     getIndent lprev = indentation st).
  { intros H0. destruct (nthZ_inside_Some ls (prevPredecessor st)) as [lprev Hl]; [lia|].
    exists lprev. split; [done|]. by apply Hsp. }
  unfold indentStep. rewrite !Hset.
  destruct (indentation st <? getIndent line) eqn:E1.
  { apply Z.ltb_lt in E1. intros [= <-]. apply shape_extend; [done|done|]. right.
    split_and!; [done|done|]. intros p [= <-] Hp0.
    destruct (Hprevline Hp0) as (lprev & Hl & Hgi). exists lprev. split; [done|lia]. }
  apply Z.ltb_ge in E1.
  assert (Hprev0 : 0 ≤ prevPredecessor st) by (apply Hindent; lia).
  destruct (Hprevline Hprev0) as (lprev & Hlprev & Hgi).
  destruct (String.length (trim line) =? 0)%nat eqn:Eb.
  { intros [= <-]. apply shape_extend; [done|done|]. left. split_and!; try done; lia. }
  destruct (getIndent line =? indentation st) eqn:E2.
  { apply Z.eqb_eq in E2. intros [= <-]. apply shape_extend; [done|done|]. right.
    split_and!; [done|done|]. intros p Hp Hp0.
    destruct (Hpar (Z.to_nat (prevPredecessor st)) lprev p) as (lp & Hlp' & Hlt).
    - unfold nthZ in Hlprev. by destruct (prevPredecessor st <? 0).
    - right. lia.
    - by rewrite Z2Nat.id.
    - done.
    - exists lp. split; [done|lia]. }
  apply Z.eqb_neq in E2.
  destruct (getIndent line <? indentation st) eqn:E3; [|done].
  apply Z.ltb_lt in E3.
  destruct (ParsingFacts.descend_ends (predecessor st) (indents st ++ [Some (getIndent line)])
              (getIndent line) Hpred fuel (prevPredecessor st) ltac:(lia) ltac:(lia))
    as (q & Hq & Hqr).
  rewrite Hq. cbn [mbind outcome_bind]. rewrite Hset. intros [= <-].
  apply shape_extend; [done|done|]. right.
  split_and!; [done|done|]. intros p [= <-] Hp0.
  destruct (nthZ_inside_Some ls q) as [lq Hlq]; [lia|].
  exists lq. split; [done|].
  apply descend_stops in Hq as [?|[Hnone|(iv & Hiv & Hlt)]]; [lia| |].
  - rewrite arrayGet_app_l in Hnone by lia.
    rewrite Hsi in Hnone. by rewrite (arrayGet_indents ls q lq Hlq) in Hnone.
  - rewrite arrayGet_app_l in Hiv by lia.
    rewrite Hsi in Hiv. rewrite (arrayGet_indents ls q lq Hlq) in Hiv.
    injection Hiv as <-. done.
Qed.

Lemma indentLoop_shape fuel : ∀ rest ls st,
  IndentInv (length ls) st → IndentShape ls st →
  (length ls + length rest ≤ fuel)%nat →
  ∃ st', indentLoop fuel st (Z.of_nat (length ls)) rest = Ok st' ∧
         IndentInv (length ls + length rest) st' ∧
         IndentShape (ls ++ rest) st'.
Proof.
  induction rest as [|line rest IH]; intros ls st Hinv Hshape Hfuel; simpl in *.
  - exists st. rewrite Nat.add_0_r, app_nil_r. done.
  - destruct (ParsingFacts.indentStep_inv fuel (length ls) st line Hinv ltac:(lia))
      as (st1 & Hst1 & Hinv1).
    pose proof (indentStep_shape fuel ls st line st1 Hinv ltac:(lia) Hshape Hst1) as Hshape1.
    rewrite Hst1. cbn [mbind outcome_bind].
    replace (Z.of_nat (length ls) + 1) with (Z.of_nat (length (ls ++ [line])))
      by (rewrite length_app; simpl; lia).
    replace (S (length ls)) with (length (ls ++ [line])) in Hinv1
      by (rewrite length_app; simpl; lia).
    destruct (IH (ls ++ [line]) st1 Hinv1 Hshape1) as (st2 & Hst2 & Hinv2 & Hshape2).
    { rewrite length_app. simpl. lia. }
    exists st2. split; [done|].
    rewrite length_app in Hinv2. simpl in Hinv2.
    replace (length ls + 1 + length rest)%nat with (length ls + S (length rest))%nat
      in Hinv2 by lia.
    split; [done|]. by rewrite <- app_assoc in Hshape2.
Qed.

Section TreeFacts.
Context `{TL : TextLib}.

Lemma getYamlIndentTree_run fuel code :
  (length (lines code) ≤ fuel)%nat →
  ∃ st, getYamlIndentTree fuel code = Ok (predecessor st, indents st) ∧
        IndentInv (length (lines code)) st ∧ IndentShape (lines code) st.
Proof.
  intros Hfuel. unfold getYamlIndentTree.
  destruct (indentLoop_shape fuel (lines code) []
              {| predecessor := []; indents := []; indentation := -1; prevPredecessor := -1 |})
    as (st & Hst & Hinv & Hshape).
  - constructor; simpl; try done; try lia.
  - constructor; simpl; try done.
  - simpl. lia.
  - change (Z.of_nat (length [])) with 0 in Hst. rewrite Hst.
    exists st. done.
Qed.

(** X12.  The indentation tree.  [getYamlIndentTree] records the
    indentation of every line, and the predecessor it gives to a line
    that is not blank is -1 or a line with a strictly smaller
    indentation. *)
Theorem getYamlIndentTree_parents fuel code :
  (length (lines code) ≤ fuel)%nat →
  ∃ pred ind,
    getYamlIndentTree fuel code = Ok (pred, ind) ∧
    indentsOf (lines code) ind ∧
    parentsShallower (lines code) pred.
Proof.
  intros Hfuel.
  destruct (getYamlIndentTree_run fuel code Hfuel) as (st & Hrun & _ & [Hsi _ Hpar]).
  exists (predecessor st), (indents st). split_and!; [done|done|].
  intros i l p Hi Hb Hp Hp0. apply (Hpar i l p Hi); [by left|done|done].
Qed.

End TreeFacts.

(** *** The walk up the tree *)

Lemma skipBlank_ends ls : ∀ fuel z,
  -1 ≤ z < Z.of_nat (length ls) → z < Z.of_nat fuel →
  ∃ prev, skipBlank fuel ls z = Ok prev ∧ -1 ≤ prev ≤ z ∧
          (∀ l, nthZ ls z = Some l → isBlank l = true → prev < z).
Proof.
  induction fuel as [|fuel IH]; intros z Hz Hf.
  - assert (z = -1) as -> by lia. exists (-1). split; [done|split; [lia|]].
    intros l Hl%nthZ_range. lia.
  - simpl. destruct (0 <=? z) eqn:E0.
    + apply Z.leb_le in E0.
      destruct (nthZ_inside_Some ls z ltac:(lia)) as [l Hl]. rewrite Hl.
      destruct (isBlank l) eqn:Hb.
      * destruct (IH (z - 1) ltac:(lia) ltac:(lia)) as (prev & Hprev & Hr & _).
        exists prev. split; [done|split; [lia|]]. intros; lia.
      * exists z. split; [done|split; [lia|]]. intros l' [= <-]. congruence.
    + apply Z.leb_gt in E0. exists z. split; [done|split; [lia|]].
      intros l Hl%nthZ_range. lia.
Qed.

Lemma skipBlank_below ls : ∀ fuel z prev, skipBlank fuel ls z = Ok prev → prev ≤ z.
Proof.
  induction fuel as [|fuel IH]; intros z prev; simpl.
  - destruct (0 <=? z); [|intros [= <-]; lia].
    destruct (nthZ ls z) as [l|]; [|done].
    destruct (isBlank l); [done|intros [= <-]; lia].
  - destruct (0 <=? z); [|intros [= <-]; lia].
    destruct (nthZ ls z) as [l|]; [|done].
    destruct (isBlank l); [|intros [= <-]; lia].
    intros H%IH. lia.
Qed.

Lemma visitLine_cases li ind z trimmed path :
  visitLine li ind z trimmed path = Ok path ∨
  visitLine li ind z trimmed path = Ok (path ++ [PIndex 0]) ∨
  (visitLine li ind z trimmed path = Ok (path ++ [PKey (dropLast trimmed)]) ∧
   endsWithColon trimmed = true ∧ ∃ iv, arrayGet ind z = Some iv ∧ iv ≤ li) ∨
  visitLine li ind z trimmed path =
    Throw (InternalError "Internal error: this shouldn't have happened").
Proof.
  unfold visitLine. destruct (arrayGet ind z) as [iv|]; [|by left].
  destruct (iv <=? li) eqn:E; [|by left]. apply Z.leb_le in E.
  destruct (startsWithDash trimmed); [by right; left|].
  destruct (endsWithColon trimmed); [right; right; left; eauto|].
  destruct (negb _); [by right; right; right|by left].
Qed.

Section LoopFacts.
Variables (ls : list string) (pred ind : jsarray) (li : Z).
Hypothesis Hpred : predecessorsBelow pred.
Hypothesis Hlen : length pred = length ls.

Lemma locateLoop_outside fuel z path :
  z < -1 ∨ Z.of_nat (length ls) ≤ z →
  locateLoop fuel ls pred ind li (Some z) path = Throw TypeError.
Proof.
  intros Hz.
  assert (Hnone : nthZ ls z = None).
  { destruct (nthZ ls z) eqn:E; [|done]. apply nthZ_range in E. lia. }
  destruct fuel; simpl; (rewrite decide_False by (intros [=]; lia)); by rewrite Hnone.
Qed.

(** The loop ends, with a path or on the internal error of line 223. *)
Lemma locateLoop_ends : ∀ fuel z path,
  -1 ≤ z < Z.of_nat (length ls) → z < Z.of_nat fuel →
  (∃ r, locateLoop fuel ls pred ind li (Some z) path = Ok r) ∨
  locateLoop fuel ls pred ind li (Some z) path =
    Throw (InternalError "Internal error: this shouldn't have happened").
Proof.
  induction fuel as [|fuel IH]; intros z path Hz Hf.
  { assert (z = -1) as -> by lia. left. by exists path. }
  cbn [locateLoop].
  destruct (decide (Some z = Some (-1))) as [|Hne]; [left; by exists path|].
  assert (0 ≤ z) by (destruct (decide (z = -1)); [congruence|lia]).
  destruct (nthZ_inside_Some ls z ltac:(lia)) as [l Hl].
  cbn [mbind option_bind]. rewrite Hl.
  assert (Hvisit : ∀ path0,
    (∃ r, (path' ← visitLine li ind z (trim l) path0;
           locateLoop fuel ls pred ind li (arrayGet pred z) path') = Ok r) ∨
    (path' ← visitLine li ind z (trim l) path0;
     locateLoop fuel ls pred ind li (arrayGet pred z) path') =
      Throw (InternalError "Internal error: this shouldn't have happened")).
  { intros path0.
    destruct (ParsingFacts.arrayGet_below pred z Hpred ltac:(lia)) as (p & Hp & Hpr).
    rewrite Hp.
    destruct (visitLine_cases li ind z (trim l) path0) as [->|[->|[(-> & _)| ->]]];
      cbn [mbind outcome_bind]; [apply IH; lia..|by right]. }
  destruct (String.length (trim l) =? 0)%nat eqn:Eb; [|apply Hvisit].
  destruct (skipBlank_ends ls (S fuel) z ltac:(lia) ltac:(lia)) as (prev & Hsk & Hr & Hlt).
  rewrite Hsk. cbn [mbind outcome_bind].
  destruct (prev =? -1) eqn:E1; [left; by exists path|]. apply Z.eqb_neq in E1.
  destruct (nthZ_inside_Some ls prev ltac:(lia)) as [lp Hlp]. rewrite Hlp.
  destruct (getIndent lp <? li); [|apply Hvisit].
  apply IH; [lia|]. specialize (Hlt l Hl Eb). lia.
Qed.

End LoopFacts.

Lemma dropLast_colon s : endsWithColon s = true → s = dropLast s +:+ ":".
Proof.
  unfold dropLast. replace (String.length s - 1)%nat with (Nat.pred (String.length s)) by lia.
  induction s as [|c s IH]; [done|].
  destruct s as [|c' s'].
  - simpl. intros Hc%Ascii.eqb_eq. by subst.
  - intros He. specialize (IH He).
    change (String c (String c' s') =
            String c (String.substring 0 (Nat.pred (String.length (String c' s')))
                        (String c' s') +:+ ":")).
    by rewrite <- IH.
Qed.

Section PathFacts.
Variables (ls : list string) (pred ind : jsarray) (li : Z).
Hypothesis Hpred : predecessorsBelow pred.
Hypothesis Hlen : length pred = length ls.
Hypothesis Hind : indentsOf ls ind.

Lemma fromLine_top top top' e : top ≤ top' → fromLine ls li top e → fromLine ls li top' e.
Proof.
  intros Hle [->|(i & l & k & -> & Hl & Ht & Hi & Hi')]; [by left|].
  right. exists i, l, k. split_and!; try done. lia.
Qed.

Lemma locateLoop_path top : ∀ fuel z path r,
  z ≤ top → Forall (fromLine ls li top) path →
  locateLoop fuel ls pred ind li (Some z) path = Ok r →
  Forall (fromLine ls li top) r.
Proof.
  induction fuel as [|fuel IH]; intros z path r Hz Hpath; cbn [locateLoop].
  { destruct (decide (Some z = Some (-1))); [by intros [= <-]|].
    cbn [mbind option_bind]. by destruct (nthZ ls z). }
  destruct (decide (Some z = Some (-1))); [by intros [= <-]|].
  cbn [mbind option_bind]. destruct (nthZ ls z) as [l|] eqn:Hl; [|done].
  pose proof (nthZ_range _ _ _ Hl) as Hr.
  assert (Hvisit :
    (path' ← visitLine li ind z (trim l) path;
     locateLoop fuel ls pred ind li (arrayGet pred z) path') = Ok r →
    Forall (fromLine ls li top) r).
  { destruct (ParsingFacts.arrayGet_below pred z Hpred ltac:(lia)) as (p & Hp & Hpr).
    rewrite Hp.
    destruct (visitLine_cases li ind z (trim l) path)
      as [->|[->|[(-> & Hcolon & iv & Hiv & Hle)| ->]]]; cbn [mbind outcome_bind]; [| | |done].
    - apply IH; [lia|done].
    - apply IH; [lia|]. apply Forall_app. split; [done|].
      constructor; [by left|constructor].
    - apply IH; [lia|]. apply Forall_app. split; [done|].
      constructor; [|constructor].
      right. exists (Z.to_nat z), l, (dropLast (trim l)).
      rewrite Hind in Hiv. rewrite (arrayGet_indents ls z l Hl) in Hiv. injection Hiv as <-.
      split_and!; [done| |by apply dropLast_colon|done|lia].
      unfold nthZ in Hl. by destruct (z <? 0). }
  destruct (String.length (trim l) =? 0)%nat; [|exact Hvisit].
  destruct (skipBlank (S fuel) ls z) as [prev| |] eqn:Hsk; cbn [mbind outcome_bind]; [|done..].
  apply skipBlank_below in Hsk.
  destruct (prev =? -1); [by intros [= <-]|].
  destruct (nthZ ls prev) as [lp|]; [|done].
  destruct (getIndent lp <? li); [|exact Hvisit].
  apply IH; [lia|done].
Qed.

End PathFacts.

Section LocatorFacts.
Context `{TL : TextLib}.

(** X13.  [locateFromIndentation] always ends.  With the cursor on row
    -1 it returns the empty path; with the cursor on a row outside the
    buffer it throws a [TypeError]; on a row of the buffer the walk up the
    indentation tree ends with a path or with the internal error of
    line 223, and never runs on. *)
Theorem locateFromIndentation_ends fuel context :
  let ls := lines (value (asMappedString (loc_code context))) in
  let r := row (loc_position context) in
  (length ls ≤ fuel)%nat →
  (r = -1 → locateFromIndentation fuel context = Ok []) ∧
  (r < -1 ∨ Z.of_nat (length ls) ≤ r →
     locateFromIndentation fuel context = Throw TypeError) ∧
  (0 ≤ r < Z.of_nat (length ls) →
     (∃ path, locateFromIndentation fuel context = Ok path) ∨
     locateFromIndentation fuel context =
       Throw (InternalError "Internal error: this shouldn't have happened")).
Proof.
  intros ls r Hfuel. unfold locateFromIndentation.
  destruct (getYamlIndentTree_run fuel _ Hfuel) as (st & -> & [Hlp _ Hpred _ _ _] & _).
  cbn [mbind outcome_bind fst snd]. fold ls. fold r. split_and!.
  - intros ->. destruct fuel; simpl; done.
  - intros Hr. by rewrite (locateLoop_outside ls).
  - intros Hr.
    destruct (locateLoop_ends ls (predecessor st) (indents st)
                (getIndent (loc_line context)) Hpred Hlp fuel r [] ltac:(lia) ltac:(lia))
      as [[path ->]| ->]; cbn [mbind outcome_bind]; [left; by eexists|by right].
Qed.

(** X14.  What a path is made of.  Every element of the path returned
    by [locateFromIndentation] is the index 0 or the key of a line of the
    buffer that ends in a colon, lies at or above the cursor row and is
    indented no deeper than the editing line. *)
Theorem locateFromIndentation_path fuel context path :
  let ls := lines (value (asMappedString (loc_code context))) in
  (length ls ≤ fuel)%nat →
  locateFromIndentation fuel context = Ok path →
  Forall (fromLine ls (getIndent (loc_line context)) (row (loc_position context))) path.
Proof.
  intros ls Hfuel. unfold locateFromIndentation.
  destruct (getYamlIndentTree_run fuel _ Hfuel) as (st & -> & [Hlp _ Hpred _ _ _] & [Hsi _ _]).
  cbn [mbind outcome_bind fst snd]. fold ls.
  destruct (locateLoop _ _ _ _ _ _ _) as [p| |] eqn:Hloop; cbn [mbind outcome_bind]; [|done..].
  intros [= <-]. apply Forall_rev.
  apply (locateLoop_path ls (predecessor st) (indents st) _ Hpred Hlp Hsi _ fuel
           (row (loc_position context)) [] p); [lia|done|done].
Qed.

(** X15.  The cursor on a line that holds more than a key.  When the
    line of the cursor row is not blank, is not a sequence entry and does
    not end in a colon (as [title: x]), and the editing line is indented
    at least as deep, the call throws the internal error of line 223. *)
Theorem locateFromIndentation_value_line fuel context (i : nat) l :
  let ls := lines (value (asMappedString (loc_code context))) in
  (length ls ≤ fuel)%nat →
  row (loc_position context) = Z.of_nat i →
  ls !! i = Some l →
  isBlank l = false →
  startsWithDash (trim l) = false →
  endsWithColon (trim l) = false →
  getIndent l ≤ getIndent (loc_line context) →
  locateFromIndentation fuel context =
    Throw (InternalError "Internal error: this shouldn't have happened").
Proof.
  intros ls Hfuel Hrow Hl Hb Hd Hc Hi. unfold locateFromIndentation.
  destruct (getYamlIndentTree_run fuel _ Hfuel) as (st & -> & _ & [Hsi _ _]).
  cbn [mbind outcome_bind fst snd]. fold ls. rewrite Hrow.
  pose proof (lookup_lt_Some _ _ _ Hl) as Hlt.
  destruct fuel as [|fuel]; [lia|]. cbn [locateLoop].
  rewrite decide_False by (intros [=]; lia).
  cbn [mbind option_bind]. rewrite nthZ_lookup, Hl.
  unfold isBlank in Hb. rewrite Hb.
  unfold visitLine. unfold indentsOf in Hsi. fold ls in Hsi. rewrite Hsi.
  rewrite (arrayGet_indents ls (Z.of_nat i) l) by (by rewrite nthZ_lookup).
  replace (getIndent l <=? getIndent (loc_line context)) with true
    by (symmetry; by apply Z.leb_le).
  rewrite Hd, Hc, Hb. done.
Qed.

End LocatorFacts.

End LocateFacts.

Module RenormalizeFacts.
Import Schema Renormalize Samples.

Lemma normalizeEach_settles js : ∀ js',
  Forall settles js →
  normalizeEach js = Ok js' →
  normalizeEach js' = Ok js' ∧
  (forallb uniqueKeys js = true → forallb uniqueKeys js' = true) ∧
  (jsize (JArr js') ≤ jsize (JArr js))%nat.
Proof.
  induction js as [|x xs IH]; intros js' Hall; cbn [normalizeEach].
  { by intros [= <-]. }
  apply Forall_cons in Hall as [Hx Hxs].
  destruct (normalizeJson x) as [x'| |] eqn:Ex; cbn [mbind outcome_bind]; [|done..].
  destruct (normalizeEach xs) as [xs'| |] eqn:Exs; cbn [mbind outcome_bind]; [|done..].
  intros [= <-].
  destruct (Hx x' Ex) as (Hfix & _ & Hu & Hsz).
  destruct (IH xs' Hxs eq_refl) as (Hfix' & Hu' & Hsz').
  split_and!.
  - cbn [normalizeEach]. rewrite Hfix. cbn [mbind outcome_bind]. by rewrite Hfix'.
  - cbn [forallb]. intros [? ?]%andb_true_iff. apply andb_true_iff. auto.
  - simpl in *. lia.
Qed.

Lemma normalizeOwn_settles pfs : ∀ pfs',
  Forall (λ f, settles f.2) pfs →
  normalizeOwn pfs = Ok pfs' →
  normalizeOwn pfs' = Ok pfs' ∧
  map fst pfs' = map fst pfs ∧
  (forallb (λ f, uniqueKeys f.2) pfs = true → forallb (λ f, uniqueKeys f.2) pfs' = true) ∧
  (jsize (JObj pfs') ≤ jsize (JObj pfs))%nat.
Proof.
  induction pfs as [|[k x] xs IH]; intros pfs' Hall; cbn [normalizeOwn].
  { by intros [= <-]. }
  apply Forall_cons in Hall as [Hx Hxs]. cbn [snd] in Hx.
  destruct (normalizeJson x) as [x'| |] eqn:Ex; cbn [mbind outcome_bind]; [|done..].
  destruct (normalizeOwn xs) as [xs'| |] eqn:Exs; cbn [mbind outcome_bind]; [|done..].
  intros [= <-].
  destruct (Hx x' Ex) as (Hfix & _ & Hu & Hsz).
  destruct (IH xs' Hxs eq_refl) as (Hfix' & Hk & Hu' & Hsz').
  split_and!.
  - cbn [normalizeOwn]. rewrite Hfix. cbn [mbind outcome_bind]. by rewrite Hfix'.
  - simpl. by rewrite Hk.
  - cbn [forallb snd]. intros [? ?]%andb_true_iff. apply andb_true_iff. auto.
  - simpl in *. lia.
Qed.

Lemma normalizeChild_settles kind v v' :
  (∀ x, (jsize x < jsize v)%nat → settles x) → settles v →
  normalizeChild kind v = Ok v' →
  normalizeChild kind v' = Ok v' ∧
  truthyJ v' = truthyJ v ∧
  (uniqueKeys v = true → uniqueKeys v' = true) ∧
  (jsize v' ≤ jsize v)%nat ∧
  (kind = Skip → v' = v).
Proof.
  intros Hsub Hv. destruct kind; cbn [normalizeChild].
  - destruct (truthyJ v) eqn:Ht.
    + intros Hn. destruct (Hv v' Hn) as (Hfix & Htr & Hu & Hsz).
      rewrite Htr, Ht. by split_and!.
    + intros [= <-]. rewrite Ht. by split_and!.
  - destruct v as [| | |s|js|fs]; try done.
    + intros [= <-]. by split_and!.
    + destruct (normalizeEach js) as [js'| |] eqn:Ejs; cbn [mbind outcome_bind]; [|done..].
      intros [= <-].
      destruct (normalizeEach_settles js js') as (Hfix & Hu & Hsz); [|done|].
      { eapply Forall_impl; [apply (NormalizeFacts.jsize_elems js)|]. intros x Hx. by apply Hsub. }
      rewrite Hfix. by split_and!.
  - destruct v as [| | |s|js|fs]; try (intros [= <-]; by split_and!).
    + destruct (normalizeEach js) as [js'| |] eqn:Ejs; cbn [mbind outcome_bind]; [|done..].
      intros [= <-].
      destruct (normalizeEach_settles js js') as (Hfix & Hu & Hsz); [|done|].
      { eapply Forall_impl; [apply (NormalizeFacts.jsize_elems js)|]. intros x Hx. by apply Hsub. }
      rewrite Hfix. by split_and!.
    + destruct (normalizeOwn fs) as [fs'| |] eqn:Efs; cbn [mbind outcome_bind]; [|done..].
      intros [= <-].
      destruct (normalizeOwn_settles fs fs') as (Hfix & Hk & Hu & Hsz); [|done|].
      { eapply Forall_impl; [apply (NormalizeFacts.jsize_fields fs)|]. intros x Hx. by apply Hsub. }
      rewrite Hfix. split_and!; [done|done| |done|done].
      cbn [uniqueKeys]. rewrite Hk. intros [? ?]%andb_true_iff. apply andb_true_iff. auto.
  - intros [= <-]. by split_and!.
Qed.

Lemma normalizeFields_settles t fs : ∀ fs',
  Forall (λ f, ∀ x, (jsize x ≤ jsize f.2)%nat → settles x) fs →
  normalizeFields t fs = Ok fs' →
  normalizeFields t fs' = Ok fs' ∧
  (∀ k, isAuthoring k = false →
     match assoc k fs, assoc k fs' with
     | Some v, Some v' => truthyJ v' = truthyJ v ∧ (kindOf t k = Skip → v' = v)
     | None, None => True
     | _, _ => False
     end) ∧
  (∀ k, k ∈ map fst fs' → k ∈ map fst fs) ∧
  (forallb (λ f, uniqueKeys f.2) fs = true → forallb (λ f, uniqueKeys f.2) fs' = true) ∧
  (jsize (JObj fs') ≤ jsize (JObj fs))%nat.
Proof.
  induction fs as [|[k0 v0] r IH]; intros fs' Hall; cbn [normalizeFields].
  { intros [= <-]. by split_and!. }
  apply Forall_cons in Hall as [Hv0 Hr]. cbn [snd] in Hv0.
  destruct (isAuthoring k0 && truthyJ v0) eqn:Hd.
  { intros Hn. destruct (IH fs' Hr Hn) as (Hfix & Has & Hkeys & Hu & Hsz).
    split_and!; [done| | | |].
    - intros k Hk. specialize (Has k Hk). cbn [assoc].
      destruct (String.eqb k k0) eqn:E; [|done].
      apply String.eqb_eq in E as ->. by rewrite Hk in Hd.
    - intros k Hin. right. by apply Hkeys.
    - cbn [forallb snd]. intros [_ ?]%andb_true_iff. auto.
    - simpl in *. lia. }
  destruct (normalizeChild (kindOf t k0) v0) as [v'| |] eqn:Hv;
    cbn [mbind outcome_bind]; [|done..].
  destruct (normalizeFields t r) as [r'| |] eqn:Hrest; cbn [mbind outcome_bind]; [|done..].
  intros [= <-].
  destruct (IH r' Hr eq_refl) as (Hfix & Has & Hkeys & Hu & Hsz).
  destruct (normalizeChild_settles (kindOf t k0) v0 v') as (Hcfix & Hctr & Hcu & Hcsz & Hskip);
    [intros x Hx; apply Hv0; lia | apply Hv0; lia | done |].
  split_and!.
  - cbn [normalizeFields]. rewrite Hctr, Hd, Hcfix. cbn [mbind outcome_bind]. by rewrite Hfix.
  - intros k Hk. specialize (Has k Hk). cbn [assoc].
    destruct (String.eqb k k0) eqn:E; [|done].
    apply String.eqb_eq in E as ->. done.
  - intros k [->|Hin]%elem_of_cons; [by left|right; by apply Hkeys].
  - cbn [forallb snd]. intros [? ?]%andb_true_iff. apply andb_true_iff. auto.
  - simpl in *. lia.
Qed.

Lemma normalizeFields_NoDup t fs : ∀ fs',
  normalizeFields t fs = Ok fs' → NoDup (map fst fs) → NoDup (map fst fs').
Proof.
  intros fs' Hn Hnd. rewrite NormalizeFacts.normalizeFields_mapFields in Hn.
  assert (Hkeys : ∀ (g : string → json → outcome json) xs xs',
            mapFields g xs = Ok xs' → map fst xs' = map fst xs).
  { intros g. induction xs as [|[k v] xs IHx]; intros xs'; simpl; [by intros [= <-]|].
    destruct (g k v); cbn [mbind outcome_bind]; [|done..].
    destruct (mapFields g xs) as [ys| |]; cbn [mbind outcome_bind]; [|done..].
    intros [= <-]. simpl. by rewrite (IHx ys). }
  rewrite (Hkeys _ _ _ Hn). unfold stripFields. by apply NormalizeFacts.filterBy_NoDup.
Qed.

Lemma kindOf_classifier t k :
  k ∈ ["type"; "enum"] → kindOf t k = Skip.
Proof.
  intros Hk. apply elem_of_cons in Hk as [->|Hk];
    [|apply elem_of_cons in Hk as [->|Hk]; [|by apply elem_of_nil in Hk]].
  all: unfold kindOf; repeat (destruct (isStr t _)); reflexivity.
Qed.

Lemma schemaTypeJ_settles t fs fs' :
  (∀ k, isAuthoring k = false →
     match assoc k fs, assoc k fs' with
     | Some v, Some v' => truthyJ v' = truthyJ v ∧ (kindOf t k = Skip → v' = v)
     | None, None => True
     | _, _ => False
     end) →
  schemaTypeJ fs' = schemaTypeJ fs ∧
  (∀ k, isAuthoring k = false → assoc k fs' = None ↔ assoc k fs = None).
Proof.
  intros Has. split.
  - unfold schemaTypeJ.
    pose proof (Has "type" eq_refl) as Htype.
    pose proof (Has "anyOf" eq_refl) as HanyOf.
    pose proof (Has "oneOf" eq_refl) as HoneOf.
    pose proof (Has "allOf" eq_refl) as HallOf.
    pose proof (Has "enum" eq_refl) as Henum.
    destruct (assoc "type" fs) as [v|], (assoc "type" fs') as [v'|]; try done.
    2:{ destruct (assoc "anyOf" fs), (assoc "anyOf" fs'); try done;
        destruct (assoc "oneOf" fs), (assoc "oneOf" fs'); try done;
        destruct (assoc "allOf" fs), (assoc "allOf" fs'); try done;
        destruct (assoc "enum" fs), (assoc "enum" fs'); try done;
        repeat match goal with H : _ ∧ _ |- _ => destruct H as [-> _] end; done. }
    destruct Htype as [Htr Hsk]. rewrite (Hsk (kindOf_classifier t "type" ltac:(repeat constructor))).
    destruct (assoc "anyOf" fs), (assoc "anyOf" fs'); try done;
      destruct (assoc "oneOf" fs), (assoc "oneOf" fs'); try done;
      destruct (assoc "allOf" fs), (assoc "allOf" fs'); try done;
      destruct (assoc "enum" fs), (assoc "enum" fs'); try done;
      repeat match goal with H : _ ∧ _ |- _ => destruct H as [-> _] end; done.
  - intros k Hk. specialize (Has k Hk).
    destruct (assoc k fs), (assoc k fs'); try done.
Qed.

Lemma lacksIterable_settles t fs fs' :
  (∀ k, isAuthoring k = false → assoc k fs' = None ↔ assoc k fs = None) →
  lacksIterable t fs = false → lacksIterable t fs' = false.
Proof.
  intros Hnone. unfold lacksIterable. destruct t as [| | |k| |]; try done.
  destruct (_ || _) eqn:Ek; [|done]. cbn [andb].
  assert (Hk : isAuthoring k = false).
  { apply orb_true_iff in Ek as [Ek|Ek]; [apply orb_true_iff in Ek as [Ek|Ek]|];
      apply String.eqb_eq in Ek as ->; reflexivity. }
  intros Hb%bool_decide_eq_false. apply bool_decide_eq_false.
  intros H. apply Hb. by apply Hnone.
Qed.

(** Every tree settles. *)
Lemma settles_all : ∀ n j, (jsize j < n)%nat → settles j.
Proof.
  induction n as [|n IH]; intros j Hsz; [lia|].
  destruct j as [|b|m|s|js|fs]; intros j'.
  1: by cbn [normalizeJson].
  1-4: cbn [normalizeJson]; intros [= <-]; split_and!; [done|done|done|lia].
  rewrite NormalizeFacts.normalizeJson_obj.
  destruct (lacksIterable (schemaTypeJ fs) fs) eqn:Hlack; [done|].
  destruct (normalizeFields (schemaTypeJ fs) fs) as [fs'| |] eqn:Hf;
    cbn [mbind outcome_bind]; [|done..].
  intros [= <-].
  destruct (normalizeFields_settles (schemaTypeJ fs) fs fs') as (Hfix & Has & Hkeys & Hu & Hs);
    [|done|].
  { eapply Forall_impl; [apply (NormalizeFacts.jsize_fields fs)|].
    intros f Hlt x Hx. apply IH. cbv beta in Hlt, Hx. lia. }
  destruct (schemaTypeJ_settles _ fs fs' Has) as [Ht Hnone].
  split_and!.
  - rewrite NormalizeFacts.normalizeJson_obj. rewrite Ht.
    rewrite (lacksIterable_settles _ fs fs' Hnone Hlack). rewrite Hfix. done.
  - done.
  - cbn [uniqueKeys]. intros [Hnd Huk]%andb_true_iff. apply andb_true_iff. split; [|auto].
    apply bool_decide_eq_true. apply bool_decide_eq_true in Hnd.
    by apply (normalizeFields_NoDup (schemaTypeJ fs) fs fs' Hf).
  - done.
Qed.

Lemma normalizeSchema_tree fuel h schema j result h' :
  stringify fuel [] h schema = Ok (Some j) →
  uniqueKeys j = true → (jsize j < fuel)%nat →
  normalizeSchema fuel schema h = Ok (result, h') →
  ∃ j', normalizeJson j = Ok j' ∧ tree h' j' result (length h) (length h').
Proof.
  intros Hs Hu Hsz. unfold normalizeSchema. rewrite Hs. cbn [mbind outcome_bind].
  destruct (parse j h) as [res h1] eqn:Hp.
  destruct (NormalizeFacts.parse_tree j Hu h res h1 Hp) as [[ext1 ->] Ht].
  pose proof (NormalizeFacts.walkSchema_walks fuel j (h ++ ext1) res (length h)
                (length (h ++ ext1)) Ht Hsz) as Hw.
  unfold walks, simulates in Hw.
  destruct (normalizeJson j) as [j'|e|] eqn:Hn; [|by rewrite Hw|done].
  destruct Hw as (h2 & -> & Ht2 & Hsame). cbn [mbind outcome_bind].
  intros [= <- <-]. exists j'. split; [done|].
  destruct Hsame as [Hlen _]. by rewrite Hlen.
Qed.

(** X21.  Normalizing twice is normalizing once.  When [normalizeSchema]
    has returned a schema, normalizing that schema again succeeds and
    gives a copy that serialises to the same JSON text: nothing is left
    for a second pass to strip. *)
Theorem normalizeSchema_idempotent fuel h schema j r1 h1 :
  stringify fuel [] h schema = Ok (Some j) →
  uniqueKeys j = true → (jsize j < fuel)%nat →
  normalizeSchema fuel schema h = Ok (r1, h1) →
  ∃ r2 h2 j',
    normalizeSchema fuel r1 h1 = Ok (r2, h2) ∧
    stringify fuel [] h1 r1 = Ok (Some j') ∧
    stringify fuel [] h2 r2 = Ok (Some j').
Proof.
  intros Hs Hu Hsz Hnorm.
  destruct (normalizeSchema_tree fuel h schema j r1 h1 Hs Hu Hsz Hnorm) as (j' & Hn & Ht).
  destruct (settles_all (S (jsize j)) j ltac:(lia) j' Hn) as (Hfix & _ & Hu' & Hsz').
  assert (Hs1 : stringify fuel [] h1 r1 = Ok (Some j')).
  { apply (NormalizeFacts.tree_stringify fuel j' h1 r1 _ _ [] Ht); [lia|].
    intros l Hl. by apply elem_of_nil in Hl. }
  destruct (normalizeSchema fuel r1 h1) as [[r2 h2]| |] eqn:Hnorm2.
  - destruct (normalizeSchema_tree fuel h1 r1 j' r2 h2 Hs1 (Hu' Hu) ltac:(lia) Hnorm2)
      as (j'' & Hn2 & Ht2).
    rewrite Hfix in Hn2. injection Hn2 as <-.
    exists r2, h2, j'. split_and!; [done|done|].
    apply (NormalizeFacts.tree_stringify fuel j' h2 r2 _ _ [] Ht2); [lia|].
    intros l Hl. by apply elem_of_nil in Hl.
  - exfalso. revert Hnorm2. unfold normalizeSchema. rewrite Hs1. cbn [mbind outcome_bind].
    destruct (parse j' h1) as [res h1'] eqn:Hp.
    destruct (NormalizeFacts.parse_tree j' (Hu' Hu) h1 res h1' Hp) as [[ext1 ->] Ht'].
    pose proof (NormalizeFacts.walkSchema_walks fuel j' (h1 ++ ext1) res (length h1)
                  (length (h1 ++ ext1)) Ht' ltac:(lia)) as Hw.
    unfold walks, simulates in Hw. rewrite Hfix in Hw.
    destruct Hw as (h2 & -> & _). done.
  - exfalso. revert Hnorm2. unfold normalizeSchema. rewrite Hs1. cbn [mbind outcome_bind].
    destruct (parse j' h1) as [res h1'] eqn:Hp.
    destruct (NormalizeFacts.parse_tree j' (Hu' Hu) h1 res h1' Hp) as [[ext1 ->] Ht'].
    pose proof (NormalizeFacts.walkSchema_walks fuel j' (h1 ++ ext1) res (length h1)
                  (length (h1 ++ ext1)) Ht' ltac:(lia)) as Hw.
    unfold walks, simulates in Hw. rewrite Hfix in Hw.
    destruct Hw as (h2 & -> & _). done.
Qed.

End RenormalizeFacts.

Module CompletionFacts.
Import Schema Completions Samples.

Lemma mapM_outcome_elem {A B : Type} (f : A → outcome B) xs : ∀ ys,
  mapM f xs = Ok ys → ∀ y, y ∈ ys → ∃ x, x ∈ xs ∧ f x = Ok y.
Proof.
  induction xs as [|x xs IH]; intros ys.
  { intros [= <-] y Hy. by apply elem_of_nil in Hy. }
  rewrite NormalizeFacts.mapM_cons_outcome.
  destruct (f x) as [y0| |] eqn:Hx; cbn [mbind outcome_bind]; [|done..].
  destruct (mapM f xs) as [k| |]; cbn [mbind outcome_bind]; [|done..].
  intros [= <-] y [->|Hy]%elem_of_cons.
  - exists x. split; [by left|done].
  - destruct (IH k eq_refl y Hy) as (x' & Hin & Hfx). exists x'. split; [by right|done].
Qed.

Lemma assoc_setProp k (v : val) ps : assoc k (setProp k v ps) = Some v.
Proof.
  induction ps as [|[k' v'] ps IH]; simpl.
  - by rewrite String.eqb_refl.
  - destruct (String.eqb k k') eqn:E; simpl; [by rewrite String.eqb_refl|by rewrite E].
Qed.

Lemma completionOf_schema h node c comp :
  completionOf h node c = Ok comp → assoc "schema" comp = Some node.
Proof.
  assert (Hspread : (ps ← spread h c; Ok (setProp "schema" node ps)) = Ok comp →
                    assoc "schema" comp = Some node).
  { destruct (spread h c) as [ps| |]; cbn [mbind outcome_bind]; [|done..].
    intros [= <-]. apply assoc_setProp. }
  destruct c; try exact Hspread. by intros [= <-].
Qed.

Lemma normalize_builtFrom h node l comps :
  getField h node "completions" = Ok (VRef l) →
  normalize h node (VRef l) = Ok comps →
  ∀ comp, comp ∈ comps → builtFrom h node comp.
Proof.
  intros Hget. unfold normalize, elements.
  destruct (h !! l) as [[props|vs]|] eqn:Hl; cbn [mbind outcome_bind]; [done| |done].
  intros Hm comp Hin.
  destruct (mapM_outcome_elem _ _ _ Hm comp Hin) as (c & Hc & Hcomp).
  exists l, vs, c. split_and!; try done. by eapply completionOf_schema.
Qed.

(** X16.  Where completions come from.  Every completion that
    [schemaCompletions] returns was built from an element of the
    [completions] array of some schema node, and carries that node as its
    [schema]. *)
Theorem schemaCompletions_provenance : ∀ fuel h schema comps,
  schemaCompletions fuel h schema = Ok comps →
  ∀ comp, comp ∈ comps → ∃ node, builtFrom h node comp.
Proof.
  induction fuel as [|fuel IH]; intros h schema comps; [done|].
  cbn [schemaCompletions].
  destruct (getField h schema "completions") as [cs| |] eqn:Hcs;
    cbn [mbind outcome_bind]; [|done..].
  destruct (if truthy cs then getLength h cs else Ok VUndefined) as [len| |] eqn:Hlen;
    cbn [mbind outcome_bind]; [|done..].
  destruct (truthy cs && truthy len) eqn:Huse.
  { intros Hn comp Hin. exists schema.
    destruct cs as [| | | |s|l]; try (unfold normalize, elements in Hn; done).
    by apply (normalize_builtFrom h schema l comps). }
  destruct (schemaType h schema) as [t| |]; cbn [mbind outcome_bind]; [|done..].
  assert (Hbranches : ∀ k,
    (xs ← getField h schema k; vs ← elements h xs;
     rs ← mapM (schemaCompletions fuel h) vs; Ok (concat rs)) = Ok comps →
    ∀ comp, comp ∈ comps → ∃ node, builtFrom h node comp).
  { intros k.
    destruct (getField h schema k) as [xs| |]; cbn [mbind outcome_bind]; [|done..].
    destruct (elements h xs) as [vs| |]; cbn [mbind outcome_bind]; [|done..].
    destruct (mapM _ vs) as [rs| |] eqn:Hm; cbn [mbind outcome_bind]; [|done..].
    intros [= <-] comp Hin.
    apply list_elem_of_In, in_concat in Hin as (r & Hr & Hcomp).
    apply list_elem_of_In in Hr, Hcomp.
    destruct (mapM_outcome_elem _ _ _ Hm r Hr) as (v & _ & Hv).
    by apply (IH h v r Hv). }
  destruct (decide (t = VStr "array")).
  { destruct (getField h schema "items") as [items| |]; cbn [mbind outcome_bind]; [|done..].
    destruct (truthy items); [apply IH|].
    intros [= <-] comp Hin. by apply elem_of_nil in Hin. }
  destruct (decide (t = VStr "anyOf")); [apply Hbranches|].
  destruct (decide (t = VStr "oneOf")); [apply Hbranches|].
  destruct (decide (t = VStr "allOf")); [apply Hbranches|].
  intros [= <-] comp Hin. by apply elem_of_nil in Hin.
Qed.

Lemma getField_total h v k x k' :
  getField h v k = Ok x → ∃ y, getField h v k' = Ok y.
Proof.
  destruct v as [| | | | |l]; simpl; try done; try (intros _; by eexists).
  destruct (h !! l) as [[?|?]|]; [by eexists..|done].
Qed.

Lemma normalizeSchema_root fuel h schema j result h' :
  stringify fuel [] h schema = Ok (Some j) →
  uniqueKeys j = true → (jsize j < fuel)%nat →
  normalizeSchema fuel schema h = Ok (result, h') →
  ∀ k, k ∈ authoringFields → ¬ hasField h' result k.
Proof.
  intros Hs Hu Hsz Hnorm.
  destruct (RenormalizeFacts.normalizeSchema_tree fuel h schema j result h' Hs Hu Hsz Hnorm)
    as (j' & Hn & Ht).
  by apply (NormalizeFacts.normalized_root _ j j' _ _ _ Hn Ht).
Qed.

(** X17.  A normalized schema has lost its completions.  For the
    schema returned by [normalizeSchema], when it is classified as
    neither an array nor a combinator, [schemaCompletions] returns no
    completion, and unless it is an object [schemaExhaustiveCompletions]
    answers [false], whatever the schema given to [normalizeSchema]
    said. *)
Theorem normalized_schema_has_no_completions fuel fuel' h schema j result h' t :
  stringify fuel [] h schema = Ok (Some j) →
  uniqueKeys j = true → (jsize j < fuel)%nat →
  normalizeSchema fuel schema h = Ok (result, h') →
  schemaType h' result = Ok t →
  t ≠ VStr "array" → t ≠ VStr "anyOf" → t ≠ VStr "oneOf" → t ≠ VStr "allOf" →
  schemaCompletions (S fuel') h' result = Ok [] ∧
  (t ≠ VStr "object" → schemaExhaustiveCompletions (S fuel') h' result = Ok (VBool false)).
Proof.
  intros Hs Hu Hsz Hnorm Ht Har Han Hon Haln.
  pose proof (normalizeSchema_root fuel h schema j result h' Hs Hu Hsz Hnorm) as Hroot.
  assert (Hfalsy : ∀ k, k ∈ authoringFields →
            ∃ x, getField h' result k = Ok x ∧ truthy x = false).
  { intros k Hk.
    assert (∃ y0, getField h' result "type" = Ok y0) as [y0 Hy0].
    { unfold schemaType in Ht. destruct (getField h' result "type"); [by eexists|done..]. }
    destruct (getField_total h' result "type" y0 k Hy0) as [x Hx].
    exists x. split; [done|]. destruct (truthy x) eqn:E; [|done].
    destruct (Hroot k Hk). by exists x. }
  split.
  - cbn [schemaCompletions].
    destruct (Hfalsy "completions") as (c & -> & Hc).
    { unfold authoringFields. repeat constructor. }
    cbn [mbind outcome_bind]. rewrite Hc. cbn [mbind outcome_bind andb].
    rewrite Ht. cbn [mbind outcome_bind].
    by rewrite !decide_False by done.
  - intros Hob. cbn [schemaExhaustiveCompletions]. rewrite Ht. cbn [mbind outcome_bind].
    rewrite !decide_False by done.
    destruct (Hfalsy "exhaustiveCompletions") as (e & -> & He).
    { unfold authoringFields. repeat constructor. }
    cbn [mbind outcome_bind]. by rewrite He.
Qed.

Lemma every_all (f : val → outcome val) vs :
  Forall (λ x, ∃ r, f x = Ok r ∧ truthy r = true) vs → every f vs = Ok true.
Proof.
  induction 1 as [|x vs (r & Hr & Ht) _ IH]; [done|].
  cbn [every]. rewrite Hr. cbn [mbind outcome_bind]. by rewrite Ht.
Qed.

Lemma every_stops (f : val → outcome val) pre v post :
  Forall (λ x, ∃ r, f x = Ok r ∧ truthy r = true) pre →
  (∃ r, f v = Ok r ∧ truthy r = false) →
  every f (pre ++ v :: post) = Ok false.
Proof.
  intros Hpre (r & Hr & Ht).
  induction Hpre as [|x pre (rx & Hrx & Htx) _ IH]; cbn [app every].
  - rewrite Hr. cbn [mbind outcome_bind]. by rewrite Ht.
  - rewrite Hrx. cbn [mbind outcome_bind]. by rewrite Htx.
Qed.

(** X20.  A combinator is exhaustive when all its branches are, and
    the branches after the first one that is not are never looked at: the
    answer is [false] whatever they hold, also when inspecting one of
    them would throw. *)
Theorem schemaExhaustiveCompletions_branches fuel h schema k l vs :
  k ∈ ["anyOf"; "oneOf"; "allOf"] →
  schemaType h schema = Ok (VStr k) →
  getField h schema k = Ok (VRef l) →
  h !! l = Some (Arr vs) →
  (Forall (λ x, ∃ r, schemaExhaustiveCompletions fuel h x = Ok r ∧ truthy r = true) vs →
   schemaExhaustiveCompletions (S fuel) h schema = Ok (VBool true)) ∧
  (∀ pre v post, vs = pre ++ v :: post →
     Forall (λ x, ∃ r, schemaExhaustiveCompletions fuel h x = Ok r ∧ truthy r = true) pre →
     (∃ r, schemaExhaustiveCompletions fuel h v = Ok r ∧ truthy r = false) →
     schemaExhaustiveCompletions (S fuel) h schema = Ok (VBool false)).
Proof.
  intros Hk Ht Hget Hl.
  assert (Hrun : schemaExhaustiveCompletions (S fuel) h schema =
                 (b ← every (schemaExhaustiveCompletions fuel h) vs; Ok (VBool b))).
  { cbn [schemaExhaustiveCompletions]. rewrite Ht. cbn [mbind outcome_bind].
    assert (Helems : elements h (VRef l) = Ok vs) by (unfold elements; by rewrite Hl).
    apply elem_of_cons in Hk as [->|Hk]; [|apply elem_of_cons in Hk as [->|Hk];
      [|apply elem_of_cons in Hk as [->|Hk]; [|by apply elem_of_nil in Hk]]].
    - rewrite decide_True by done. rewrite Hget. cbn [mbind outcome_bind].
      by rewrite Helems.
    - rewrite decide_False by done. rewrite decide_True by done.
      rewrite Hget. cbn [mbind outcome_bind]. by rewrite Helems.
    - rewrite !decide_False by done. rewrite decide_True by done.
      rewrite Hget. cbn [mbind outcome_bind]. by rewrite Helems. }
  rewrite Hrun. split.
  - intros Hall. by rewrite (every_all _ vs Hall).
  - intros pre v post -> Hpre Hv. by rewrite (every_stops _ pre v post Hpre Hv).
Qed.

End CompletionFacts.

Module AdapterMore.
Import TreeSitter Parsing Samples.

Section ReparseFacts.
Context `{TL : TextLib} `{P : Parser}.

(** When the attempt for [k] deletions throws, the loop yields the clean
    attempts made before it and ends on the exception. *)
Lemma reparse_until mcode codeLines pos cl k : ∀ fuel cc d,
  d < k ≤ d + cc → (Z.to_nat cc ≤ fuel)%nat →
  (∀ j, d < j < k → is_Some (attemptAt mcode codeLines pos cl j)) →
  attemptAt mcode codeLines pos cl k = None →
  reparse fuel mcode codeLines pos cl cc d =
    {| yields := filter (λ y, cleanAttempt y = true)
                   (omap (attemptAt mcode codeLines pos cl) (seqZ (d + 1) (k - d - 1)));
       ending_of := Raised |}.
Proof.
  induction fuel as [|fuel IH]; intros cc d Hk Hf Hall Hnone; [lia|].
  rewrite ParsingFacts.reparse_unfold by lia.
  destruct (decide (k = d + 1)) as [->|Hne].
  - rewrite Hnone. rewrite seqZ_nil by lia. done.
  - destruct (Hall (d + 1) ltac:(lia)) as [y Hy]. rewrite Hy.
    rewrite (IH (cc - 1) (d + 1)) by (try lia; try done; intros j Hj; apply Hall; lia).
    rewrite (seqZ_cons (d + 1)) by lia. simpl. rewrite Hy.
    replace (Z.succ (d + 1)) with (d + 1 + 1) by lia.
    replace (Z.pred (k - d - 1)) with (k - (d + 1) - 1) by lia.
    rewrite filter_cons.
    destruct (cleanAttempt y) eqn:Ec.
    + rewrite decide_True by done. done.
    + rewrite decide_False by done. done.
Qed.

(** X18.  An exception in the loop is not caught.  When the first
    attempt that throws (the parser, or the reading of a line that is not
    there) is the one for [k] deletions, the exception leaves the
    generator, after the parse of the whole buffer (if clean) and the
    clean attempts for fewer deletions were yielded. *)
Theorem attemptParsesAtLine_reparse_throws fuel context t cl k :
  fullParse context = Some t →
  nthZ (codeLinesOf context) (row (position context)) = Some cl →
  0 < k ≤ column (position context) →
  (Z.to_nat (column (position context)) ≤ fuel)%nat →
  (∀ j, 0 < j < k →
        is_Some (attemptAt (asMappedString (ctx_code context)) (codeLinesOf context)
                           (position context) (substring cl) j)) →
  attemptAt (asMappedString (ctx_code context)) (codeLinesOf context)
            (position context) (substring cl) k = None →
  attemptParsesAtLine fuel context =
    {| yields :=
         (if clean t then [fullBufferAttempt context t] else []) ++
         filter (λ y, cleanAttempt y = true)
           (omap (attemptAt (asMappedString (ctx_code context)) (codeLinesOf context)
                            (position context) (substring cl))
                 (seqZ 1 (k - 1)));
       ending_of := Raised |}.
Proof.
  intros Hfull Hcl Hk Hfuel Hall Hnone.
  rewrite (ParsingFacts.attemptParsesAtLine_inside fuel context t cl) by done.
  rewrite (reparse_until _ _ _ _ k) by (try done; lia).
  cbn zeta. cbn [yields ending_of]. by replace (k - 0 - 1) with (k - 1) by lia.
Qed.

End ReparseFacts.

End AdapterMore.

(** ** The statements above on the sample data *)

Module MoreWitnesses.
Import Schema Registry Errors Paths TreeSitter Parsing Aliases Locate Completions Renormalize.
Import Samples MoreSamples.

Lemma expandAliasesFrom_levels_witness :
  expansions formatAliases ["$html-all"; "pdf"] = Some ["html"; "$slides"] ∧
  expandAliasesFrom 6 ["$html-all"; "pdf"] formatAliases =
    r ← expandAliasesFrom 4 ["html"; "$slides"] formatAliases; Ok (["pdf"] ++ r).
Proof.
  split; [vm_compute; reflexivity|].
  apply (AliasFacts.expandAliasesFrom_levels formatAliases 4 ["$html-all"; "pdf"]
           ["html"; "$slides"]).
  vm_compute. reflexivity.
Defined.

Lemma expandAliasesFrom_plain_witness :
  expandAliasesFrom 2 ["html"; "pdf"] formatAliases = Ok ["html"; "pdf"].
Proof.
  apply (AliasFacts.expandAliasesFrom_plain formatAliases 2 ["html"; "pdf"]).
  - repeat constructor.
  - simpl. lia.
Defined.

Lemma expandAliasesFrom_result_witness :
  (∀ x, x ∈ ["pdf"; "html"; "revealjs"] →
     isAlias x = false ∧
     (x ∈ ["$html-all"; "pdf"] ∨ ∃ k v, formatAliases !! k = Some v ∧ x ∈ v)) ∧
  plainNames ["$html-all"; "pdf"] `prefix_of` ["pdf"; "html"; "revealjs"].
Proof.
  apply (AliasFacts.expandAliasesFrom_result formatAliases 6 ["$html-all"; "pdf"]
           ["pdf"; "html"; "revealjs"]).
  vm_compute. reflexivity.
Defined.

Lemma expandAliasesFrom_unknown_witness :
  ∃ e, expandAliasesFrom 3 ["html"; "$docx-all"; "pdf"] formatAliases = Throw e.
Proof.
  apply (AliasFacts.expandAliasesFrom_unknown formatAliases 3
           ["html"; "$docx-all"; "pdf"] "$docx-all").
  - repeat constructor.
  - reflexivity.
  - vm_compute. reflexivity.
  - simpl. lia.
Defined.

Lemma expandAliasesFrom_cycle_witness :
  expandAliasesFrom 1000 ["pdf"; "$all"] loopingAliases ≠ Ok ["pdf"; "html"].
Proof.
  apply (AliasFacts.expandAliasesFrom_cycle loopingAliases 1000 ["pdf"; "$all"] "$all"
           ["html"; "$all"] ["pdf"; "html"]).
  - repeat constructor.
  - reflexivity.
  - vm_compute. reflexivity.
  - repeat constructor.
Defined.

Lemma define_keeps_definitions_witness :
  let w1 := (define 5 (VRef 0) emptyWorld).1 in
  hasSchemaDefinition (definitionsObject w1) "other" =
    hasSchemaDefinition (definitionsObject emptyWorld) "other" ∧
  getSchemaDefinition (definitionsObject w1) "other" =
    getSchemaDefinition (definitionsObject emptyWorld) "other".
Proof.
  intros w1.
  apply (RegistryMore.define_keeps_definitions 5 (VRef 0) emptyWorld w1
           (define 5 (VRef 0) emptyWorld).2 "other").
  - subst w1. by destruct (define 5 (VRef 0) emptyWorld).
  - left. vm_compute. intros [=].
Defined.

Lemma define_registers_before_normalizing_witness :
  ∃ w1, define 5 (VRef 0) brokenWorld = (w1, Throw TypeError) ∧
        store w1 = store brokenWorld ∧
        getSchemaDefinition (definitionsObject w1) "broken" = Ok (Own (VRef 0)) ∧
        define 5 (VRef 0) w1 = (w1, Ok ()).
Proof.
  apply (RegistryMore.define_registers_before_normalizing 5 5 (VRef 0) brokenWorld
           "broken" TypeError).
  - reflexivity.
  - vm_compute. reflexivity.
  - vm_compute. reflexivity.
Defined.

Lemma prototype_names_are_taken_witness :
  hasSchemaDefinition ∅ "constructor" = true ∧
  getSchemaDefinition ∅ "constructor" = Ok (Inherited "constructor") ∧
  (idKey constructorSchema (VRef 0) = Ok "constructor" →
   setSchemaDefinition constructorSchema ∅ (VRef 0) = Ok ∅).
Proof.
  apply (RegistryMore.prototype_names_are_taken constructorSchema ∅ (VRef 0) "constructor").
  - unfold objectPrototypeNames. repeat constructor.
  - reflexivity.
Defined.

Lemma schema_without_id_is_undefined_witness :
  ∃ d1, setSchemaDefinition flagged ∅ (VRef 0) = Ok d1 ∧
        getSchemaDefinition d1 "undefined" = Ok (Own (VRef 0)) ∧
        ∀ schema2, getField flagged schema2 "$id" = Ok VUndefined →
                   setSchemaDefinition flagged d1 schema2 = Ok d1.
Proof.
  apply (RegistryMore.schema_without_id_is_undefined flagged ∅ (VRef 0)).
  - reflexivity.
  - vm_compute. reflexivity.
Defined.

Lemma getLastFragment_last_segment_witness :
  getLastFragment ("/authors" +:+ String "/" "2") = fragmentOf "2" ∧
  getLastFragment "2" = fragmentOf "2" ∧
  getLastFragment ("/authors" +:+ "/") = FUndefined.
Proof.
  apply (ErrorsMore.getLastFragment_last_segment "/authors" "2"). reflexivity.
Defined.

Lemma didYouMean_wording_witness :
  didYouMean (["title"; "subtitle"] ++ ["author"]) =
    "Did you mean " +:+ join ", " (map blue ["title"; "subtitle"]) +:+ ", or "
    +:+ blue "author" +:+ "?".
Proof.
  destruct ErrorsMore.didYouMean_wording as (_ & _ & H).
  apply (H ["title"; "subtitle"] "author"). simpl. lia.
Defined.

Lemma getYamlIndentTree_parents_witness :
  ∃ pred ind,
    getYamlIndentTree 4 nested = Ok (pred, ind) ∧
    indentsOf (lines nested) ind ∧
    parentsShallower (lines nested) pred.
Proof.
  apply (LocateFacts.getYamlIndentTree_parents 4 nested). vm_compute. lia.
Defined.

Lemma locateFromIndentation_ends_witness :
  (∃ path, locateFromIndentation 4 belowNested = Ok path) ∨
  locateFromIndentation 4 belowNested =
    Throw (InternalError "Internal error: this shouldn't have happened").
Proof.
  destruct (LocateFacts.locateFromIndentation_ends 4 belowNested) as (_ & _ & H).
  - vm_compute. lia.
  - apply H. vm_compute. split; [discriminate|reflexivity].
Defined.

Lemma locateFromIndentation_path_witness :
  Forall (fromLine (lines nested) 4 3) [PKey "a"; PKey "b"].
Proof.
  apply (LocateFacts.locateFromIndentation_path 4 belowNested [PKey "a"; PKey "b"]).
  - vm_compute. lia.
  - vm_compute. reflexivity.
Defined.

Lemma locateFromIndentation_value_line_witness :
  locateFromIndentation 4 onValueLine =
    Throw (InternalError "Internal error: this shouldn't have happened").
Proof.
  apply (LocateFacts.locateFromIndentation_value_line 4 onValueLine 2 "    c: 1").
  - vm_compute. lia.
  - reflexivity.
  - reflexivity.
  - reflexivity.
  - reflexivity.
  - reflexivity.
  - vm_compute. discriminate.
Defined.

Lemma schemaCompletions_provenance_witness :
  ∃ node, builtFrom choices node
    [("type", VStr "value"); ("display", VStr "b"); ("value", VStr "b");
     ("description", VStr ""); ("suggest_on_accept", VBool false); ("schema", VRef 1)].
Proof.
  apply (CompletionFacts.schemaCompletions_provenance 3 choices (VRef 4)
    [[("type", VStr "value"); ("display", VStr "a"); ("value", VStr "a");
      ("description", VStr ""); ("suggest_on_accept", VBool false); ("schema", VRef 1)];
     [("type", VStr "value"); ("display", VStr "b"); ("value", VStr "b");
      ("description", VStr ""); ("suggest_on_accept", VBool false); ("schema", VRef 1)]]).
  - vm_compute. reflexivity.
  - repeat constructor.
Defined.

Lemma normalized_schema_has_no_completions_witness :
  schemaCompletions 3 (enumerated ++ [Arr [VStr "a"]; Obj [("type", VStr "string")]])
    (VRef 3) = Ok [] ∧
  (VStr "string" ≠ VStr "object" →
   schemaExhaustiveCompletions 3
     (enumerated ++ [Arr [VStr "a"]; Obj [("type", VStr "string")]]) (VRef 3)
   = Ok (VBool false)).
Proof.
  apply (CompletionFacts.normalized_schema_has_no_completions 8 2 enumerated (VRef 1)
           (JObj [("type", JStr "string"); ("completions", JArr [JStr "a"]);
                  ("exhaustiveCompletions", JBool true)])
           (VRef 3) _ (VStr "string")); try discriminate.
  - vm_compute. reflexivity.
  - vm_compute. reflexivity.
  - vm_compute. lia.
  - vm_compute. reflexivity.
  - vm_compute. reflexivity.
Defined.

Lemma checkForSimilarKey_measures_fragment_text_witness :
  ∃ m, (∀ k, k ∈ ["title"; "subtitle"] → (m ≤ editDistance k "7")%nat) ∧
       (∃ k, k ∈ ["title"; "subtitle"] ∧ editDistance k "7" = m) ∧
       checkForSimilarKey documentSchemas numericKey noParse VUndefined =
         Ok {| source := "007: x";
               violatingObject := violatingObject numericKey;
               instancePath := "/007";
               message := "";
               location := ();
               niceError :=
                 {| heading := "property 007 not allowed in object";
                    Errors.error := [];
                    info :=
                      if (10 * String.length "7" <? 3 * m)%nat
                      then []
                      else [] ++ [didYouMean (filter (λ k, editDistance k "7" = m)
                                                ["title"; "subtitle"])];
                    niceLocation := () |};
               ajvError := ajvError numericKey |}.
Proof.
  exact (ErrorsMore.checkForSimilarKey_measures_fragment_text documentSchemas numericKey
           noParse VUndefined "" "007" (VStr "document") (VRef 2) ["title"; "subtitle"]
           (or_introl eq_refl) eq_refl ltac:(done) eq_refl eq_refl eq_refl ltac:(done)).
Defined.

Lemma checkForBadBoolean_rewrites_witness :
  checkForBadBoolean documentSchemas (stringForBoolean "yes") noParse VUndefined =
    Ok {| source := "yes";
          violatingObject := violatingObject (stringForBoolean "yes");
          instancePath := "/draft";
          message := "";
          location := ();
          niceError :=
            {| heading := "Key draft has value yes but it must instead be true or false";
               Errors.error := ["The value yes is a string."];
               info := ["Quarto uses YAML 1.2, which interprets booleans strictly.";
                        "Try using true instead."];
               niceLocation := () |};
          ajvError := ajvError (stringForBoolean "yes") |}.
Proof.
  destruct (ErrorsFacts.checkForBadBoolean_rewrites documentSchemas (stringForBoolean "yes")
              noParse VUndefined {| schema := VRef 5 |} eq_refl) as [H _].
  destruct (H "yes" eq_refl eq_refl eq_refl) as [Hfix _].
  apply (Hfix true "Key draft has value yes but it must instead be true or false").
  - left. split; [|reflexivity]. apply ErrorsFacts.has_elem_of. reflexivity.
  - reflexivity.
Defined.

Lemma attemptParsesAtLine_reparse_throws_witness :
  ending_of (@attemptParsesAtLine plainText fragileParser 4 fourLetters) = Raised ∧
  map deletions (yields (@attemptParsesAtLine plainText fragileParser 4 fourLetters)) = [0; 1].
Proof.
  rewrite (@AdapterMore.attemptParsesAtLine_reparse_throws plainText fragileParser
             4 fourLetters "stream"
             {| substring := "abcd"; range := {| start := 0; end_ := 4 |} |} 2).
  - split; vm_compute; reflexivity.
  - reflexivity.
  - reflexivity.
  - vm_compute. split; [reflexivity|discriminate].
  - vm_compute. lia.
  - intros j Hj. assert (j = 1) as -> by lia. vm_compute. by eexists.
  - vm_compute. reflexivity.
Defined.

Lemma schemaExhaustiveCompletions_branches_witness :
  schemaExhaustiveCompletions 2 mixedBranches (VRef 3) = Ok (VBool false).
Proof.
  destruct (CompletionFacts.schemaExhaustiveCompletions_branches 1 mixedBranches (VRef 3)
              "anyOf" 2 [VRef 0; VRef 1; VNull]) as [_ H].
  - repeat constructor.
  - reflexivity.
  - reflexivity.
  - reflexivity.
  - apply (H [VRef 0] (VRef 1) [VNull]).
    + reflexivity.
    + constructor; [|constructor]. exists (VBool true). split; reflexivity.
    + exists (VBool false). split; reflexivity.
Defined.

Lemma normalizeSchema_idempotent_witness :
  ∃ r2 h2 j',
    normalizeSchema 8 (VRef 3)
      (enumerated ++ [Arr [VStr "a"]; Obj [("type", VStr "string")]]) = Ok (r2, h2) ∧
    stringify 8 [] (enumerated ++ [Arr [VStr "a"]; Obj [("type", VStr "string")]]) (VRef 3)
      = Ok (Some j') ∧
    stringify 8 [] h2 r2 = Ok (Some j').
Proof.
  apply (RenormalizeFacts.normalizeSchema_idempotent 8 enumerated (VRef 1)
           (JObj [("type", JStr "string"); ("completions", JArr [JStr "a"]);
                  ("exhaustiveCompletions", JBool true)])).
  - vm_compute. reflexivity.
  - vm_compute. reflexivity.
  - vm_compute. lia.
  - vm_compute. reflexivity.
Defined.

End MoreWitnesses.
